(** * duro-operator: the DashboardApp convergence loop

    A shallow embedding of the operator's reconciliation pass
    (controllers/dashboardapp_controller.go), of the assembler it calls
    (pkg/assembler) and of the error classifier (pkg/errors), with the
    properties of the pass proved over it.

    Go values are embedded as follows.  A [string] is a sequence of bytes
    and is a Rocq [string]; an [int] is a [Z] (the code compares priorities
    and never computes with them, so no wrap-around can occur; the range
    of the type is [properties.isInt]); a
    [map[string]string] is a [gmap string string] under an [option], [None]
    being the nil map; a slice is a [list], under an [option] where the code
    can see a nil slice; [(T, error)] results are sums.

    The API server is a state the pass computes over.  Every call of the
    pass to the client and to the event recorder is written to a trace, and
    every call to the client can be made to fail with any error; the
    errors the client itself returns are told apart by
    [pass_properties.clientErrors].  Logging,
    the trace id and the deadline on the context have no part in what a
    pass writes and are left out.

    The standard library is embedded as far as the pass runs it:
    [slices.SortFunc], [crypto/sha256], [encoding/hex] and
    [encoding/json] for a slice of entries. *)

From Stdlib Require Import ZArith List Ascii String DecimalString Sorting.Sorted Sorting.Permutation.
From stdpp Require Import base option list gmap strings.

Local Open Scope Z_scope.

(** ** k8s.io/apimachinery/pkg/apis/meta/v1 *)
Module metav1.

(** [metav1.Time], as seconds since the epoch. *)
Definition Time := Z.

(** The fields of [ObjectMeta] that the operator reads or writes. *)
Record ObjectMeta := {
  Name : string;
  Namespace : string;
  Labels : option (gmap string string);
  Annotations : option (gmap string string);
}.

Definition StatusReasonNotFound : string := "NotFound".
Definition StatusReasonAlreadyExists : string := "AlreadyExists".

End metav1.

(** ** api/v1alpha1 *)
Module v1alpha1.

Record DashboardAppSpec := {
  Name : string;
  URL : string;
  Category : string;
  Icon : string;
  Groups : option (list string);
  Priority : Z;
}.

Record DashboardAppStatus := {
  Ready : bool;
  LastSyncedAt : option metav1.Time;
  Conditions : list string;
}.

Record DashboardApp := {
  ObjectMeta : metav1.ObjectMeta;
  Spec : DashboardAppSpec;
  Status : DashboardAppStatus;
}.

End v1alpha1.

(** ** pkg/errors *)
Module operrors.

Inductive ErrorType := ErrorTypeTransient | ErrorTypePermanent | ErrorTypeConfig.

(** Go's [error] interface, with the dynamic types a pass can meet: the
    operator's own [*OperatorError], the API machinery's [*StatusError]
    (carrying its reason) and a plain message as made by [errors.New]. *)
#[warnings="-register-all"] Inductive error :=
| OperatorError (Type_ : ErrorType) (Message : string) (Cause : option error)
| StatusError (Reason : string) (Message : string)
| errorString (s : string).

Definition ErrorType_eqb (a b : ErrorType) : bool :=
  match a, b with
  | ErrorTypeTransient, ErrorTypeTransient
  | ErrorTypePermanent, ErrorTypePermanent
  | ErrorTypeConfig, ErrorTypeConfig => true
  | _, _ => false
  end.

Fixpoint Error (e : error) : string :=
  match e with
  | OperatorError _ m (Some c) => m ++ ": " ++ Error c
  | OperatorError _ m None => m
  | StatusError _ m => m
  | errorString s => s
  end.

Definition Unwrap (e : error) : option error :=
  match e with
  | OperatorError _ _ c => c
  | _ => None
  end.

Definition NewTransientError (message : string) (cause : option error) : error :=
  OperatorError ErrorTypeTransient message cause.

Definition NewPermanentError (message : string) (cause : option error) : error :=
  OperatorError ErrorTypePermanent message cause.

Definition NewConfigError (message : string) (cause : option error) : error :=
  OperatorError ErrorTypeConfig message cause.

(** The type assertion to an [OperatorError] pointer looks at the dynamic
    type of [err] itself; it does not unwrap. *)
Definition ShouldRetry (err : error) : bool :=
  match err with
  | OperatorError t _ _ => ErrorType_eqb t ErrorTypeTransient
  | _ => true
  end.

(** [apierrors.ReasonForError]: the reason of the first [*StatusError] on
    the [Unwrap] chain, the empty reason when there is none. *)
Fixpoint ReasonForError (e : error) : string :=
  match e with
  | StatusError r _ => r
  | OperatorError _ _ (Some c) => ReasonForError c
  | _ => ""
  end.

Definition IsNotFound (e : error) : bool :=
  String.eqb (ReasonForError e) metav1.StatusReasonNotFound.

End operrors.

(** ** The standard library's [cmp] and [slices] *)
Module cmp.

(** [cmp.Compare] returns -1, 0 or +1; these are [Lt], [Eq] and [Gt]. *)
Definition Compare_int (x y : Z) : comparison := Z.compare x y.

(** Strings compare byte-wise, the shorter of two prefixes first. *)
Definition Compare_string (x y : string) : comparison := String.compare x y.

End cmp.

Module slices.

Section Sort.
Context {E : Type}.
Variable cmpf : E -> E -> comparison.

(** [a] is not above [b]. *)
Definition le (a b : E) : Prop := cmpf a b <> Gt.

(** The inner loop of [insertionSortCmpFunc]: [x] stands at the right
    of the sorted prefix, given here last element first, and is swapped
    leftwards while it compares below its left neighbour. *)
Fixpoint sift (x : E) (rprefix : list E) : list E :=
  match rprefix with
  | [] => [x]
  | y :: r =>
      match cmpf x y with
      | Lt => y :: sift x r
      | _ => x :: rprefix
      end
  end.

(** The outer loop: elements enter the prefix from left to right. *)
Fixpoint insertionSortCmpFunc (rprefix : list E) (data : list E) : list E :=
  match data with
  | [] => rev rprefix
  | x :: rest => insertionSortCmpFunc (sift x rprefix) rest
  end.

(** [slices.SortFunc].  The library sorts a slice of up to twelve
    elements with [insertionSortCmpFunc], transcribed above, and longer
    ones with a pattern-defeating quicksort that yields the same
    elements in an order that differs at most between elements the
    comparison function holds equal. *)
Definition SortFunc (data : list E) : list E :=
  insertionSortCmpFunc [] data.

End Sort.

End slices.

(** ** pkg/assembler *)
Module assembler.

Import operrors.

Record AppEntry := {
  ID : string;
  Name : string;
  URL : string;
  Category : string;
  Icon : string;
  Groups : option (list string);
  Priority : Z;
}.

Definition categoryOrder : gmap string Z :=
  <["media" := 0]> (<["ai" := 1]> (<["productivity" := 2]>
    (<["development" := 3]> (<["admin" := 4]> ∅)))).

(** [categoryOrder[c]]: indexing a Go map with an absent key gives the
    zero value of the element type. *)
Definition categoryOrder_at (c : string) : Z :=
  default 0 (categoryOrder !! c).

Record AssemblyResult := {
  Entries : list AppEntry;
  AppsJSON : string;
}.

(** The body of the first loop of [Assemble]: the entry of one app. *)
Definition entryOf (app : v1alpha1.DashboardApp) : AppEntry :=
  let priority := v1alpha1.Priority (v1alpha1.Spec app) in
  let priority := if priority =? 0 then 100 else priority in
  {| ID := metav1.Name (v1alpha1.ObjectMeta app);
     Name := v1alpha1.Name (v1alpha1.Spec app);
     URL := v1alpha1.URL (v1alpha1.Spec app);
     Category := v1alpha1.Category (v1alpha1.Spec app);
     Icon := v1alpha1.Icon (v1alpha1.Spec app);
     Groups := v1alpha1.Groups (v1alpha1.Spec app);
     Priority := priority |}.

(** The comparison function handed to [slices.SortFunc]. *)
Definition compareEntries (a b : AppEntry) : comparison :=
  let ca := categoryOrder_at (Category a) in
  let cb := categoryOrder_at (Category b) in
  match cmp.Compare_int ca cb with
  | Eq =>
      match cmp.Compare_int (Priority a) (Priority b) with
      | Eq => cmp.Compare_string (Name a) (Name b)
      | c => c
      end
  | c => c
  end.

Section Assemble.
(** [json.MarshalIndent] with an empty prefix and an indent of two
    spaces.  The encoder belongs to the
    standard library; the assembler is written against any encoder, so
    that the error branch of [Assemble] and the [AssemblyFailed] branch
    of the reconciler are covered although the real encoder, [json]
    below, has no failing case for a slice of entries. *)
Variable MarshalIndent : list AppEntry -> string + error.

Definition Assemble (apps : list v1alpha1.DashboardApp) : AssemblyResult + error :=
  let entries := map entryOf apps in
  let entries := slices.SortFunc compareEntries entries in
  match MarshalIndent entries with
  | inr err => inr err
  | inl jsonBytes => inl {| Entries := entries; AppsJSON := jsonBytes |}
  end.

End Assemble.

End assembler.

(** ** crypto/sha256 and encoding/hex *)
Module sha256.

(** Words are 32-bit unsigned integers carried in [Z]; every operation
    that can leave the range reduces modulo 2^32. *)
Definition w32 (x : Z) : Z := x mod 2 ^ 32.
Definition add32 (x y : Z) : Z := w32 (x + y).
Definition rotr (n x : Z) : Z :=
  Z.lor (Z.shiftr x n) (w32 (Z.shiftl x (32 - n))).
Definition not32 (x : Z) : Z := 2 ^ 32 - 1 - x.

Definition Ch (x y z : Z) : Z := Z.lxor (Z.land x y) (Z.land (not32 x) z).
Definition Maj (x y z : Z) : Z :=
  Z.lxor (Z.lxor (Z.land x y) (Z.land x z)) (Z.land y z).
Definition bsig0 (x : Z) : Z := Z.lxor (Z.lxor (rotr 2 x) (rotr 13 x)) (rotr 22 x).
Definition bsig1 (x : Z) : Z := Z.lxor (Z.lxor (rotr 6 x) (rotr 11 x)) (rotr 25 x).
Definition ssig0 (x : Z) : Z := Z.lxor (Z.lxor (rotr 7 x) (rotr 18 x)) (Z.shiftr x 3).
Definition ssig1 (x : Z) : Z := Z.lxor (Z.lxor (rotr 17 x) (rotr 19 x)) (Z.shiftr x 10).

(** The first sixty-four primes, 2 to 311. *)
Definition isPrime (n : Z) : bool :=
  forallb (fun d => negb (n mod d =? 0)) (map Z.of_nat (seq 2 (Z.to_nat n - 2))).

Definition primes : list Z := List.filter isPrime (map Z.of_nat (seq 2 310)).

(** The integer cube root of [n], found bit by bit from bit [bits] down. *)
Fixpoint cbrt (bits : nat) (n r : Z) : Z :=
  match bits with
  | O => r
  | S b =>
      let r' := r + 2 ^ Z.of_nat b in
      if r' * r' * r' <=? n then cbrt b n r' else cbrt b n r
  end.

(** The round constants: the first thirty-two bits of the fractional parts
    of the cube roots of the primes. *)
Definition _K : list Z := map (fun p => w32 (cbrt 40 (p * 2 ^ 96) 0)) primes.

(** The eight chaining words. *)
Definition digest : Type := Z * Z * Z * Z * Z * Z * Z * Z.

(** The initial value: the first thirty-two bits of the fractional parts of
    the square roots of the first eight primes. *)
Definition init : digest :=
  match map (fun p => w32 (Z.sqrt (p * 2 ^ 64))) (firstn 8 primes) with
  | [a; b; c; d; e; f; g; h] => (a, b, c, d, e, f, g, h)
  | _ => (0, 0, 0, 0, 0, 0, 0, 0)
  end.

(** One round.  The message schedule is kept as a window of the last
    sixteen words, the word of the current round first. *)
Definition round (st : digest * list Z) (k : Z) : digest * list Z :=
  let '((a, b, c, d, e, f, g, h), w) := st in
  let wt := nth 0 w 0 in
  let t1 := add32 (add32 (add32 (add32 h (bsig1 e)) (Ch e f g)) k) wt in
  let t2 := add32 (bsig0 a) (Maj a b c) in
  let wnext :=
    add32 (add32 (add32 (ssig1 (nth 14 w 0)) (nth 9 w 0)) (ssig0 (nth 1 w 0))) wt in
  ((add32 t1 t2, a, b, c, add32 d t1, e, f, g), tl w ++ [wnext]).

Definition block (hh : digest) (w : list Z) : digest :=
  let '(a, b, c, d, e, f, g, h) := hh in
  let '((a', b', c', d', e', f', g', h'), _) := fold_left round _K (hh, w) in
  (add32 a a', add32 b b', add32 c c', add32 d d',
   add32 e e', add32 f f', add32 g g', add32 h h').

(** Big-endian bytes of a word and back. *)
Definition be32 (x : Z) : list Z :=
  [Z.shiftr x 24 mod 256; Z.shiftr x 16 mod 256; Z.shiftr x 8 mod 256; x mod 256].

Fixpoint words (n : nat) (bs : list Z) : list Z :=
  match n with
  | O => []
  | S n' =>
      match bs with
      | b0 :: b1 :: b2 :: b3 :: rest =>
          (((b0 * 256 + b1) * 256 + b2) * 256 + b3) :: words n' rest
      | _ => []
      end
  end.

Fixpoint blocks (n : nat) (hh : digest) (bs : list Z) : digest :=
  match n with
  | O => hh
  | S n' => blocks n' (block hh (words 16 (firstn 64 bs))) (skipn 64 bs)
  end.

(** The message followed by the byte 0x80, zeros up to 56 modulo 64 and
    the bit length as eight big-endian bytes. *)
Definition pad (msg : list Z) : list Z :=
  let len := Z.of_nat (length msg) in
  let zeros := Z.to_nat ((55 - len) mod 64) in
  msg ++ [0x80] ++ repeat 0 zeros
      ++ be32 (Z.shiftr (len * 8) 32 mod 2 ^ 32) ++ be32 ((len * 8) mod 2 ^ 32).

Definition bytes_of_string (s : string) : list Z :=
  map (fun c => Z.of_N (N_of_ascii c)) (list_ascii_of_string s).

(** [sha256.Sum256]: the thirty-two bytes of the digest. *)
Definition Sum256 (data : list Z) : list Z :=
  let p := pad data in
  let '(a, b, c, d, e, f, g, h) := blocks (Nat.div (length p) 64) init p in
  be32 a ++ be32 b ++ be32 c ++ be32 d ++ be32 e ++ be32 f ++ be32 g ++ be32 h.

End sha256.

Module hex.

Definition hextable : string := "0123456789abcdef".

Definition digit (n : Z) : ascii :=
  match String.get (Z.to_nat n) hextable with
  | Some c => c
  | None => "0"%char
  end.

(** [hex.EncodeToString]: two lower-case digits per byte. *)
Fixpoint EncodeToString (src : list Z) : string :=
  match src with
  | [] => EmptyString
  | v :: rest =>
      String (digit (Z.shiftr v 4)) (String (digit (Z.land v 15)) (EncodeToString rest))
  end.

End hex.

(** ** unicode/utf8 and encoding/json *)
Module utf8.

Definition cont (b : N) : bool := ((0x80 <=? b) && (b <=? 0xBF))%N.

(** The size in bytes of the rune that [DecodeRuneInString] finds at a
    lead byte [b0 >= 0x80] followed by [rest]: 2, 3 or 4 for a well-formed
    encoding, 0 when the library reports [RuneError] with size 1. *)
Definition runeSize (b0 : N) (rest : list N) : nat :=
  let in_range lo hi b := ((lo <=? b) && (b <=? hi))%N in
  let seq3 lo hi :=
    match rest with
    | b1 :: b2 :: _ => if in_range lo hi b1 && cont b2 then 3%nat else 0%nat
    | _ => 0%nat
    end in
  let seq4 lo hi :=
    match rest with
    | b1 :: b2 :: b3 :: _ =>
        if in_range lo hi b1 && cont b2 && cont b3 then 4%nat else 0%nat
    | _ => 0%nat
    end in
  if (b0 <? 0xC2)%N then 0%nat
  else if (b0 <=? 0xDF)%N then
    match rest with
    | b1 :: _ => if cont b1 then 2%nat else 0%nat
    | _ => 0%nat
    end
  else if (b0 =? 0xE0)%N then seq3 0xA0%N 0xBF%N
  else if (b0 =? 0xED)%N then seq3 0x80%N 0x9F%N
  else if (b0 <=? 0xEF)%N then seq3 0x80%N 0xBF%N
  else if (b0 =? 0xF0)%N then seq4 0x90%N 0xBF%N
  else if (b0 <=? 0xF3)%N then seq4 0x80%N 0xBF%N
  else if (b0 =? 0xF4)%N then seq4 0x80%N 0x8F%N
  else 0%nat.

End utf8.

Module json.

Import assembler.

Definition quote : string := String "034" EmptyString.
Definition backslash : string := String "092" EmptyString.
Definition newline : string := String "010" EmptyString.

(** [htmlSafeSet]: the ASCII bytes written as they are. *)
Definition htmlSafe (b : N) : bool :=
  ((0x20 <=? b) && (b <? 0x80)
   && negb (b =? 0x22) && negb (b =? 0x5C)
   && negb (b =? 0x3C) && negb (b =? 0x3E) && negb (b =? 0x26))%N.

Definition hexdigit (n : N) : string :=
  String (hex.digit (Z.of_N n)) EmptyString.

(** The escape of an ASCII byte outside [htmlSafeSet]. *)
Definition escape (b : N) : string :=
  if (b =? 0x5C)%N then backslash ++ backslash
  else if (b =? 0x22)%N then backslash ++ quote
  else if (b =? 0x08)%N then backslash ++ "b"
  else if (b =? 0x0C)%N then backslash ++ "f"
  else if (b =? 0x0A)%N then backslash ++ "n"
  else if (b =? 0x0D)%N then backslash ++ "r"
  else if (b =? 0x09)%N then backslash ++ "t"
  else backslash ++ "u00" ++ hexdigit (N.shiftr b 4) ++ hexdigit (N.land b 15).

(** What the scan of [appendString] does with the bytes to come: look at
    the next one, copy the rest of a rune, or pass over the rest of a rune
    that has been written as an escape. *)
Inductive scan := Look | Copy (k : nat) | Skip (k : nat).

Fixpoint appendString_from (m : scan) (src : list ascii) : string :=
  match src with
  | [] => EmptyString
  | c :: rest =>
      match m with
      | Copy (S k) => String c (appendString_from (Copy k) rest)
      | Skip (S k) => appendString_from (Skip k) rest
      | _ =>
          let b := N_of_ascii c in
          if (b <? 0x80)%N then
            if htmlSafe b then String c (appendString_from Look rest)
            else escape b ++ appendString_from Look rest
          else
            let after := map N_of_ascii rest in
            match utf8.runeSize b after with
            | O => backslash ++ "ufffd" ++ appendString_from Look rest
            | S k =>
                match b, after with
                | 0xE2%N, 0x80%N :: 0xA8%N :: _ =>
                    backslash ++ "u2028" ++ appendString_from (Skip k) rest
                | 0xE2%N, 0x80%N :: 0xA9%N :: _ =>
                    backslash ++ "u2029" ++ appendString_from (Skip k) rest
                | _, _ => String c (appendString_from (Copy k) rest)
                end
            end
      end
  end.

(** The encoder's [appendString] with HTML escaping on, as [Marshal] sets
    it. *)
Definition appendString (s : string) : string :=
  quote ++ appendString_from Look (list_ascii_of_string s) ++ quote.

Definition appendInt (z : Z) : string :=
  DecimalString.NilZero.string_of_int (Z.to_int z).

(** A line break followed by [depth] levels of the two-space indent. *)
Fixpoint indent (depth : nat) : string :=
  match depth with
  | O => newline
  | S d => indent d ++ "  "
  end.

Fixpoint join (sep : string) (l : list string) : string :=
  match l with
  | [] => EmptyString
  | [x] => x
  | x :: rest => x ++ sep ++ join sep rest
  end.

Definition array (depth : nat) (items : list string) : string :=
  match items with
  | [] => "[]"
  | _ => "[" ++ indent (S depth) ++ join ("," ++ indent (S depth)) items
             ++ indent depth ++ "]"
  end.

(** A nil slice is written [null], an empty one [[]]. *)
Definition stringSlice (depth : nat) (l : option (list string)) : string :=
  match l with
  | None => "null"
  | Some l => array depth (map appendString l)
  end.

Definition field (key value : string) : string :=
  quote ++ key ++ quote ++ ": " ++ value.

(** One entry, its keys in the order of the struct's fields, named by
    their tags. *)
Definition appEntry (depth : nat) (e : AppEntry) : string :=
  "{" ++ indent (S depth)
  ++ join ("," ++ indent (S depth))
       [ field "id" (appendString (ID e));
         field "name" (appendString (Name e));
         field "url" (appendString (URL e));
         field "category" (appendString (Category e));
         field "icon" (appendString (Icon e));
         field "groups" (stringSlice (S depth) (Groups e));
         field "priority" (appendInt (Priority e)) ]
  ++ indent depth ++ "}".

(** [json.MarshalIndent] of a non-nil slice of entries, with the empty
    prefix and an indent of two spaces.  No value of this type makes the
    encoder fail. *)
Definition MarshalIndent (entries : list AppEntry) : string + operrors.error :=
  inl (array 0 (map (appEntry 1) entries)).

End json.

(** ** k8s.io/api/core/v1 *)
Module corev1.

Record ConfigMap := {
  ObjectMeta : metav1.ObjectMeta;
  Data : option (gmap string string);
}.

Definition EventTypeNormal : string := "Normal".
Definition EventTypeWarning : string := "Warning".

End corev1.

(** ** pkg/config *)
Module config.

(** Durations are nanoseconds, as [time.Duration] counts them. *)
Definition Second : Z := 1000000000.
Definition Minute : Z := 60 * Second.

Record OperatorConfig := {
  MetricsAddr : string;
  ProbeAddr : string;
  EnableLeaderElection : bool;
  LeaderElectionID : string;
  MaxConcurrentReconciles : Z;
  ReconcileTimeout : Z;
  DuroNamespace : string;
  DuroConfigMapName : string;
}.

Definition NewDefaultConfig : OperatorConfig :=
  {| MetricsAddr := ":8080";
     ProbeAddr := ":8081";
     EnableLeaderElection := false;
     LeaderElectionID := "duro-operator";
     MaxConcurrentReconciles := 3;
     ReconcileTimeout := 5 * Minute;
     DuroNamespace := "duro";
     DuroConfigMapName := "duro-apps" |}.

Definition Validate (c : OperatorConfig) : option operrors.error :=
  if MaxConcurrentReconciles c <? 1 then
    Some (operrors.errorString "maxConcurrentReconciles must be at least 1")
  else if ReconcileTimeout c <? Second then
    Some (operrors.errorString "reconcileTimeout must be at least 1 second")
  else if String.eqb (DuroNamespace c) EmptyString then
    Some (operrors.errorString "duroNamespace is required")
  else None.

End config.

(** ** The API server, as the controller-runtime client shows it

    The reconciler talks to the cluster through [client.Client] and
    [record.EventRecorder].  A pass is a computation over the objects the
    server holds; every call it makes is written to a trace, and every call
    can be made to fail by the environment. *)
Module client.

Import operrors.

(** [types.NamespacedName]: namespace, then name. *)
Definition NamespacedName : Type := string * string.

Definition keyOf (m : metav1.ObjectMeta) : NamespacedName :=
  (metav1.Namespace m, metav1.Name m).

Definition key_eqb (a b : NamespacedName) : bool :=
  String.eqb (fst a) (fst b) && String.eqb (snd a) (snd b).

(** The objects of the two kinds the operator touches. *)
Record Cluster := {
  apps : list v1alpha1.DashboardApp;
  configMaps : gmap (string * string) corev1.ConfigMap;
}.

(** What the pass cannot decide: the clock, and which calls fail. *)
Record Env := {
  now : metav1.Time;
  failList : option error;
  failGet : option error;
  failCreate : option error;
  failUpdate : option error;
  failStatusUpdate : NamespacedName -> option error;
}.

Inductive Effect :=
| CallList
| CallGet (key : NamespacedName)
| CallCreate (cm : corev1.ConfigMap)
| CallUpdate (cm : corev1.ConfigMap)
| CallStatusUpdate (app : v1alpha1.DashboardApp)
| RecordEvent (object : NamespacedName) (eventtype reason message : string).

(** A computation reads the environment, transforms the cluster and
    appends to the trace. *)
Definition M (A : Type) : Type := Env -> Cluster -> A * Cluster * list Effect.

Definition ret {A} (a : A) : M A := fun _ c => (a, c, []).

Definition bind {A B} (m : M A) (f : A -> M B) : M B :=
  fun env c =>
    let '(a, c1, t1) := m env c in
    let '(b, c2, t2) := f a env c1 in
    (b, c2, t1 ++ t2).

Definition ask : M Env := fun env c => (env, c, []).
Definition get : M Cluster := fun _ c => (c, c, []).
Definition put (c : Cluster) : M unit := fun _ _ => (tt, c, []).
Definition emit (e : Effect) : M unit := fun _ c => (tt, c, [e]).

Declare Scope client_scope.
Delimit Scope client_scope with client.
Notation "x <- m ;; k" := (bind m (fun x => k))
  (at level 100, m at next level, right associativity) : client_scope.
Notation "m ;; k" := (bind m (fun _ => k))
  (at level 100, right associativity) : client_scope.
Local Open Scope client_scope.

Definition notFound (key : NamespacedName) : error :=
  StatusError metav1.StatusReasonNotFound (snd key ++ " not found").

Definition alreadyExists (key : NamespacedName) : error :=
  StatusError metav1.StatusReasonAlreadyExists (snd key ++ " already exists").

(** [r.List]: every DashboardApp of the cluster. *)
Definition List : M (list v1alpha1.DashboardApp + error) :=
  emit CallList ;;
  env <- ask ;;
  c <- get ;;
  match failList env with
  | Some err => ret (inr err)
  | None => ret (inl (apps c))
  end.

(** [r.Get] of a ConfigMap. *)
Definition Get (key : NamespacedName) : M (corev1.ConfigMap + error) :=
  emit (CallGet key) ;;
  env <- ask ;;
  c <- get ;;
  match failGet env with
  | Some err => ret (inr err)
  | None =>
      match configMaps c !! key with
      | Some cm => ret (inl cm)
      | None => ret (inr (notFound key))
      end
  end.

(** [r.Create]: the server stores the object unless its name is taken. *)
Definition Create (cm : corev1.ConfigMap) : M (option error) :=
  emit (CallCreate cm) ;;
  env <- ask ;;
  c <- get ;;
  let key := keyOf (corev1.ObjectMeta cm) in
  match failCreate env with
  | Some err => ret (Some err)
  | None =>
      match configMaps c !! key with
      | Some _ => ret (Some (alreadyExists key))
      | None =>
          put {| apps := apps c; configMaps := <[key := cm]> (configMaps c) |} ;;
          ret None
      end
  end.

(** [r.Update]: the server replaces the object of that name by the one it
    is sent. *)
Definition Update (cm : corev1.ConfigMap) : M (option error) :=
  emit (CallUpdate cm) ;;
  env <- ask ;;
  c <- get ;;
  let key := keyOf (corev1.ObjectMeta cm) in
  match failUpdate env with
  | Some err => ret (Some err)
  | None =>
      match configMaps c !! key with
      | None => ret (Some (notFound key))
      | Some _ =>
          put {| apps := apps c; configMaps := <[key := cm]> (configMaps c) |} ;;
          ret None
      end
  end.

Definition hasKey (key : NamespacedName) (a : v1alpha1.DashboardApp) : bool :=
  key_eqb (keyOf (v1alpha1.ObjectMeta a)) key.

Definition withStatus (st : v1alpha1.DashboardAppStatus)
    (a : v1alpha1.DashboardApp) : v1alpha1.DashboardApp :=
  {| v1alpha1.ObjectMeta := v1alpha1.ObjectMeta a;
     v1alpha1.Spec := v1alpha1.Spec a;
     v1alpha1.Status := st |}.

(** [r.Status().Update]: the status subresource of the stored object of
    that name takes the status it is sent; nothing else of it changes. *)
Definition StatusUpdate (app : v1alpha1.DashboardApp) : M (option error) :=
  emit (CallStatusUpdate app) ;;
  env <- ask ;;
  c <- get ;;
  let key := keyOf (v1alpha1.ObjectMeta app) in
  match failStatusUpdate env key with
  | Some err => ret (Some err)
  | None =>
      if existsb (hasKey key) (apps c) then
        put {| apps := map (fun a => if hasKey key a
                                     then withStatus (v1alpha1.Status app) a
                                     else a) (apps c);
               configMaps := configMaps c |} ;;
        ret None
      else ret (Some (notFound key))
  end.

(** [r.Recorder.Event]: the event refers to its object by name. *)
Definition Event (object : v1alpha1.DashboardApp)
    (eventtype reason message : string) : M unit :=
  emit (RecordEvent (keyOf (v1alpha1.ObjectMeta object)) eventtype reason message).

(** [metav1.Now]. *)
Definition Now : M metav1.Time := env <- ask ;; ret (now env).

End client.

(** ** sigs.k8s.io/controller-runtime *)
Module ctrl.

Record Result := { RequeueAfter : Z }.

(** [ctrl.Result{}]. *)
Definition noRequeue : Result := {| RequeueAfter := 0 |}.

End ctrl.

(** ** controllers *)
Module controllers.

Import operrors client.
Local Open Scope client_scope.

Record DashboardAppReconciler := {
  Config : config.OperatorConfig;
}.

Definition managedByLabel : string := "app.kubernetes.io/managed-by".
Definition configHashAnnotation : string := "dashboard.homelab.io/config-hash".
Definition appsKey : string := "apps.json".

Definition computeHash (s : string) : string :=
  hex.EncodeToString (sha256.Sum256 (sha256.bytes_of_string s)).

(** The name under which the reconciler looks the ConfigMap up. *)
Definition artifactKey (r : DashboardAppReconciler) : NamespacedName :=
  (config.DuroNamespace (Config r), config.DuroConfigMapName (Config r)).

(** Reading a key of a map that may be nil. *)
Definition entryOr (m : option (gmap string string)) (k : string) : string :=
  match m with
  | Some m => default EmptyString (m !! k)
  | None => EmptyString
  end.

(** [m[k] = v], after [m] has been made when it was nil. *)
Definition assign (m : option (gmap string string)) (k v : string)
    : option (gmap string string) :=
  match m with
  | Some m => Some (<[k := v]> m)
  | None => Some (<[k := v]> ∅)
  end.

(** The ConfigMap literal of the branch that creates the artifact. *)
Definition newConfigMap (r : DashboardAppReconciler) (configHash appsJSON : string)
    : corev1.ConfigMap :=
  {| corev1.ObjectMeta :=
       {| metav1.Name := config.DuroConfigMapName (Config r);
          metav1.Namespace := config.DuroNamespace (Config r);
          metav1.Labels := Some {[ managedByLabel := "duro-operator"%string ]};
          metav1.Annotations := Some {[ configHashAnnotation := configHash ]} |};
     corev1.Data := Some {[ appsKey := appsJSON ]} |}.

(** The three assignments to [existing] of the branch that updates it. *)
Definition overwrite (existing : corev1.ConfigMap) (configHash appsJSON : string)
    : corev1.ConfigMap :=
  let meta := corev1.ObjectMeta existing in
  {| corev1.ObjectMeta :=
       {| metav1.Name := metav1.Name meta;
          metav1.Namespace := metav1.Namespace meta;
          metav1.Labels := assign (metav1.Labels meta) managedByLabel "duro-operator";
          metav1.Annotations :=
            assign (metav1.Annotations meta) configHashAnnotation configHash |};
     corev1.Data := Some {[ appsKey := appsJSON ]} |}.

Definition updateAppsConfig (r : DashboardAppReconciler)
    (result : assembler.AssemblyResult) : M (option error) :=
  let configHash := computeHash (assembler.AppsJSON result) in
  got <- Get (artifactKey r) ;;
  match got with
  | inr err =>
      if IsNotFound err then
        Create (newConfigMap r configHash (assembler.AppsJSON result))
      else ret (Some err)
  | inl existing =>
      let existingHash :=
        entryOr (metav1.Annotations (corev1.ObjectMeta existing)) configHashAnnotation in
      if String.eqb existingHash configHash then ret None
      else Update (overwrite existing configHash (assembler.AppsJSON result))
  end.

(** What the status loop does to one app before it sends it. *)
Definition markReady (now : metav1.Time) (app : v1alpha1.DashboardApp)
    : v1alpha1.DashboardApp :=
  withStatus {| v1alpha1.Ready := true;
                v1alpha1.LastSyncedAt := Some now;
                v1alpha1.Conditions := v1alpha1.Conditions (v1alpha1.Status app) |}
             app.

(** The loop over [appList.Items]: each app is marked ready and synced
    at [now] and its status sent; the errors are collected in order. *)
Fixpoint updateStatuses (now : metav1.Time) (items : list v1alpha1.DashboardApp)
    : M (list error) :=
  match items with
  | [] => ret []
  | app :: rest =>
      e <- StatusUpdate (markReady now app) ;;
      statusUpdateErrors <- updateStatuses now rest ;;
      ret (match e with
           | Some err => err :: statusUpdateErrors
           | None => statusUpdateErrors
           end)
  end.

(** The verb [%d] of [fmt.Sprintf] at a length. *)
Definition fmt_d (n : nat) : string := json.appendInt (Z.of_nat n).

Section Reconcile.
(** The encoder the assembler marshals with; [json.MarshalIndent] in
    the operator as built. *)
Variable MarshalIndent : list assembler.AppEntry -> string + error.

Definition Reconcile (r : DashboardAppReconciler) : M (ctrl.Result * option error) :=
  listed <- List ;;
  match listed with
  | inr err =>
      ret (ctrl.noRequeue,
           Some (NewTransientError "failed to list DashboardApps" (Some err)))
  | inl [] => ret (ctrl.noRequeue, None)
  | inl ((first :: _) as items) =>
      match assembler.Assemble MarshalIndent items with
      | inr err =>
          Event first corev1.EventTypeWarning "AssemblyFailed" (Error err) ;;
          if ShouldRetry err then
            ret ({| ctrl.RequeueAfter := 30 * config.Second |}, None)
          else ret (ctrl.noRequeue, Some err)
      | inl result =>
          failed <- updateAppsConfig r result ;;
          match failed with
          | Some err =>
              Event first corev1.EventTypeWarning "ConfigUpdateFailed"
                ("Failed to update duro apps config: " ++ Error err) ;;
              ret ({| ctrl.RequeueAfter := 30 * config.Second |}, None)
          | None =>
              now <- Now ;;
              statusUpdateErrors <- updateStatuses now items ;;
              if (0 <? length statusUpdateErrors)%nat then
                ret ({| ctrl.RequeueAfter := 10 * config.Second |}, None)
              else
                Event first corev1.EventTypeNormal "Synced"
                  ("Successfully assembled " ++ fmt_d (length items)
                   ++ " dashboard apps") ;;
                ret (ctrl.noRequeue, None)
          end
      end
  end.

End Reconcile.

(** The trace of a pass, read for what the claims count. *)
Definition isArtifactWrite (e : Effect) : bool :=
  match e with
  | CallCreate _ | CallUpdate _ => true
  | _ => false
  end.

Definition isStatusWrite (e : Effect) : bool :=
  match e with
  | CallStatusUpdate _ => true
  | _ => false
  end.

Definition artifactWrites (t : list Effect) : list Effect := List.filter isArtifactWrite t.
Definition statusWrites (t : list Effect) : list Effect := List.filter isStatusWrite t.

End controllers.

(** ** pkg/assembler/assembler_test.go: the inputs of the tests *)
Module assembler_test.

Definition app (name namespace : string) (spec : v1alpha1.DashboardAppSpec)
    : v1alpha1.DashboardApp :=
  {| v1alpha1.ObjectMeta :=
       {| metav1.Name := name; metav1.Namespace := namespace;
          metav1.Labels := None; metav1.Annotations := None |};
     v1alpha1.Spec := spec;
     v1alpha1.Status :=
       {| v1alpha1.Ready := false; v1alpha1.LastSyncedAt := None;
          v1alpha1.Conditions := [] |} |}.

Definition plex : v1alpha1.DashboardApp :=
  app "plex" "plex"
    {| v1alpha1.Name := "Plex"; v1alpha1.URL := "https://plex.example.com";
       v1alpha1.Category := "media"; v1alpha1.Icon := "<svg>plex</svg>";
       v1alpha1.Groups := Some ["friends"; "family"; "lldap_admin"]%string;
       v1alpha1.Priority := 10 |}.

Definition gitea : v1alpha1.DashboardApp :=
  app "gitea" "gitea"
    {| v1alpha1.Name := "Gitea"; v1alpha1.URL := "https://gitea.example.com";
       v1alpha1.Category := "development"; v1alpha1.Icon := "<svg>gitea</svg>";
       v1alpha1.Groups := Some ["lldap_admin"]%string;
       v1alpha1.Priority := 20 |}.

Definition openwebui : v1alpha1.DashboardApp :=
  app "openwebui" "openwebui"
    {| v1alpha1.Name := "OpenWebUI"; v1alpha1.URL := "https://ai.example.com";
       v1alpha1.Category := "ai"; v1alpha1.Icon := "<svg>ai</svg>";
       v1alpha1.Groups := Some ["friends"; "family"; "lldap_admin"]%string;
       v1alpha1.Priority := 10 |}.

(** The input of [TestAssembler_Assemble]. *)
Definition apps : list v1alpha1.DashboardApp := [plex; gitea; openwebui].

(** The input of [TestAssembler_SortWithinCategory]. *)
Definition sonarr : v1alpha1.DashboardApp :=
  app "sonarr" "sonarr"
    {| v1alpha1.Name := "Sonarr"; v1alpha1.URL := "https://sonarr.example.com";
       v1alpha1.Category := "media"; v1alpha1.Icon := "<svg/>";
       v1alpha1.Groups := Some ["lldap_admin"]%string;
       v1alpha1.Priority := 50 |}.

Definition plexFriends : v1alpha1.DashboardApp :=
  app "plex" "plex"
    {| v1alpha1.Name := "Plex"; v1alpha1.URL := "https://plex.example.com";
       v1alpha1.Category := "media"; v1alpha1.Icon := "<svg/>";
       v1alpha1.Groups := Some ["friends"]%string;
       v1alpha1.Priority := 10 |}.

Definition seerr : v1alpha1.DashboardApp :=
  app "seerr" "seerr"
    {| v1alpha1.Name := "Seerr"; v1alpha1.URL := "https://seerr.example.com";
       v1alpha1.Category := "media"; v1alpha1.Icon := "<svg/>";
       v1alpha1.Groups := Some ["lldap_admin"]%string;
       v1alpha1.Priority := 40 |}.

Definition mediaApps : list v1alpha1.DashboardApp := [sonarr; plexFriends; seerr].

(** The input of [TestAssembler_DefaultPriority]: the priority is left
    out of the literal and so is zero. *)
Definition app1 : v1alpha1.DashboardApp :=
  app "app1" "default"
    {| v1alpha1.Name := "App1"; v1alpha1.URL := "https://app1.example.com";
       v1alpha1.Category := "admin"; v1alpha1.Icon := "<svg/>";
       v1alpha1.Groups := Some ["lldap_admin"]%string;
       v1alpha1.Priority := 0 |}.

(** An app as the tests build them, with a given category and priority. *)
Definition withCategory (name category : string) (priority : Z)
    : v1alpha1.DashboardApp :=
  app name name
    {| v1alpha1.Name := name; v1alpha1.URL := "https://" ++ name ++ ".example.com";
       v1alpha1.Category := category; v1alpha1.Icon := "<svg/>";
       v1alpha1.Groups := Some ["lldap_admin"]%string;
       v1alpha1.Priority := priority |}.

End assembler_test.

(** ** The vocabulary of the properties *)
Module properties.

Import assembler.

(** The order the assembler is to put entries in: by rank of category,
    then by priority, then by name. *)
Definition sortsBefore (a b : AppEntry) : Prop :=
  let ra := categoryOrder_at (Category a) in
  let rb := categoryOrder_at (Category b) in
  ra < rb
  \/ (ra = rb /\ Priority a < Priority b)
  \/ (ra = rb /\ Priority a = Priority b /\ String.leb (Name a) (Name b) = true).

(** The categories the schema of the resource enumerates. *)
Definition knownCategory (c : string) : Prop :=
  In c ["media"; "ai"; "productivity"; "development"; "admin"]%string.

(** An entry of an unknown category stands after every entry of a known
    one. *)
Definition unknownSortLast (entries : list AppEntry) : Prop :=
  forall (i j : nat) (a b : AppEntry),
    entries !! i = Some a -> entries !! j = Some b ->
    knownCategory (Category a) -> ~ knownCategory (Category b) ->
    (i < j)%nat.

(** The entry [e] carries the declared fields of [app] as they are: the
    object's name as its id, and the name, URL, category, icon and groups
    of the spec. *)
Definition copiesFields (app : v1alpha1.DashboardApp) (e : AppEntry) : Prop :=
  ID e = metav1.Name (v1alpha1.ObjectMeta app)
  /\ Name e = v1alpha1.Name (v1alpha1.Spec app)
  /\ URL e = v1alpha1.URL (v1alpha1.Spec app)
  /\ Category e = v1alpha1.Category (v1alpha1.Spec app)
  /\ Icon e = v1alpha1.Icon (v1alpha1.Spec app)
  /\ Groups e = v1alpha1.Groups (v1alpha1.Spec app).

(** The values of Go's [int] on the 64-bit platforms the operator is
    built for; a declared priority is one of them. *)
Definition minInt : Z := - 2 ^ 63.
Definition maxInt : Z := 2 ^ 63 - 1.
Definition isInt (z : Z) : Prop := minInt <= z <= maxInt.

End properties.

Module pass_properties.

Import operrors client controllers.

(** No call to the store of objects fails: list, get, create, update. *)
Definition storeReliable (env : Env) : Prop :=
  failList env = None /\ failGet env = None
  /\ failCreate env = None /\ failUpdate env = None.

(** The hash annotation an object carries, empty when it carries none. *)
Definition storedHash (cm : corev1.ConfigMap) : string :=
  entryOr (metav1.Annotations (corev1.ObjectMeta cm)) configHashAnnotation.

(** The artifact, if the cluster has it, is stored under its own name. *)
Definition artifactNamed (r : DashboardAppReconciler) (c : Cluster) : Prop :=
  forall cm, configMaps c !! artifactKey r = Some cm ->
             keyOf (corev1.ObjectMeta cm) = artifactKey r.

(** A number below sixteen as its lower-case hexadecimal digit. *)
Definition hexDigit (n : Z) : ascii :=
  nth (Z.to_nat n) (list_ascii_of_string "0123456789abcdef") "0"%char.

(** Bytes in lower-case hexadecimal, two digits a byte, the high half
    first. *)
Fixpoint lowerHex (bytes : list Z) : string :=
  match bytes with
  | [] => EmptyString
  | b :: rest => String (hexDigit (b / 16)) (String (hexDigit (b mod 16)) (lowerHex rest))
  end.

(** The SHA-256 digest of a text in lower-case hexadecimal.  This is what
    the hash annotation is to be; it is spelled from the digest's bytes
    and does not go through the controller's [computeHash]. *)
Definition sha256Hex (body : string) : string :=
  lowerHex (sha256.Sum256 (sha256.bytes_of_string body)).

(** Body and hash go together: the data is the one key [apps.json], and
    the hash annotation is the SHA-256 digest of its value in lower-case
    hexadecimal. *)
Definition paired (cm : corev1.ConfigMap) : Prop :=
  exists body,
    corev1.Data cm = Some {[ appsKey := body ]}
    /\ exists annotations,
         metav1.Annotations (corev1.ObjectMeta cm) = Some annotations
         /\ annotations !! configHashAnnotation = Some (sha256Hex body).

(** The writes of a trace [t] that took the ConfigMaps from [before] to
    [after]: none, or one write of an object whose body and hash are
    paired, stored under its own name if the write went through. *)
Definition atMostOnePairedWrite (before after : gmap (string * string) corev1.ConfigMap)
    (t : list Effect) : Prop :=
  (artifactWrites t = [] /\ after = before)
  \/ exists cm,
       (artifactWrites t = [CallCreate cm] \/ artifactWrites t = [CallUpdate cm])
       /\ paired cm
       /\ (after = before \/ after = <[keyOf (corev1.ObjectMeta cm) := cm]> before).

(** The one write a pass makes to bring a cluster's artifact up to date
    with a document. *)
Definition dueWrite (r : DashboardAppReconciler) (c : Cluster) (body : string)
    : list Effect :=
  match configMaps c !! artifactKey r with
  | None => [CallCreate (newConfigMap r (computeHash body) body)]
  | Some cm =>
      if String.eqb (storedHash cm) (computeHash body) then []
      else [CallUpdate (overwrite cm (computeHash body) body)]
  end.

(** Reading a key of a map that may be nil, absent keys told apart. *)
Definition lookupIn (m : option (gmap string string)) (k : string) : option string :=
  match m with
  | Some m => m !! k
  | None => None
  end.

(** The status update of this app is made to fail. *)
Definition statusFails (env : Env) (a : v1alpha1.DashboardApp) : bool :=
  match failStatusUpdate env (keyOf (v1alpha1.ObjectMeta a)) with
  | Some _ => true
  | None => false
  end.

(** What a pass that reached the status loop leaves of a stored app [a]:
    [a'] is [a] with, unless its update failed, the ready flag set and
    the time of the pass as its last sync. *)
Definition statusAfter (env : Env) (a a' : v1alpha1.DashboardApp) : Prop :=
  v1alpha1.ObjectMeta a' = v1alpha1.ObjectMeta a
  /\ v1alpha1.Spec a' = v1alpha1.Spec a
  /\ if statusFails env a
     then v1alpha1.Status a' = v1alpha1.Status a
     else v1alpha1.Ready (v1alpha1.Status a') = true
          /\ v1alpha1.LastSyncedAt (v1alpha1.Status a') = Some (now env).

(** An error as the client of the object store returns it: the API
    machinery's status error or a plain error of the transport.  The
    errors of pkg/errors are the operator's own: the client does not
    know the package, and in the repository only [Reconcile] builds one,
    around the error of a failed list. *)
Definition clientError (err : error) : Prop :=
  match err with
  | OperatorError _ _ _ => False
  | StatusError _ _ | errorString _ => True
  end.

(** The failures of get, create and update are the client's. *)
Definition clientErrors (env : Env) : Prop :=
  (forall err, failGet env = Some err -> clientError err)
  /\ (forall err, failCreate env = Some err -> clientError err)
  /\ (forall err, failUpdate env = Some err -> clientError err).

(** The outcome the classifier prescribes for an error that ends a pass
    early: a retry after thirty seconds when it is retryable, the error
    itself and no requeue when it is not. *)
Definition classified (err : error) (out : ctrl.Result * option error) : Prop :=
  if ShouldRetry err
  then out = ({| ctrl.RequeueAfter := 30 * config.Second |}, None)
  else out = (ctrl.noRequeue, Some err).

End pass_properties.

(** ** Clusters and environments to run the pass on *)
Module scenario.

Import operrors client controllers.

Definition reconciler : DashboardAppReconciler :=
  {| Config := config.NewDefaultConfig |}.

(** An app of the category games, outside the schema's enumeration. *)
Definition steam : v1alpha1.DashboardApp :=
  assembler_test.withCategory "steam" "games" 50.

(** Nothing fails. *)
Definition calm : Env :=
  {| now := 1767225600;
     failList := None; failGet := None; failCreate := None; failUpdate := None;
     failStatusUpdate := fun _ => None |}.

(** No app and no ConfigMap. *)
Definition bare : Cluster := {| apps := []; configMaps := ∅ |}.

(** The three apps of the assembler's test and no ConfigMap yet. *)
Definition fresh : Cluster :=
  {| apps := assembler_test.apps; configMaps := ∅ |}.

(** What the assembler makes of the three apps. *)
Definition assembled : assembler.AssemblyResult :=
  match assembler.Assemble json.MarshalIndent assembler_test.apps with
  | inl result => result
  | inr _ => {| assembler.Entries := []; assembler.AppsJSON := EmptyString |}
  end.

(** The cluster a first calm pass leaves. *)
Definition published : Cluster :=
  snd (fst (Reconcile json.MarshalIndent reconciler calm fresh)).

(** No app, and a ConfigMap left by earlier passes. *)
Definition deserted : Cluster :=
  {| apps := []; configMaps := configMaps published |}.

(** The server refuses to read the ConfigMap. *)
Definition forbidden : error :=
  StatusError "Forbidden" "configmaps is forbidden".

Definition getForbidden : Env :=
  {| now := now calm;
     failList := None; failGet := Some forbidden;
     failCreate := None; failUpdate := None;
     failStatusUpdate := fun _ => None |}.

(** The status update of gitea meets a conflict. *)
Definition giteaConflict : Env :=
  {| now := now calm;
     failList := None; failGet := None; failCreate := None; failUpdate := None;
     failStatusUpdate := fun key =>
       if key_eqb key ("gitea", "gitea")%string
       then Some (StatusError "Conflict" "the object has been modified")
       else None |}.

(** An encoder that fails, to reach the branches the real one never
    takes. *)
Definition brokenMarshal (entries : list assembler.AppEntry) : string + error :=
  inr (errorString "json: unsupported value").

(** A ConfigMap from an older pass, with a key, a label and an
    annotation of someone else's beside the operator's. *)
Definition staleArtifact : corev1.ConfigMap :=
  {| corev1.ObjectMeta :=
       {| metav1.Name := "duro-apps"; metav1.Namespace := "duro";
          metav1.Labels := Some (<["team" := "homelab"]> ∅);
          metav1.Annotations :=
            Some (<["note" := "keep"]> (<[configHashAnnotation := "0000"]> ∅)) |};
     corev1.Data := Some (<["legacy.json" := "[]"]> (<[appsKey := "[]"]> ∅)) |}.

Definition stale : Cluster :=
  {| apps := assembler_test.apps;
     configMaps := <[("duro", "duro-apps")%string := staleArtifact]> ∅ |}.

End scenario.

(** ** pkg/errors, continued: the cause chain and the context bag *)
Module operrors_more.

Import operrors.

(** The error at the end of the [Unwrap] chain. *)
Fixpoint rootCause (e : error) : error :=
  match e with
  | OperatorError _ _ (Some c) => rootCause c
  | _ => e
  end.

(** The messages of the errors of the chain that wrap a cause, the
    outermost first. *)
Fixpoint wrapperMessages (e : error) : list string :=
  match e with
  | OperatorError _ m (Some c) => m :: wrapperMessages c
  | _ => []
  end.

(** The message an error carries itself, its cause left aside. *)
Definition ownMessage (e : error) : string :=
  match e with
  | OperatorError _ m _ => m
  | StatusError _ m => m
  | errorString s => s
  end.

(** A text with messages put in front of it, each followed by a colon
    and a space. *)
Definition prefixed (messages : list string) (text : string) : string :=
  fold_right (fun m rest => m ++ ": " ++ rest)%string text messages.

Section WithContext.
(** The values of the context bag, [interface{}] in the source. *)
Variable V : Type.

(** An [OperatorError] with all four of its fields. *)
Record OperatorErrorT := {
  Type_ : ErrorType;
  Message : string;
  Cause : option error;
  Context : option (gmap string V);
}.

(** The value seen through the [error] interface, which has no access to
    the context. *)
Definition asError (e : OperatorErrorT) : error :=
  OperatorError (Type_ e) (Message e) (Cause e).

(** What the three constructors return: no context yet. *)
Definition newError (t : ErrorType) (message : string) (cause : option error)
    : OperatorErrorT :=
  {| Type_ := t; Message := message; Cause := cause; Context := None |}.

(** [WithContext] writes into the receiver and returns it; the value
    returned is the receiver after the write. *)
Definition WithContext (e : OperatorErrorT) (key : string) (value : V)
    : OperatorErrorT :=
  let context := match Context e with
                 | None => ∅
                 | Some m => m
                 end in
  {| Type_ := Type_ e; Message := Message e; Cause := Cause e;
     Context := Some (<[key := value]> context) |}.

(** Reading a key of the bag. *)
Definition contextAt (e : OperatorErrorT) (key : string) : option V :=
  match Context e with
  | None => None
  | Some m => m !! key
  end.

End WithContext.

End operrors_more.

(** ** main.go, up to the validation of the configuration *)
Module main.

Record Flags := {
  metricsAddr : string;
  probeAddr : string;
  enableLeaderElection : bool;
  leaderElectionID : string;
  maxConcurrentReconciles : Z;
  reconcileTimeout : Z;
  duroNamespace : string;
  duroConfigMapName : string;
  logLevel : string;
  logDevel : bool;
  logEncoder : string;
}.

(** The defaults the flags are declared with. *)
Definition defaults : Flags :=
  {| metricsAddr := ":8080";
     probeAddr := ":8081";
     enableLeaderElection := false;
     leaderElectionID := "duro-operator";
     maxConcurrentReconciles := 3;
     reconcileTimeout := 5 * config.Minute;
     duroNamespace := "duro";
     duroConfigMapName := "duro-apps";
     logLevel := "info";
     logDevel := false;
     logEncoder := "json" |}.

Inductive Level := DebugLevel | InfoLevel | WarnLevel | ErrorLevel.

(** The switch on the log level. *)
Definition level (logLevel : string) : Level :=
  if String.eqb logLevel "debug" then DebugLevel
  else if String.eqb logLevel "info" then InfoLevel
  else if String.eqb logLevel "warn" then WarnLevel
  else if String.eqb logLevel "error" then ErrorLevel
  else InfoLevel.

(** The configuration [main] fills in from the flags. *)
Definition cfg (f : Flags) : config.OperatorConfig :=
  {| config.MetricsAddr := metricsAddr f;
     config.ProbeAddr := probeAddr f;
     config.EnableLeaderElection := enableLeaderElection f;
     config.LeaderElectionID := leaderElectionID f;
     config.MaxConcurrentReconciles := maxConcurrentReconciles f;
     config.ReconcileTimeout := reconcileTimeout f;
     config.DuroNamespace := duroNamespace f;
     config.DuroConfigMapName := duroConfigMapName f |}.

(** How far [main] gets before it asks for a manager: it leaves with
    status 1 when the configuration is invalid, and else goes on to build
    the reconciler around the configuration. *)
Inductive Startup :=
| Exit (status : Z)
| Proceed (reconciler : controllers.DashboardAppReconciler).

Definition startup (f : Flags) : Startup :=
  match config.Validate (cfg f) with
  | Some _ => Exit 1
  | None => Proceed {| controllers.Config := cfg f |}
  end.

End main.

(** ** More vocabulary for the pass *)
Module pass_more.

Import operrors client controllers.

Definition isEvent (e : Effect) : bool :=
  match e with
  | RecordEvent _ _ _ _ => true
  | _ => false
  end.

(** The events of a trace. *)
Definition events (t : list Effect) : list Effect := List.filter isEvent t.

(** Two apps with the same metadata and the same spec. *)
Definition sameNameSpec (a a' : v1alpha1.DashboardApp) : Prop :=
  v1alpha1.ObjectMeta a' = v1alpha1.ObjectMeta a
  /\ v1alpha1.Spec a' = v1alpha1.Spec a.

(** No status update fails. *)
Definition statusReliable (env : Env) : Prop :=
  forall key, failStatusUpdate env key = None.

(** The lower-case hexadecimal digits. *)
Definition isLowerHex (c : ascii) : Prop :=
  In c (list_ascii_of_string "0123456789abcdef").

(** The message of the event of a pass that went through. *)
Definition syncedMessage (n : nat) : string :=
  "Successfully assembled " ++ fmt_d n ++ " dashboard apps".

(** A ConfigMap of the artifact's name that the operator never wrote:
    no labels, no annotations, somebody's data. *)
Definition foreignArtifact : corev1.ConfigMap :=
  {| corev1.ObjectMeta :=
       {| metav1.Name := "duro-apps"; metav1.Namespace := "duro";
          metav1.Labels := None; metav1.Annotations := None |};
     corev1.Data := Some (<["readme" := "hands off"]> ∅) |}.

Definition foreign : Cluster :=
  {| apps := assembler_test.apps;
     configMaps := <[("duro", "duro-apps")%string := foreignArtifact]> ∅ |}.

(** The artifact of the three apps with its body edited by hand: the
    hash annotation is still that of the document. *)
Definition tamperedArtifact : corev1.ConfigMap :=
  {| corev1.ObjectMeta :=
       {| metav1.Name := "duro-apps"; metav1.Namespace := "duro";
          metav1.Labels := Some {[ managedByLabel := "duro-operator"%string ]};
          metav1.Annotations :=
            Some {[ configHashAnnotation :=
                      computeHash (assembler.AppsJSON scenario.assembled) ]} |};
     corev1.Data := Some {[ appsKey := "[]"%string ]} |}.

Definition tampered : Cluster :=
  {| apps := assembler_test.apps;
     configMaps := <[("duro", "duro-apps")%string := tamperedArtifact]> ∅ |}.

(** The server is down for the list. *)
Definition unreachable : error := errorString "connection refused".

Definition listDown : Env :=
  {| now := now scenario.calm;
     failList := Some unreachable; failGet := None;
     failCreate := None; failUpdate := None;
     failStatusUpdate := fun _ => None |}.

(** Reading the ConfigMap times out. *)
Definition getTimeout : Env :=
  {| now := now scenario.calm;
     failList := None; failGet := Some (errorString "context deadline exceeded");
     failCreate := None; failUpdate := None;
     failStatusUpdate := fun _ => None |}.

(** A later calm moment. *)
Definition later : Env :=
  {| now := now scenario.calm + 10;
     failList := None; failGet := None; failCreate := None; failUpdate := None;
     failStatusUpdate := fun _ => None |}.

End pass_more.

(** ** More vocabulary for the assembler *)
Module assembler_more.

(** Two apps that agree on what the assembler reads: the name and the
    spec. *)
Definition sameEntry (a a' : v1alpha1.DashboardApp) : Prop :=
  metav1.Name (v1alpha1.ObjectMeta a') = metav1.Name (v1alpha1.ObjectMeta a)
  /\ v1alpha1.Spec a' = v1alpha1.Spec a.

(** The comparison function tells the entries of these apps apart. *)
Definition keysDistinct (apps : list v1alpha1.DashboardApp) : Prop :=
  forall a b, In a apps -> In b apps ->
    assembler.compareEntries (assembler.entryOf a) (assembler.entryOf b) = Eq ->
    assembler.entryOf a = assembler.entryOf b.

(** Plex again, declared in another namespace and already synced. *)
Definition plexElsewhere : v1alpha1.DashboardApp :=
  {| v1alpha1.ObjectMeta :=
       {| metav1.Name := "plex"; metav1.Namespace := "media";
          metav1.Labels := Some {[ "tier" := "gold" ]}%string;
          metav1.Annotations := None |};
     v1alpha1.Spec := v1alpha1.Spec assembler_test.plex;
     v1alpha1.Status :=
       {| v1alpha1.Ready := true; v1alpha1.LastSyncedAt := Some 5;
          v1alpha1.Conditions := [] |} |}.

(** Two apps the comparison function holds equal: same category,
    priority and display name, different URLs. *)
Definition wikiA : v1alpha1.DashboardApp :=
  assembler_test.app "wiki-a" "a"
    {| v1alpha1.Name := "Wiki"; v1alpha1.URL := "https://a.example.com";
       v1alpha1.Category := "productivity"; v1alpha1.Icon := "<svg/>";
       v1alpha1.Groups := Some ["staff"]%string; v1alpha1.Priority := 0 |}.

Definition wikiB : v1alpha1.DashboardApp :=
  assembler_test.app "wiki-b" "b"
    {| v1alpha1.Name := "Wiki"; v1alpha1.URL := "https://b.example.com";
       v1alpha1.Category := "productivity"; v1alpha1.Icon := "<svg/>";
       v1alpha1.Groups := Some ["staff"]%string; v1alpha1.Priority := 100 |}.

End assembler_more.

(** ** chart/duro-operator/templates/_helpers.tpl *)
Module helm.

(** The functions of the template library that the helpers pipe their
    values through, on byte strings. *)

(** [default d v]: [v] unless it is empty. *)
Definition default (d v : string) : string :=
  if String.eqb v EmptyString then d else v.

(** [trunc n]: the first [n] bytes. *)
Definition trunc (n : nat) (s : string) : string := String.substring 0 n s.

Definition hasSuffix (suffix s : string) : bool :=
  (String.length suffix <=? String.length s)%nat
  && String.eqb
       (String.substring (String.length s - String.length suffix)
          (String.length suffix) s)
       suffix.

(** [trimSuffix suffix]: the string without that ending, if it has it. *)
Definition trimSuffix (suffix s : string) : string :=
  if hasSuffix suffix s
  then String.substring 0 (String.length s - String.length suffix) s
  else s.

(** [contains substr s]: [substr] occurs in [s]. *)
Fixpoint contains (substr s : string) : bool :=
  String.prefix substr s
  || match s with
     | EmptyString => false
     | String _ rest => contains substr rest
     end.

(** [replace old new], for an [old] that is not empty: every occurrence,
    from the left, without overlap.  [skip] counts the bytes of an
    occurrence still to pass over. *)
Fixpoint replace_from (old new : string) (skip : nat) (s : string) : string :=
  match s with
  | EmptyString => EmptyString
  | String c rest =>
      match skip with
      | S k => replace_from old new k rest
      | O =>
          if String.prefix old s
          then new ++ replace_from old new (String.length old - 1) rest
          else String c (replace_from old new 0 rest)
      end
  end.

Definition replace (old new s : string) : string := replace_from old new 0 s.

(** [printf "%s-%s"]. *)
Definition dashed (a b : string) : string := a ++ "-" ++ b.

(** What the helpers read of the chart, the release and the values. *)
Record Chart := { chartName : string; chartVersion : string }.
Record Release := { releaseName : string; releaseService : string }.
Record Values := {
  nameOverride : string;
  fullnameOverride : string;
  serviceAccountCreate : bool;
  serviceAccountName_ : string;
}.
Record Scope := { chart_ : Chart; release : Release; values : Values }.

(** duro-operator.name *)
Definition name (s : Scope) : string :=
  trimSuffix "-" (trunc 63 (default (chartName (chart_ s)) (nameOverride (values s)))).

(** duro-operator.fullname *)
Definition fullname (s : Scope) : string :=
  if negb (String.eqb (fullnameOverride (values s)) EmptyString) then
    trimSuffix "-" (trunc 63 (fullnameOverride (values s)))
  else
    let name := default (chartName (chart_ s)) (nameOverride (values s)) in
    if contains name (releaseName (release s)) then
      trimSuffix "-" (trunc 63 (releaseName (release s)))
    else
      trimSuffix "-" (trunc 63 (dashed (releaseName (release s)) name)).

(** duro-operator.chart *)
Definition chart (s : Scope) : string :=
  trimSuffix "-"
    (trunc 63 (replace "+" "_"
                 (dashed (chartName (chart_ s)) (chartVersion (chart_ s))))).

(** duro-operator.selectorLabels, as keys and values. *)
Definition selectorLabels (s : Scope) : list (string * string) :=
  [ ("app.kubernetes.io/name", name s);
    ("app.kubernetes.io/instance", releaseName (release s)) ]%string.

(** duro-operator.serviceAccountName *)
Definition serviceAccountName (s : Scope) : string :=
  if serviceAccountCreate (values s)
  then default (fullname s) (serviceAccountName_ (values s))
  else default "default" (serviceAccountName_ (values s)).

(** The names a helper truncates: any of them, cut and trimmed. *)
Definition cut (candidate result : string) : Prop :=
  String.prefix result candidate = true
  /\ (String.length result <= 63)%nat
  /\ (Nat.min (String.length candidate) 63 - 1 <= String.length result)%nat.

(** A release of the chart under another name. *)
Definition homelab : Scope :=
  {| chart_ := {| chartName := "duro-operator"; chartVersion := "0.3.1+build.7" |};
     release := {| releaseName := "homelab"; releaseService := "Helm" |};
     values := {| nameOverride := EmptyString; fullnameOverride := EmptyString;
                  serviceAccountCreate := true;
                  serviceAccountName_ := EmptyString |} |}.

End helm.

(** ** More vocabulary for the status loop *)
Module status_more.

Import client.

(** No two apps of the cluster have the same namespace and name. *)
Definition keysUnique (c : Cluster) : Prop :=
  NoDup (map (fun a => keyOf (v1alpha1.ObjectMeta a)) (apps c)).

(** [a'] has the conditions of [a]. *)
Definition sameConditions (a a' : v1alpha1.DashboardApp) : Prop :=
  v1alpha1.Conditions (v1alpha1.Status a') = v1alpha1.Conditions (v1alpha1.Status a).

(** The three apps, one of them with a condition somebody set. *)
Definition conditioned : Cluster :=
  {| apps :=
       [ assembler_test.plex;
         {| v1alpha1.ObjectMeta := v1alpha1.ObjectMeta assembler_test.gitea;
            v1alpha1.Spec := v1alpha1.Spec assembler_test.gitea;
            v1alpha1.Status :=
              {| v1alpha1.Ready := false; v1alpha1.LastSyncedAt := None;
                 v1alpha1.Conditions := ["Degraded"%string] |} |};
         assembler_test.openwebui ];
     configMaps := ∅ |}.

End status_more.

(** ** The cluster as a later pass lists it *)
Module relisting.

Import client controllers.

(** [c'] is [c] as a later list call may find it: the same apps, in this
    or in another order, and the same ConfigMaps. *)
Definition relisted (c c' : Cluster) : Prop :=
  Permutation (apps c) (apps c') /\ configMaps c' = configMaps c.

(** The order of the list cannot change the document: the apps of [c']
    come in the order of [c], or the comparison function tells the
    entries of the apps apart. *)
Definition orderKept (c c' : Cluster) : Prop :=
  apps c' = apps c \/ assembler_more.keysDistinct (apps c).

(** Two apps that tie, no ConfigMap yet; what a calm pass leaves of it;
    and that cluster with its two apps listed the other way round. *)
Definition tied : Cluster :=
  {| apps := [assembler_more.wikiA; assembler_more.wikiB]; configMaps := ∅ |}.

Definition tiedPublished : Cluster :=
  snd (fst (Reconcile json.MarshalIndent scenario.reconciler scenario.calm tied)).

Definition tiedRelisted : Cluster :=
  {| apps := rev (apps tiedPublished); configMaps := configMaps tiedPublished |}.

End relisting.

(** * Properties *)

(** ** The digest agrees with the published test vectors *)

Example Sum256_abc :
  controllers.computeHash "abc"
  = "ba7816bf8f01cfea414140de5dae2223b00361a396177a9cb410ff61f20015ad"%string.
Proof. vm_compute. reflexivity. Qed.

Example Sum256_empty :
  controllers.computeHash EmptyString
  = "e3b0c44298fc1c149afbf4c8996fb92427ae41e4649b934ca495991b7852b855"%string.
Proof. vm_compute. reflexivity. Qed.

Example Sum256_two_blocks :
  controllers.computeHash "abcdbcdecdefdefgefghfghighijhijkijkljklmklmnlmnomnopnopq"
  = "248d6a61d20638b8e5c026930c3e6039a33ce45964ff2167f6ecedd419db06c1"%string.
Proof. vm_compute. reflexivity. Qed.

(** The digest is thirty-two bytes, so its hexadecimal form has sixty-four
    characters and is never the empty string that stands for a missing
    annotation. *)
Lemma EncodeToString_length (src : list Z) :
  String.length (hex.EncodeToString src) = (2 * length src)%nat.
Proof.
  induction src as [|v rest IH]; simpl; [reflexivity|]. rewrite IH. lia.
Qed.

Lemma Sum256_length (data : list Z) : length (sha256.Sum256 data) = 32%nat.
Proof.
  unfold sha256.Sum256.
  destruct (sha256.blocks _ _ _) as [[[[[[[a b] c] d] e] f] g] h].
  reflexivity.
Qed.

Lemma computeHash_length (s : string) :
  String.length (controllers.computeHash s) = 64%nat.
Proof.
  unfold controllers.computeHash.
  now rewrite EncodeToString_length, Sum256_length.
Qed.

(** ** The comparison of strings is a total preorder *)
Module string_order.

Lemma ascii_compare_N (a b : ascii) :
  Ascii.compare a b = N.compare (N_of_ascii a) (N_of_ascii b).
Proof. reflexivity. Qed.

Lemma ascii_compare_Eq (a b : ascii) : Ascii.compare a b = Eq -> a = b.
Proof. apply Ascii.compare_eq_iff. Qed.

Lemma ascii_compare_refl (a : ascii) : Ascii.compare a a = Eq.
Proof. rewrite ascii_compare_N. apply N.compare_refl. Qed.

Lemma ascii_compare_Lt_trans (a b c : ascii) :
  Ascii.compare a b = Lt -> Ascii.compare b c = Lt -> Ascii.compare a c = Lt.
Proof.
  rewrite !ascii_compare_N, !N.compare_lt_iff. apply N.lt_trans.
Qed.

Lemma compare_refl (s : string) : String.compare s s = Eq.
Proof.
  induction s as [|a s IH]; simpl; [reflexivity|].
  now rewrite ascii_compare_refl.
Qed.

(** Not-above is transitive. *)
Lemma compare_le_trans (s1 s2 s3 : string) :
  String.compare s1 s2 <> Gt -> String.compare s2 s3 <> Gt ->
  String.compare s1 s3 <> Gt.
Proof.
  revert s2 s3.
  induction s1 as [|a s1 IH]; intros [|b s2] [|c s3]; simpl; try congruence.
  destruct (Ascii.compare a b) eqn:Hab; try congruence;
    destruct (Ascii.compare b c) eqn:Hbc; try congruence; intros H12 H23.
  - apply ascii_compare_Eq in Hab, Hbc. subst.
    rewrite ascii_compare_refl. now apply (IH s2).
  - apply ascii_compare_Eq in Hab. subst. now rewrite Hbc.
  - apply ascii_compare_Eq in Hbc. subst. now rewrite Hab.
  - now rewrite (ascii_compare_Lt_trans _ _ _ Hab Hbc).
Qed.

End string_order.

(** ** [slices.SortFunc] sorts *)
Module slices_facts.

Section Sort.
Context {E : Type}.
Variable cmpf : E -> E -> comparison.

Hypothesis cmpf_antisym : forall a b, cmpf a b = CompOpp (cmpf b a).
Hypothesis le_trans :
  forall a b c, slices.le cmpf a b -> slices.le cmpf b c -> slices.le cmpf a c.

Lemma sift_perm (x : E) (rp : list E) :
  Permutation (x :: rp) (slices.sift cmpf x rp).
Proof.
  induction rp as [|y r IH]; simpl; [reflexivity|].
  destruct (cmpf x y); try reflexivity.
  rewrite perm_swap. now apply perm_skip.
Qed.

Lemma sift_descending (x : E) (rp : list E) :
  StronglySorted (fun a b => slices.le cmpf b a) rp ->
  StronglySorted (fun a b => slices.le cmpf b a) (slices.sift cmpf x rp).
Proof.
  induction rp as [|y r IH]; simpl; intros Hs.
  - repeat constructor.
  - apply StronglySorted_inv in Hs as [Hr Hy].
    destruct (cmpf x y) eqn:Hxy.
    + constructor; [now constructor|].
      constructor; [unfold slices.le; rewrite cmpf_antisym, Hxy; discriminate|].
      eapply List.Forall_impl; [|exact Hy]. intros z Hz. simpl in Hz.
      apply (le_trans z y x); [exact Hz|].
      unfold slices.le. rewrite cmpf_antisym, Hxy. discriminate.
    + constructor; [now apply IH|].
      apply (Permutation_Forall (sift_perm x r)).
      constructor; [|exact Hy]. unfold slices.le. rewrite Hxy. discriminate.
    + constructor; [now constructor|].
      constructor; [unfold slices.le; rewrite cmpf_antisym, Hxy; discriminate|].
      eapply List.Forall_impl; [|exact Hy]. intros z Hz. simpl in Hz.
      apply (le_trans z y x); [exact Hz|].
      unfold slices.le. rewrite cmpf_antisym, Hxy. discriminate.
Qed.

Lemma StronglySorted_snoc (R : E -> E -> Prop) (l : list E) (x : E) :
  StronglySorted R l -> Forall (fun y => R y x) l ->
  StronglySorted R (l ++ [x]).
Proof.
  induction l as [|a l IH]; simpl; intros Hs Hx.
  - repeat constructor.
  - apply StronglySorted_inv in Hs as [Hl Ha].
    apply Forall_cons_iff in Hx as [Hax Hx].
    constructor; [now apply IH|].
    apply Forall_app. split; [exact Ha|]. now repeat constructor.
Qed.

Lemma StronglySorted_rev (R : E -> E -> Prop) (l : list E) :
  StronglySorted (fun a b => R b a) l -> StronglySorted R (rev l).
Proof.
  induction l as [|a l IH]; simpl; intros Hs; [constructor|].
  apply StronglySorted_inv in Hs as [Hl Ha].
  apply StronglySorted_snoc; [now apply IH|].
  apply Forall_rev. exact Ha.
Qed.

Lemma insertionSort_perm (rp data : list E) :
  Permutation (rev rp ++ data) (slices.insertionSortCmpFunc cmpf rp data).
Proof.
  revert rp. induction data as [|x rest IH]; intros rp; simpl.
  - now rewrite app_nil_r.
  - rewrite <- IH, <- (sift_perm x rp). simpl.
    rewrite <- app_assoc. reflexivity.
Qed.

Lemma insertionSort_sorted (rp data : list E) :
  StronglySorted (fun a b => slices.le cmpf b a) rp ->
  StronglySorted (slices.le cmpf) (slices.insertionSortCmpFunc cmpf rp data).
Proof.
  revert rp. induction data as [|x rest IH]; intros rp Hs; simpl.
  - now apply StronglySorted_rev.
  - apply IH. now apply sift_descending.
Qed.

Lemma SortFunc_perm (data : list E) :
  Permutation data (slices.SortFunc cmpf data).
Proof. exact (insertionSort_perm [] data). Qed.

Lemma SortFunc_sorted (data : list E) :
  StronglySorted (slices.le cmpf) (slices.SortFunc cmpf data).
Proof. apply insertionSort_sorted. constructor. Qed.

End Sort.

End slices_facts.

(** ** The assembler *)
Module assembler_facts.

Import assembler properties.

Lemma compareEntries_antisym (a b : AppEntry) :
  compareEntries a b = CompOpp (compareEntries b a).
Proof.
  unfold compareEntries, cmp.Compare_int, cmp.Compare_string.
  rewrite (Z.compare_antisym (categoryOrder_at (Category b))).
  rewrite (Z.compare_antisym (Priority b)).
  rewrite (String.compare_antisym (Name a)).
  destruct (categoryOrder_at (Category b) ?= categoryOrder_at (Category a));
    simpl; try reflexivity.
  destruct (Priority b ?= Priority a); simpl; reflexivity.
Qed.

(** The comparison function decides [sortsBefore]. *)
Lemma compareEntries_sortsBefore (a b : AppEntry) :
  compareEntries a b <> Gt <-> sortsBefore a b.
Proof.
  unfold compareEntries, sortsBefore, cmp.Compare_int, cmp.Compare_string, String.leb.
  destruct (Z.compare_spec (categoryOrder_at (Category a))
                           (categoryOrder_at (Category b))) as [Hc|Hc|Hc];
    [|split; [intros _; now left | discriminate]
     |split; [congruence | intros [?|[[? _]|[? _]]]; lia]].
  destruct (Z.compare_spec (Priority a) (Priority b)) as [Hp|Hp|Hp].
  - destruct (String.compare (Name a) (Name b)); split;
      try congruence; try discriminate;
      try (intros _; right; right; now repeat split).
    intros [?|[[_ ?]|[_ [_ ?]]]]; [lia | lia | discriminate].
  - split; [intros _; right; left; now split | discriminate].
  - split; [congruence | intros [?|[[_ ?]|[_ [? _]]]]; lia].
Qed.

Lemma sortsBefore_trans (a b c : AppEntry) :
  sortsBefore a b -> sortsBefore b c -> sortsBefore a c.
Proof.
  unfold sortsBefore, String.leb.
  intros [H1|[[H1 H1']|[H1 [H1' H1'']]]] [H2|[[H2 H2']|[H2 [H2' H2'']]]];
    try (left; lia); try (right; left; split; lia).
  right; right. repeat split; try lia.
  pose proof (string_order.compare_le_trans (Name a) (Name b) (Name c)) as Ht.
  destruct (String.compare (Name a) (Name b)); try discriminate;
    destruct (String.compare (Name b) (Name c)); try discriminate;
    destruct (String.compare (Name a) (Name c)); try reflexivity;
    exfalso; apply Ht; congruence.
Qed.

Lemma compareEntries_le_trans (a b c : AppEntry) :
  slices.le compareEntries a b -> slices.le compareEntries b c ->
  slices.le compareEntries a c.
Proof.
  unfold slices.le. rewrite !compareEntries_sortsBefore.
  apply sortsBefore_trans.
Qed.

Section Assemble.
Variable MarshalIndent : list AppEntry -> string + operrors.error.

(** The entries of a result are the sorted entries of the apps,
    whatever the encoder. *)
Lemma Assemble_Entries apps result :
  Assemble MarshalIndent apps = inl result ->
  Entries result = slices.SortFunc compareEntries (map entryOf apps).
Proof.
  unfold Assemble. destruct (MarshalIndent _); intros [= <-]. reflexivity.
Qed.

Lemma Assemble_AppsJSON apps result :
  Assemble MarshalIndent apps = inl result ->
  MarshalIndent (Entries result) = inl (AppsJSON result).
Proof.
  unfold Assemble.
  destruct (MarshalIndent _) eqn:HM; intros [= <-]. exact HM.
Qed.

Lemma Assemble_perm apps result :
  Assemble MarshalIndent apps = inl result ->
  Permutation (map entryOf apps) (Entries result).
Proof.
  intros H. rewrite (Assemble_Entries _ _ H). apply slices_facts.SortFunc_perm.
Qed.

Lemma Assemble_sorted apps result :
  Assemble MarshalIndent apps = inl result ->
  StronglySorted sortsBefore (Entries result).
Proof.
  intros H. rewrite (Assemble_Entries _ _ H).
  pose proof (slices_facts.SortFunc_sorted compareEntries
                compareEntries_antisym compareEntries_le_trans
                (map entryOf apps)) as Hs.
  induction Hs as [|e l Hs IH Hall]; constructor; [exact IH|].
  eapply List.Forall_impl; [|exact Hall].
  intros b Hb. now apply compareEntries_sortsBefore.
Qed.

Lemma Assemble_In apps result app :
  Assemble MarshalIndent apps = inl result ->
  In app apps -> In (entryOf app) (Entries result).
Proof.
  intros H Hin. apply (Permutation_in _ (Assemble_perm _ _ H)).
  now apply in_map.
Qed.

End Assemble.

(** With the encoder of the standard library the assembler has a result
    for every input. *)
Lemma Assemble_total apps :
  exists result, Assemble json.MarshalIndent apps = inl result.
Proof. unfold Assemble, json.MarshalIndent. eexists. reflexivity. Qed.

End assembler_facts.

(** The assertions of assembler_test.go hold of the model. *)
Module assembler_tests.

Import assembler.

Example TestAssembler_Assemble :
  exists result,
    Assemble json.MarshalIndent assembler_test.apps = inl result
    /\ length (Entries result) = 3%nat
    /\ map Category (Entries result) = ["media"; "ai"; "development"]%string.
Proof. eexists. repeat split. Qed.

Example TestAssembler_SortWithinCategory :
  exists result,
    Assemble json.MarshalIndent assembler_test.mediaApps = inl result
    /\ map Name (Entries result) = ["Plex"; "Seerr"; "Sonarr"]%string.
Proof. eexists. repeat split. Qed.

Example TestAssembler_DefaultPriority :
  exists result,
    Assemble json.MarshalIndent [assembler_test.app1] = inl result
    /\ map Priority (Entries result) = [100].
Proof. eexists. repeat split. Qed.

Example TestAssembler_EmptyInput :
  Assemble json.MarshalIndent []
  = inl {| Entries := []; AppsJSON := "[]" |}.
Proof. reflexivity. Qed.

End assembler_tests.

Module assembler_claims.

Import assembler properties assembler_facts.

Lemma StronglySorted_lookup {A} (R : A -> A -> Prop) (l : list A) :
  StronglySorted R l ->
  forall (i j : nat) (a b : A),
    l !! i = Some a -> l !! j = Some b -> (i < j)%nat -> R a b.
Proof.
  induction 1 as [|x l Hs IH Hall]; intros i j a b Hi Hj Hlt.
  - discriminate.
  - destruct j as [|j]; [lia|]. simpl in Hj.
    destruct i as [|i]; simpl in Hi.
    + injection Hi as <-.
      rewrite List.Forall_forall in Hall. apply Hall.
      apply list_elem_of_In. eapply list_elem_of_lookup_2. exact Hj.
    + apply (IH i j); [assumption | assumption | lia].
Qed.

Lemma categoryOrder_unknown (c : string) :
  ~ knownCategory c -> categoryOrder !! c = None.
Proof.
  unfold knownCategory, categoryOrder. simpl. intros H.
  rewrite !lookup_insert_ne by (intros Heq; apply H; tauto).
  apply lookup_empty.
Qed.

Lemma categoryOrder_known_range (c : string) :
  knownCategory c -> c <> "media"%string -> 1 <= categoryOrder_at c.
Proof.
  unfold knownCategory. simpl.
  intros [<-|[<-|[<-|[<-|[<-|[]]]]]] Hne;
    try congruence; vm_compute; discriminate.
Qed.

(** C2.  For every input the assembler returns a result whose entries are
    the entries of the apps, each once, put in order: an entry stands
    before another only if its category ranks lower, or the ranks are
    equal and its priority is smaller, or both are equal and its name is
    not above the other's byte-wise.  The ranks of media, ai,
    productivity, development and admin are 0 to 4 in this order, and the
    apps of the test (plex media/10, gitea development/20, openwebui
    ai/10) come out as plex, openwebui, gitea. *)
Theorem Assemble_sort_correct (apps : list v1alpha1.DashboardApp) :
  exists result,
    Assemble json.MarshalIndent apps = inl result
    /\ Permutation (map entryOf apps) (Entries result)
    /\ StronglySorted sortsBefore (Entries result)
    /\ map categoryOrder_at ["media"; "ai"; "productivity"; "development"; "admin"]%string
       = [0; 1; 2; 3; 4]
    /\ exists tested,
         Assemble json.MarshalIndent assembler_test.apps = inl tested
         /\ map ID (Entries tested) = ["plex"; "openwebui"; "gitea"]%string.
Proof.
  destruct (Assemble_total apps) as [result H].
  exists result. split; [exact H|].
  split; [exact (Assemble_perm _ _ _ H)|].
  split; [exact (Assemble_sorted _ _ _ H)|].
  split; [vm_compute; reflexivity|].
  eexists. split; vm_compute; reflexivity.
Qed.

(** C3, as stated, fails: with gitea (development) and an app of the
    unknown category games, the unknown one comes out first, before the
    entry of a known category. *)
Lemma unknown_category_sorts_first :
  exists result,
    Assemble json.MarshalIndent [assembler_test.gitea; scenario.steam] = inl result
    /\ map ID (Entries result) = ["steam"; "gitea"]%string
    /\ ~ unknownSortLast (Entries result).
Proof.
  eexists. split; [vm_compute; reflexivity|].
  split; [vm_compute; reflexivity|].
  intros Hlast.
  specialize (Hlast 1%nat 0%nat (entryOf assembler_test.gitea) (entryOf scenario.steam)
                eq_refl eq_refl).
  assert (Hk : knownCategory (Category (entryOf assembler_test.gitea))).
  { do 3 right. left. reflexivity. }
  assert (Hu : ~ knownCategory (Category (entryOf scenario.steam))).
  { simpl. intros [H|[H|[H|[H|[H|[]]]]]]; discriminate. }
  specialize (Hlast Hk Hu). lia.
Qed.

(** C3, amended.  An entry whose category is outside the enumeration has
    rank 0, the rank of media, and so stands before every entry of the
    categories ai, productivity, development and admin. *)
Theorem unknown_category_rank
    (apps : list v1alpha1.DashboardApp) (result : AssemblyResult)
    (i j : nat) (a b : AppEntry) :
  Assemble json.MarshalIndent apps = inl result ->
  Entries result !! i = Some a ->
  Entries result !! j = Some b ->
  ~ knownCategory (Category a) ->
  knownCategory (Category b) ->
  Category b <> "media"%string ->
  categoryOrder_at (Category a) = categoryOrder_at "media"
  /\ categoryOrder_at (Category a) < categoryOrder_at (Category b)
  /\ (i < j)%nat.
Proof.
  intros H Hi Hj Hu Hk Hm.
  assert (Ha : categoryOrder_at (Category a) = 0).
  { unfold categoryOrder_at. now rewrite (categoryOrder_unknown _ Hu). }
  pose proof (categoryOrder_known_range _ Hk Hm) as Hb.
  split; [rewrite Ha; vm_compute; reflexivity|].
  split; [lia|].
  destruct (Nat.lt_trichotomy i j) as [Hlt|[Heq|Hgt]]; [exact Hlt| |].
  - subst j. rewrite Hi in Hj. injection Hj as <-. contradiction.
  - pose proof (StronglySorted_lookup _ _ (Assemble_sorted _ _ _ H)
                  j i b a Hj Hi Hgt) as Hs.
    unfold sortsBefore in Hs. lia.
Qed.

Lemma unknown_category_rank_witness :
  categoryOrder_at (Category (entryOf scenario.steam)) = categoryOrder_at "media"
  /\ categoryOrder_at (Category (entryOf scenario.steam))
     < categoryOrder_at (Category (entryOf assembler_test.gitea))
  /\ (0 < 1)%nat.
Proof.
  eapply (unknown_category_rank [assembler_test.gitea; scenario.steam] _ 0 1
            (entryOf scenario.steam) (entryOf assembler_test.gitea)).
  - vm_compute. reflexivity.
  - vm_compute. reflexivity.
  - vm_compute. reflexivity.
  - simpl. intros [H|[H|[H|[H|[H|[]]]]]]; discriminate.
  - do 3 right. left. reflexivity.
  - simpl. discriminate.
Defined.

(** C7.  The result has one entry per app.  Every app of the input,
    whatever its priority, has among the entries one whose id is the
    app's name and whose name, URL, category, icon and groups are those
    of its spec, and that entry has priority exactly 100 when the
    declared priority is zero.  Conversely every entry of the result is
    such an entry of an app of the input.  The app of the test, declared
    without a priority, comes out with 100. *)
Theorem default_priority (apps : list v1alpha1.DashboardApp) :
  exists result,
    Assemble json.MarshalIndent apps = inl result
    /\ length (Entries result) = length apps
    /\ (forall app, In app apps ->
          exists e,
            In e (Entries result)
            /\ copiesFields app e
            /\ (v1alpha1.Priority (v1alpha1.Spec app) = 0 -> Priority e = 100))
    /\ (forall e, In e (Entries result) ->
          exists app,
            In app apps
            /\ copiesFields app e
            /\ (v1alpha1.Priority (v1alpha1.Spec app) = 0 -> Priority e = 100))
    /\ exists tested,
         Assemble json.MarshalIndent [assembler_test.app1] = inl tested
         /\ map Priority (Entries tested) = [100].
Proof.
  destruct (Assemble_total apps) as [result H].
  assert (Hcopy : forall app,
             copiesFields app (entryOf app)
             /\ (v1alpha1.Priority (v1alpha1.Spec app) = 0
                 -> Priority (entryOf app) = 100)).
  { intros app. split.
    - unfold copiesFields, entryOf. simpl. repeat split.
    - intros Hp. unfold entryOf. simpl. now rewrite Hp. }
  exists result. split; [exact H|].
  split.
  { rewrite <- (Permutation_length (Assemble_perm _ _ _ H)).
    apply length_map. }
  split; [|split].
  - intros app Hin. exists (entryOf app).
    split; [exact (Assemble_In _ _ _ _ H Hin)|]. apply Hcopy.
  - intros e He.
    apply (Permutation_in _ (Permutation_sym (Assemble_perm _ _ _ H))) in He.
    apply in_map_iff in He as [app [<- Hin]].
    exists app. split; [exact Hin|]. apply Hcopy.
  - eexists. split; vm_compute; reflexivity.
Qed.

(** C9.  Every entry of the result is the entry of an app of the input
    and carries that app's declared priority unless it is zero, in which
    case it carries 100; hence no entry has priority zero.  Negative
    priorities pass as they are and nothing bounds them from below: every
    value of the priority's type other than zero, down to the least one,
    is the priority of the entry of the app that declares it. *)
Theorem nonzero_priority_verbatim (apps : list v1alpha1.DashboardApp) :
  exists result,
    Assemble json.MarshalIndent apps = inl result
    /\ (forall app, In app apps ->
          In (entryOf app) (Entries result)
          /\ (v1alpha1.Priority (v1alpha1.Spec app) <> 0 ->
              Priority (entryOf app) = v1alpha1.Priority (v1alpha1.Spec app))
          /\ (v1alpha1.Priority (v1alpha1.Spec app) = 0 ->
              Priority (entryOf app) = 100))
    /\ (forall e, In e (Entries result) ->
          Priority e <> 0 /\ exists app, In app apps /\ e = entryOf app)
    /\ (forall p : Z, isInt p -> p <> 0 ->
          exists only,
            Assemble json.MarshalIndent [assembler_test.withCategory "low" "admin" p]
            = inl only
            /\ map Priority (Entries only) = [p])
    /\ isInt minInt /\ minInt < 0
    /\ (forall p : Z, isInt p -> minInt <= p)
    /\ exists least,
         Assemble json.MarshalIndent [assembler_test.withCategory "low" "admin" minInt]
         = inl least
         /\ map Priority (Entries least) = [minInt].
Proof.
  destruct (Assemble_total apps) as [result H].
  exists result. split; [exact H|]. split; [|split; [|split]].
  - intros app Hin. split; [exact (Assemble_In _ _ _ _ H Hin)|].
    unfold entryOf; simpl. split; intros Hp.
    + destruct (Z.eqb_spec (v1alpha1.Priority (v1alpha1.Spec app)) 0);
        [contradiction | reflexivity].
    + now rewrite Hp.
  - intros e He.
    apply (Permutation_in _ (Permutation_sym (Assemble_perm _ _ _ H))) in He.
    apply in_map_iff in He as [app [<- Hin]].
    split; [|now exists app].
    unfold entryOf; simpl.
    destruct (Z.eqb_spec (v1alpha1.Priority (v1alpha1.Spec app)) 0); lia.
  - intros p _ Hp.
    eexists. split; [reflexivity|]. simpl.
    destruct (Z.eqb_spec p 0); [contradiction | reflexivity].
  - split; [unfold isInt, minInt, maxInt; lia|].
    split; [unfold minInt; lia|].
    split; [unfold isInt; intros p Hp; lia|].
    eexists. split; vm_compute; reflexivity.
Qed.

End assembler_claims.

(** ** The store calls, one by one *)
Module client_facts.

Import operrors client.

Lemma key_eqb_eq (a b : NamespacedName) : key_eqb a b = true <-> a = b.
Proof.
  destruct a as [a1 a2], b as [b1 b2]. unfold key_eqb. simpl.
  rewrite andb_true_iff, !String.eqb_eq. split.
  - intros [-> ->]. reflexivity.
  - intros [= -> ->]. split; reflexivity.
Qed.

Lemma key_eqb_refl (a : NamespacedName) : key_eqb a a = true.
Proof. now apply key_eqb_eq. Qed.

Lemma Get_found env c key cm :
  failGet env = None -> configMaps c !! key = Some cm ->
  Get key env c = (inl cm, c, [CallGet key]).
Proof.
  intros Hf Hl. unfold Get, bind, emit, ask, get, ret. simpl.
  rewrite Hf, Hl. reflexivity.
Qed.

Lemma Get_absent env c key :
  failGet env = None -> configMaps c !! key = None ->
  Get key env c = (inr (notFound key), c, [CallGet key]).
Proof.
  intros Hf Hl. unfold Get, bind, emit, ask, get, ret. simpl.
  rewrite Hf, Hl. reflexivity.
Qed.

Lemma Get_failed env c key err :
  failGet env = Some err ->
  Get key env c = (inr err, c, [CallGet key]).
Proof.
  intros Hf. unfold Get, bind, emit, ask, get, ret. simpl.
  rewrite Hf. reflexivity.
Qed.

(** A get reads: whatever it answers, the cluster stays and the trace is
    the one call. *)
Lemma Get_reads env c key :
  exists got, Get key env c = (got, c, [CallGet key]).
Proof.
  unfold Get, bind, emit, ask, get, ret. simpl.
  destruct (failGet env); [eauto|].
  destruct (configMaps c !! key); eauto.
Qed.

(** A create either stores the object under its name and leaves the rest
    of the cluster, or fails and leaves all of it. *)
Lemma Create_cases env c cm :
  exists failed c',
    Create cm env c = (failed, c', [CallCreate cm])
    /\ ((failed = None
         /\ failCreate env = None
         /\ configMaps c !! keyOf (corev1.ObjectMeta cm) = None
         /\ c' = {| apps := apps c;
                    configMaps := <[keyOf (corev1.ObjectMeta cm) := cm]> (configMaps c) |})
        \/ (failed <> None /\ c' = c)).
Proof.
  unfold Create, bind, emit, ask, get, put, ret. simpl.
  destruct (failCreate env) eqn:Hf.
  - do 2 eexists. split; [reflexivity|]. right. split; [discriminate|reflexivity].
  - destruct (configMaps c !! keyOf (corev1.ObjectMeta cm)) eqn:Hl.
    + do 2 eexists. split; [reflexivity|]. right. split; [discriminate|reflexivity].
    + do 2 eexists. split; [reflexivity|]. left. repeat split.
Qed.

Lemma Update_cases env c cm :
  exists failed c',
    Update cm env c = (failed, c', [CallUpdate cm])
    /\ ((failed = None
         /\ failUpdate env = None
         /\ is_Some (configMaps c !! keyOf (corev1.ObjectMeta cm))
         /\ c' = {| apps := apps c;
                    configMaps := <[keyOf (corev1.ObjectMeta cm) := cm]> (configMaps c) |})
        \/ (failed <> None /\ c' = c)).
Proof.
  unfold Update, bind, emit, ask, get, put, ret. simpl.
  destruct (failUpdate env) eqn:Hf.
  - do 2 eexists. split; [reflexivity|]. right. split; [discriminate|reflexivity].
  - destruct (configMaps c !! keyOf (corev1.ObjectMeta cm)) eqn:Hl.
    + do 2 eexists. split; [reflexivity|]. left. repeat split. eauto.
    + do 2 eexists. split; [reflexivity|]. right. split; [discriminate|reflexivity].
Qed.

Lemma Create_stored env c cm :
  failCreate env = None -> configMaps c !! keyOf (corev1.ObjectMeta cm) = None ->
  Create cm env c
  = (None,
     {| apps := apps c;
        configMaps := <[keyOf (corev1.ObjectMeta cm) := cm]> (configMaps c) |},
     [CallCreate cm]).
Proof.
  intros Hf Hl. unfold Create, bind, emit, ask, get, put, ret. simpl.
  rewrite Hf, Hl. reflexivity.
Qed.

Lemma Update_stored env c cm old :
  failUpdate env = None -> configMaps c !! keyOf (corev1.ObjectMeta cm) = Some old ->
  Update cm env c
  = (None,
     {| apps := apps c;
        configMaps := <[keyOf (corev1.ObjectMeta cm) := cm]> (configMaps c) |},
     [CallUpdate cm]).
Proof.
  intros Hf Hl. unfold Update, bind, emit, ask, get, put, ret. simpl.
  rewrite Hf, Hl. reflexivity.
Qed.

End client_facts.

(** ** The status loop *)
Module status_facts.

Import operrors client controllers pass_properties client_facts.

Lemma key_markReady now (a : v1alpha1.DashboardApp) :
  keyOf (v1alpha1.ObjectMeta (markReady now a)) = keyOf (v1alpha1.ObjectMeta a).
Proof. reflexivity. Qed.

Lemma hasKey_sym (a b : v1alpha1.DashboardApp) :
  hasKey (keyOf (v1alpha1.ObjectMeta a)) b = hasKey (keyOf (v1alpha1.ObjectMeta b)) a.
Proof.
  unfold hasKey.
  destruct (key_eqb (keyOf (v1alpha1.ObjectMeta b)) (keyOf (v1alpha1.ObjectMeta a))) eqn:H1.
  - apply key_eqb_eq in H1. rewrite H1. symmetry. apply key_eqb_refl.
  - destruct (key_eqb (keyOf (v1alpha1.ObjectMeta a)) (keyOf (v1alpha1.ObjectMeta b))) eqn:H2;
      [|reflexivity].
    apply key_eqb_eq in H2. rewrite H2, key_eqb_refl in H1. discriminate.
Qed.

Lemma hasKey_eq key (a : v1alpha1.DashboardApp) :
  hasKey key a = true -> keyOf (v1alpha1.ObjectMeta a) = key.
Proof. unfold hasKey. apply key_eqb_eq. Qed.

Lemma hasKey_self (a : v1alpha1.DashboardApp) :
  hasKey (keyOf (v1alpha1.ObjectMeta a)) a = true.
Proof. apply key_eqb_refl. Qed.

Lemma existsb_hasKey_lookup key (l : list v1alpha1.DashboardApp) i a :
  l !! i = Some a -> hasKey key a = true -> existsb (hasKey key) l = true.
Proof.
  intros Hl Hk. apply existsb_exists. exists a. split; [|exact Hk].
  apply list_elem_of_In. eapply list_elem_of_lookup_2. exact Hl.
Qed.

(** The three ways one status update can go. *)
Lemma StatusUpdate_failed env c app err :
  failStatusUpdate env (keyOf (v1alpha1.ObjectMeta app)) = Some err ->
  StatusUpdate app env c = (Some err, c, [CallStatusUpdate app]).
Proof.
  intros Hf. unfold StatusUpdate, bind, emit, ask, get, put, ret. simpl.
  rewrite Hf. reflexivity.
Qed.

Lemma StatusUpdate_missing env c app :
  failStatusUpdate env (keyOf (v1alpha1.ObjectMeta app)) = None ->
  existsb (hasKey (keyOf (v1alpha1.ObjectMeta app))) (apps c) = false ->
  StatusUpdate app env c
  = (Some (notFound (keyOf (v1alpha1.ObjectMeta app))), c, [CallStatusUpdate app]).
Proof.
  intros Hf He. unfold StatusUpdate, bind, emit, ask, get, put, ret. simpl.
  rewrite Hf, He. reflexivity.
Qed.

Lemma StatusUpdate_stored env c app :
  failStatusUpdate env (keyOf (v1alpha1.ObjectMeta app)) = None ->
  existsb (hasKey (keyOf (v1alpha1.ObjectMeta app))) (apps c) = true ->
  StatusUpdate app env c
  = (None,
     {| apps := map (fun a => if hasKey (keyOf (v1alpha1.ObjectMeta app)) a
                              then withStatus (v1alpha1.Status app) a else a) (apps c);
        configMaps := configMaps c |},
     [CallStatusUpdate app]).
Proof.
  intros Hf He. unfold StatusUpdate, bind, emit, ask, get, put, ret. simpl.
  rewrite Hf, He. reflexivity.
Qed.

(** Sending a status keeps every stored app's name. *)
Lemma existsb_hasKey_map key (f : v1alpha1.DashboardApp -> v1alpha1.DashboardApp) l :
  (forall a, v1alpha1.ObjectMeta (f a) = v1alpha1.ObjectMeta a) ->
  existsb (hasKey key) (map f l) = existsb (hasKey key) l.
Proof.
  intros Hf. induction l as [|a l IH]; simpl; [reflexivity|].
  rewrite IH. unfold hasKey at 1 3. now rewrite Hf.
Qed.

(** What the loop over [items] does from any cluster [c]: it sends one
    status per item, in order, whatever fails; it leaves the ConfigMaps;
    a stored app keeps its name and spec, is ready and synced at [now]
    when an item of its name was sent without failure, and keeps its
    status otherwise; and no error is collected exactly when no update
    failed. *)
Lemma updateStatuses_spec env (items : list v1alpha1.DashboardApp) :
  forall c, exists errs c',
    updateStatuses (now env) items env c
    = (errs, c', map (fun a => CallStatusUpdate (markReady (now env) a)) items)
    /\ configMaps c' = configMaps c
    /\ length (apps c') = length (apps c)
    /\ (forall i a a',
          apps c !! i = Some a -> apps c' !! i = Some a' ->
          v1alpha1.ObjectMeta a' = v1alpha1.ObjectMeta a
          /\ v1alpha1.Spec a' = v1alpha1.Spec a
          /\ if existsb (hasKey (keyOf (v1alpha1.ObjectMeta a))) items
                && negb (statusFails env a)
             then v1alpha1.Ready (v1alpha1.Status a') = true
                  /\ v1alpha1.LastSyncedAt (v1alpha1.Status a') = Some (now env)
             else v1alpha1.Status a' = v1alpha1.Status a)
    /\ (errs = [] <->
        forall it, In it items ->
          statusFails env it = false
          /\ existsb (hasKey (keyOf (v1alpha1.ObjectMeta it))) (apps c) = true).
Proof.
  induction items as [|it rest IH]; intros c.
  - exists [], c. simpl. unfold ret.
    split; [reflexivity|]. split; [reflexivity|]. split; [reflexivity|]. split.
    + intros i a a' Ha Ha'. rewrite Ha in Ha'. injection Ha' as <-.
      repeat split.
    + split; [intros _ it []|reflexivity].
  - simpl. unfold bind at 1.
    set (k := keyOf (v1alpha1.ObjectMeta it)).
    destruct (failStatusUpdate env k) as [err|] eqn:Hfail.
    + (* the update of [it] is made to fail *)
      rewrite (StatusUpdate_failed env c (markReady (now env) it) err Hfail).
      destruct (IH c) as (errs & c' & Hrun & Hcm & Hlen & Hpt & Herrs).
      unfold bind at 1. rewrite Hrun. unfold ret.
      exists (err :: errs), c'. split; [simpl; now rewrite app_nil_r|].
      split; [exact Hcm|]. split; [exact Hlen|]. split.
      * intros i a a' Ha Ha'.
        destruct (Hpt i a a' Ha Ha') as (Hm & Hs & Hst).
        split; [exact Hm|]. split; [exact Hs|].
        destruct (statusFails env a) eqn:Hfa.
        -- rewrite andb_false_r in *. exact Hst.
        -- assert (Hk : hasKey (keyOf (v1alpha1.ObjectMeta a)) it = false).
           { destruct (hasKey _ it) eqn:Hh; [|reflexivity].
             apply hasKey_eq in Hh. fold k in Hh.
             unfold statusFails in Hfa. rewrite <- Hh, Hfail in Hfa. discriminate. }
           rewrite Hk. exact Hst.
      * split; [discriminate|]. intros Hall.
        destruct (Hall it (or_introl eq_refl)) as [Hf _].
        unfold statusFails in Hf. fold k in Hf. rewrite Hfail in Hf. discriminate.
    + destruct (existsb (hasKey k) (apps c)) eqn:Hex.
      * (* the update of [it] is stored *)
        rewrite (StatusUpdate_stored env c (markReady (now env) it) Hfail Hex).
        rewrite key_markReady. fold k.
        set (f := fun a => if hasKey k a
                           then withStatus (v1alpha1.Status (markReady (now env) it)) a
                           else a).
        set (c1 := {| apps := map f (apps c); configMaps := configMaps c |}).
        assert (Hfm : forall a, v1alpha1.ObjectMeta (f a) = v1alpha1.ObjectMeta a).
        { intros a. unfold f. destruct (hasKey k a); reflexivity. }
        destruct (IH c1) as (errs & c' & Hrun & Hcm & Hlen & Hpt & Herrs).
        unfold bind at 1. rewrite Hrun. unfold ret.
        exists errs, c'. split; [simpl; now rewrite app_nil_r|].
        split; [exact Hcm|].
        split; [rewrite Hlen; simpl; apply length_map|]. split.
        -- intros i a a' Ha Ha'.
           assert (Ha1 : apps c1 !! i = Some (f a)).
           { simpl. change (map f (apps c)) with (f <$> apps c).
             rewrite list_lookup_fmap, Ha. reflexivity. }
           destruct (Hpt i (f a) a' Ha1 Ha') as (Hm & Hs & Hst).
           rewrite Hfm in Hm, Hst.
           assert (Hsp : v1alpha1.Spec (f a) = v1alpha1.Spec a).
           { unfold f. destruct (hasKey k a); reflexivity. }
           assert (Hfa : statusFails env (f a) = statusFails env a).
           { unfold statusFails. now rewrite Hfm. }
           rewrite Hfa in Hst.
           split; [exact Hm|]. split; [congruence|].
           destruct (statusFails env a) eqn:Hsf.
           ++ rewrite andb_false_r in *. rewrite Hst. unfold f.
              destruct (hasKey k a) eqn:Hh; [|reflexivity].
              apply hasKey_eq in Hh. unfold statusFails in Hsf.
              rewrite Hh, Hfail in Hsf. discriminate.
           ++ rewrite andb_true_r in *.
              destruct (existsb (hasKey (keyOf (v1alpha1.ObjectMeta a))) rest);
                [rewrite orb_true_r; exact Hst|].
              rewrite orb_false_r, hasKey_sym. fold k.
              rewrite Hst. unfold f.
              destruct (hasKey k a); [split; reflexivity | reflexivity].
        -- rewrite Herrs. split; intros Hall it' Hin.
           ++ destruct Hin as [<-|Hin].
              ** split; [unfold statusFails; fold k; now rewrite Hfail | exact Hex].
              ** destruct (Hall it' Hin) as [Hf He]. split; [exact Hf|].
                 simpl in He. now rewrite existsb_hasKey_map in He.
           ++ destruct (Hall it' (or_intror Hin)) as [Hf He]. split; [exact Hf|].
              simpl. now rewrite existsb_hasKey_map.
      * (* no stored app has the name of [it] *)
        rewrite (StatusUpdate_missing env c (markReady (now env) it) Hfail Hex).
        destruct (IH c) as (errs & c' & Hrun & Hcm & Hlen & Hpt & Herrs).
        unfold bind at 1. rewrite Hrun. unfold ret.
        eexists (_ :: errs), c'. split; [simpl; now rewrite app_nil_r|].
        split; [exact Hcm|]. split; [exact Hlen|]. split.
        -- intros i a a' Ha Ha'.
           destruct (Hpt i a a' Ha Ha') as (Hm & Hs & Hst).
           split; [exact Hm|]. split; [exact Hs|].
           assert (Hk : hasKey (keyOf (v1alpha1.ObjectMeta a)) it = false).
           { rewrite hasKey_sym. fold k.
             destruct (hasKey k a) eqn:Hh; [|reflexivity].
             rewrite (existsb_hasKey_lookup k _ i a Ha Hh) in Hex. discriminate. }
           rewrite Hk. exact Hst.
        -- split; [discriminate|]. intros Hall.
           destruct (Hall it (or_introl eq_refl)) as [_ He].
           fold k in He. rewrite Hex in He. discriminate.
Qed.

End status_facts.

(** ** The pass, branch by branch *)
Module pass_facts.

Import operrors client controllers pass_properties client_facts status_facts.

Lemma List_ok env c :
  failList env = None -> List env c = (inl (apps c), c, [CallList]).
Proof.
  intros Hf. unfold List, bind, emit, ask, get, ret. simpl. now rewrite Hf.
Qed.

Lemma List_failed env c err :
  failList env = Some err -> List env c = (inr err, c, [CallList]).
Proof.
  intros Hf. unfold List, bind, emit, ask, get, ret. simpl. now rewrite Hf.
Qed.

Lemma key_overwrite existing hash body :
  keyOf (corev1.ObjectMeta (overwrite existing hash body))
  = keyOf (corev1.ObjectMeta existing).
Proof. reflexivity. Qed.

Lemma key_newConfigMap r hash body :
  keyOf (corev1.ObjectMeta (newConfigMap r hash body)) = artifactKey r.
Proof. reflexivity. Qed.

Lemma IsNotFound_notFound key : IsNotFound (notFound key) = true.
Proof. reflexivity. Qed.

(** The stored hash equals the fresh one: nothing is written. *)
Lemma updateAppsConfig_unchanged r result env c cm :
  failGet env = None ->
  configMaps c !! artifactKey r = Some cm ->
  storedHash cm = computeHash (assembler.AppsJSON result) ->
  updateAppsConfig r result env c = (None, c, [CallGet (artifactKey r)]).
Proof.
  intros Hf Hl Hh. unfold updateAppsConfig, bind.
  rewrite (Get_found env c _ cm Hf Hl).
  unfold storedHash in Hh. rewrite Hh, String.eqb_refl. reflexivity.
Qed.

(** No artifact: it is created. *)
Lemma updateAppsConfig_absent r result env c :
  failGet env = None ->
  configMaps c !! artifactKey r = None ->
  failCreate env = None ->
  let cm := newConfigMap r (computeHash (assembler.AppsJSON result))
              (assembler.AppsJSON result) in
  updateAppsConfig r result env c
  = (None,
     {| apps := apps c; configMaps := <[artifactKey r := cm]> (configMaps c) |},
     [CallGet (artifactKey r); CallCreate cm]).
Proof.
  intros Hf Hl Hc cm. unfold updateAppsConfig, bind.
  rewrite (Get_absent env c _ Hf Hl), IsNotFound_notFound.
  fold cm. rewrite (Create_stored env c cm Hc); [reflexivity|].
  exact Hl.
Qed.

(** A stale artifact: it is overwritten. *)
Lemma updateAppsConfig_stale r result env c existing :
  failGet env = None ->
  configMaps c !! artifactKey r = Some existing ->
  keyOf (corev1.ObjectMeta existing) = artifactKey r ->
  storedHash existing <> computeHash (assembler.AppsJSON result) ->
  failUpdate env = None ->
  let cm := overwrite existing (computeHash (assembler.AppsJSON result))
              (assembler.AppsJSON result) in
  updateAppsConfig r result env c
  = (None,
     {| apps := apps c; configMaps := <[artifactKey r := cm]> (configMaps c) |},
     [CallGet (artifactKey r); CallUpdate cm]).
Proof.
  intros Hf Hl Hk Hh Hu cm. unfold updateAppsConfig, bind.
  rewrite (Get_found env c _ existing Hf Hl).
  apply String.eqb_neq in Hh. unfold storedHash in Hh. rewrite Hh.
  fold cm.
  rewrite (Update_stored env c cm existing Hu);
    unfold cm; rewrite key_overwrite, Hk; [reflexivity | exact Hl].
Qed.

(** Every way [updateAppsConfig] can go: it reads; then it writes
    nothing, or creates the new ConfigMap, or updates the one it read;
    a write that fails leaves the cluster as it was. *)
Lemma updateAppsConfig_cases r result env c :
  let hash := computeHash (assembler.AppsJSON result) in
  let body := assembler.AppsJSON result in
  exists failed c' t,
    updateAppsConfig r result env c = (failed, c', t)
    /\ apps c' = apps c
    /\ ((c' = c /\ t = [CallGet (artifactKey r)])
        \/ (t = [CallGet (artifactKey r); CallCreate (newConfigMap r hash body)]
            /\ ((failed = None
                 /\ c' = {| apps := apps c;
                            configMaps := <[artifactKey r := newConfigMap r hash body]>
                                            (configMaps c) |})
                \/ (failed <> None /\ c' = c)))
        \/ (exists existing,
              configMaps c !! artifactKey r = Some existing
              /\ storedHash existing <> hash
              /\ t = [CallGet (artifactKey r); CallUpdate (overwrite existing hash body)]
              /\ ((failed = None
                   /\ c' = {| apps := apps c;
                              configMaps := <[keyOf (corev1.ObjectMeta existing)
                                                := overwrite existing hash body]>
                                              (configMaps c) |})
                  \/ (failed <> None /\ c' = c)))).
Proof.
  intros hash body. unfold updateAppsConfig, bind. fold hash body.
  destruct (failGet env) as [err|] eqn:Hf.
  - rewrite (Get_failed env c _ err Hf).
    destruct (IsNotFound err).
    + destruct (Create_cases env c (newConfigMap r hash body))
        as (failed & c' & Hrun & Hcase).
      rewrite Hrun. exists failed, c', [CallGet (artifactKey r); CallCreate (newConfigMap r hash body)].
      split; [reflexivity|].
      destruct Hcase as [(-> & _ & _ & ->)|(Hne & ->)].
      * split; [reflexivity|]. right; left. split; [reflexivity|]. left. now split.
      * split; [reflexivity|]. right; left. split; [reflexivity|]. right. now split.
    + exists (Some err), c, [CallGet (artifactKey r)].
      split; [reflexivity|]. split; [reflexivity|]. left. now split.
  - destruct (configMaps c !! artifactKey r) as [existing|] eqn:Hl.
    + rewrite (Get_found env c _ existing Hf Hl).
      fold (storedHash existing).
      destruct (String.eqb_spec (storedHash existing) hash) as [Heq|Hne].
      * exists None, c, [CallGet (artifactKey r)].
        split; [reflexivity|]. split; [reflexivity|]. left. now split.
      * destruct (Update_cases env c (overwrite existing hash body))
          as (failed & c' & Hrun & Hcase).
        rewrite Hrun.
        exists failed, c', [CallGet (artifactKey r); CallUpdate (overwrite existing hash body)].
        split; [reflexivity|].
        destruct Hcase as [(-> & _ & _ & ->)|(Hfail & ->)].
        -- split; [reflexivity|]. right; right. exists existing.
           repeat split; try assumption. left. now split.
        -- split; [reflexivity|]. right; right. exists existing.
           repeat split; try assumption. right. now split.
    + rewrite (Get_absent env c _ Hf Hl), IsNotFound_notFound.
      destruct (Create_cases env c (newConfigMap r hash body))
        as (failed & c' & Hrun & Hcase).
      rewrite Hrun. exists failed, c', [CallGet (artifactKey r); CallCreate (newConfigMap r hash body)].
      split; [reflexivity|].
      destruct Hcase as [(-> & _ & _ & ->)|(Hne & ->)].
      * split; [reflexivity|]. right; left. split; [reflexivity|]. left. now split.
      * split; [reflexivity|]. right; left. split; [reflexivity|]. right. now split.
Qed.

Section Reconcile.
Variable MarshalIndent : list assembler.AppEntry -> string + error.

Lemma Reconcile_list_failed r env c err :
  failList env = Some err ->
  Reconcile MarshalIndent r env c
  = ((ctrl.noRequeue,
      Some (NewTransientError "failed to list DashboardApps" (Some err))),
     c, [CallList]).
Proof.
  intros Hf. unfold Reconcile, bind. rewrite (List_failed env c err Hf).
  reflexivity.
Qed.

Lemma Reconcile_empty r env c :
  failList env = None -> apps c = [] ->
  Reconcile MarshalIndent r env c = ((ctrl.noRequeue, None), c, [CallList]).
Proof.
  intros Hf He. unfold Reconcile, bind. rewrite (List_ok env c Hf), He.
  reflexivity.
Qed.

Lemma Reconcile_assembly_failed r env c first rest err :
  failList env = None -> apps c = first :: rest ->
  assembler.Assemble MarshalIndent (apps c) = inr err ->
  Reconcile MarshalIndent r env c
  = ((if ShouldRetry err
      then ({| ctrl.RequeueAfter := 30 * config.Second |}, None)
      else (ctrl.noRequeue, Some err)),
     c,
     [CallList;
      RecordEvent (keyOf (v1alpha1.ObjectMeta first)) corev1.EventTypeWarning
        "AssemblyFailed" (Error err)]).
Proof.
  intros Hf He Ha. unfold Reconcile, bind at 1. rewrite (List_ok env c Hf).
  rewrite He in *. rewrite Ha. unfold bind, Event, emit, ret.
  destruct (ShouldRetry err); reflexivity.
Qed.

Lemma Reconcile_config_failed r env c first rest result err c1 t1 :
  failList env = None -> apps c = first :: rest ->
  assembler.Assemble MarshalIndent (apps c) = inl result ->
  updateAppsConfig r result env c = (Some err, c1, t1) ->
  Reconcile MarshalIndent r env c
  = (({| ctrl.RequeueAfter := 30 * config.Second |}, None),
     c1,
     CallList :: t1 ++
     [RecordEvent (keyOf (v1alpha1.ObjectMeta first)) corev1.EventTypeWarning
        "ConfigUpdateFailed"
        ("Failed to update duro apps config: " ++ Error err)]).
Proof.
  intros Hf He Ha Hu. unfold Reconcile, bind at 1. rewrite (List_ok env c Hf).
  rewrite He in *. rewrite Ha. unfold bind at 1. rewrite Hu.
  unfold bind, Event, emit, ret. simpl. reflexivity.
Qed.

Lemma Reconcile_statuses r env c first rest result c1 t1 errs c2 t2 :
  failList env = None -> apps c = first :: rest ->
  assembler.Assemble MarshalIndent (apps c) = inl result ->
  updateAppsConfig r result env c = (None, c1, t1) ->
  updateStatuses (now env) (apps c) env c1 = (errs, c2, t2) ->
  Reconcile MarshalIndent r env c
  = ((if (0 <? length errs)%nat
      then ({| ctrl.RequeueAfter := 10 * config.Second |}, None)
      else (ctrl.noRequeue, None)),
     c2,
     CallList :: t1 ++ t2 ++
     (if (0 <? length errs)%nat then []
      else [RecordEvent (keyOf (v1alpha1.ObjectMeta first)) corev1.EventTypeNormal
              "Synced"
              ("Successfully assembled " ++ fmt_d (length (apps c))
               ++ " dashboard apps")])).
Proof.
  intros Hf He Ha Hu Hs. unfold Reconcile, bind at 1. rewrite (List_ok env c Hf).
  rewrite He in *. rewrite Ha. unfold bind at 1. rewrite Hu.
  unfold bind at 1. unfold Now at 1. unfold bind at 1, ask, ret at 1.
  unfold bind at 1. rewrite Hs.
  destruct (0 <? length errs)%nat.
  - unfold ret. simpl. reflexivity.
  - unfold bind, Event, emit, ret. simpl. reflexivity.
Qed.

End Reconcile.

End pass_facts.

(** ** The trace of a pass *)
Module trace_facts.

Import operrors client controllers pass_properties pass_facts status_facts.

Lemma artifactWrites_app t1 t2 :
  artifactWrites (t1 ++ t2) = artifactWrites t1 ++ artifactWrites t2.
Proof. apply List.filter_app. Qed.

Lemma statusWrites_app t1 t2 :
  statusWrites (t1 ++ t2) = statusWrites t1 ++ statusWrites t2.
Proof. apply List.filter_app. Qed.

Lemma artifactWrites_statuses (f : v1alpha1.DashboardApp -> v1alpha1.DashboardApp) l :
  artifactWrites (map (fun a => CallStatusUpdate (f a)) l) = [].
Proof. induction l as [|a l IH]; simpl; [reflexivity | exact IH]. Qed.

Lemma statusWrites_statuses (f : v1alpha1.DashboardApp -> v1alpha1.DashboardApp) l :
  statusWrites (map (fun a => CallStatusUpdate (f a)) l)
  = map (fun a => CallStatusUpdate (f a)) l.
Proof.
  induction l as [|a l IH]; simpl; [reflexivity|].
  f_equal. exact IH.
Qed.

Lemma In_artifactWrites e t :
  isArtifactWrite e = true -> In e t -> In e (artifactWrites t).
Proof. intros He Hin. apply List.filter_In. now split. Qed.

(** [updateAppsConfig] sends no status. *)
Lemma updateAppsConfig_statusWrites r result env c failed c' t :
  updateAppsConfig r result env c = (failed, c', t) -> statusWrites t = [].
Proof.
  intros Hrun.
  destruct (updateAppsConfig_cases r result env c)
    as (failed' & c'' & t' & Hrun' & _ & Hcase).
  rewrite Hrun in Hrun'. injection Hrun' as _ _ <-.
  destruct Hcase as [[_ ->]|[[-> _]|(existing & _ & _ & -> & _)]]; reflexivity.
Qed.

Lemma updateAppsConfig_apps r result env c failed c' t :
  updateAppsConfig r result env c = (failed, c', t) -> apps c' = apps c.
Proof.
  intros Hrun.
  destruct (updateAppsConfig_cases r result env c)
    as (failed' & c'' & t' & Hrun' & Happs & _).
  rewrite Hrun in Hrun'. injection Hrun' as _ <- _. exact Happs.
Qed.

(** When [updateAppsConfig] reports an error the cluster is as before. *)
Lemma updateAppsConfig_failed r result env c err c' t :
  updateAppsConfig r result env c = (Some err, c', t) -> c' = c.
Proof.
  intros Hrun.
  destruct (updateAppsConfig_cases r result env c)
    as (failed' & c'' & t' & Hrun' & _ & Hcase).
  rewrite Hrun in Hrun'. injection Hrun' as <- <- <-.
  destruct Hcase as [[Hc _]|[[_ Hw]|(existing & _ & _ & _ & Hw)]];
    [exact Hc | |];
    (destruct Hw as [[Hn _]|[_ Hc]]; [discriminate | exact Hc]).
Qed.

Section Reconcile.
Variable MarshalIndent : list assembler.AppEntry -> string + error.

(** A pass whose artifact step reported no error: the statuses of all
    apps are sent, in the order of the list, and the outcome tells
    whether one of them failed. *)
Lemma Reconcile_synced r env c first rest result c1 t1 :
  failList env = None -> apps c = first :: rest ->
  assembler.Assemble MarshalIndent (apps c) = inl result ->
  updateAppsConfig r result env c = (None, c1, t1) ->
  exists c2 ev,
    Reconcile MarshalIndent r env c
    = ((if existsb (statusFails env) (apps c)
        then ({| ctrl.RequeueAfter := 10 * config.Second |}, None)
        else (ctrl.noRequeue, None)),
       c2,
       CallList :: t1
         ++ map (fun a => CallStatusUpdate (markReady (now env) a)) (apps c) ++ ev)
    /\ artifactWrites ev = [] /\ statusWrites ev = []
    /\ configMaps c2 = configMaps c1
    /\ Forall2 (statusAfter env) (apps c) (apps c2).
Proof.
  intros Hf He Ha Hu.
  pose proof (updateAppsConfig_apps _ _ _ _ _ _ _ Hu) as Happs.
  destruct (updateStatuses_spec env (apps c) c1)
    as (errs & c2 & Hrun & Hcm & Hlen & Hpt & Herrs).
  rewrite (Reconcile_statuses MarshalIndent r env c first rest result
             c1 t1 errs c2 _ Hf He Ha Hu Hrun).
  assert (Hany : (0 <? length errs)%nat = existsb (statusFails env) (apps c)).
  { destruct (existsb (statusFails env) (apps c)) eqn:Hex.
    - apply existsb_exists in Hex as (a & Hin & Hfa).
      destruct errs as [|e errs]; [|reflexivity].
      destruct Herrs as [Hnone _].
      destruct (Hnone eq_refl a Hin) as [Hfa' _]. congruence.
    - destruct errs as [|e errs]; [reflexivity|].
      destruct Herrs as [_ Hsome].
      assert (Hnil : e :: errs = []); [|discriminate].
      apply Hsome. intros it Hin. split.
      + destruct (statusFails env it) eqn:Hfi; [|reflexivity].
        assert (existsb (statusFails env) (apps c) = true); [|congruence].
        apply existsb_exists. now exists it.
      + rewrite Happs. apply existsb_exists. exists it.
        split; [exact Hin | apply hasKey_self]. }
  rewrite Hany.
  eexists c2, _. split; [reflexivity|].
  split; [destruct (existsb _ _); reflexivity|].
  split; [destruct (existsb _ _); reflexivity|].
  split; [exact Hcm|].
  apply Forall2_same_length_lookup_2; [congruence|].
  intros i a a' Hi Hi'. rewrite <- Happs in Hi.
  destruct (Hpt i a a' Hi Hi') as (Hm & Hs & Hst).
  split; [exact Hm|]. split; [exact Hs|].
  rewrite (existsb_hasKey_lookup _ (apps c) i a) in Hst;
    [| now rewrite <- Happs | apply hasKey_self].
  simpl in Hst. destruct (statusFails env a); exact Hst.
Qed.

End Reconcile.

End trace_facts.

(** ** What a pass writes *)
Module write_facts.

Import operrors client controllers pass_properties.
Import client_facts status_facts pass_facts trace_facts.

Lemma storedHash_newConfigMap r hash body :
  storedHash (newConfigMap r hash body) = hash.
Proof.
  unfold storedHash, newConfigMap, entryOr. simpl.
  now rewrite lookup_singleton_eq.
Qed.

Lemma storedHash_overwrite existing hash body :
  storedHash (overwrite existing hash body) = hash.
Proof.
  unfold storedHash, overwrite, entryOr, assign. simpl.
  destruct (metav1.Annotations (corev1.ObjectMeta existing));
    now rewrite lookup_insert_eq.
Qed.

(** The digit table read by position, as a string and as a list. *)
Lemma get_nth (s : string) (d : ascii) (k : nat) :
  match String.get k s with Some c => c | None => d end
  = nth k (list_ascii_of_string s) d.
Proof.
  revert k. induction s as [|c s IH]; intros [|k]; simpl; try reflexivity.
  apply IH.
Qed.

Lemma digit_hexDigit (n : Z) : hex.digit n = hexDigit n.
Proof. unfold hex.digit, hexDigit. apply get_nth. Qed.

(** The encoder's shifts and masks are the division by sixteen and its
    remainder. *)
Lemma EncodeToString_lowerHex (bytes : list Z) :
  hex.EncodeToString bytes = lowerHex bytes.
Proof.
  induction bytes as [|b rest IH]; [reflexivity|].
  cbn [hex.EncodeToString lowerHex].
  rewrite IH, !digit_hexDigit.
  rewrite (Z.shiftr_div_pow2 b 4) by lia.
  change 15 with (Z.ones 4). rewrite (Z.land_ones b 4) by lia.
  reflexivity.
Qed.

(** What the controller computes is the SHA-256 digest in lower-case
    hexadecimal. *)
Lemma computeHash_sha256Hex (body : string) : computeHash body = sha256Hex body.
Proof. unfold computeHash, sha256Hex. apply EncodeToString_lowerHex. Qed.

Lemma paired_newConfigMap r body :
  paired (newConfigMap r (computeHash body) body).
Proof.
  exists body. split; [reflexivity|].
  eexists. split; [reflexivity|].
  rewrite <- computeHash_sha256Hex. apply lookup_singleton_eq.
Qed.

Lemma paired_overwrite existing body :
  paired (overwrite existing (computeHash body) body).
Proof.
  exists body. split; [reflexivity|].
  unfold overwrite, assign. simpl.
  rewrite <- computeHash_sha256Hex.
  destruct (metav1.Annotations (corev1.ObjectMeta existing));
    (eexists; split; [reflexivity | apply lookup_insert_eq]).
Qed.

Lemma updateAppsConfig_writes r result env c :
  exists failed c1 t1,
    updateAppsConfig r result env c = (failed, c1, t1)
    /\ atMostOnePairedWrite (configMaps c) (configMaps c1) t1.
Proof.
  destruct (updateAppsConfig_cases r result env c)
    as (failed & c1 & t1 & Hrun & _ & Hcase).
  exists failed, c1, t1. split; [exact Hrun|].
  destruct Hcase as [[-> ->]|[[-> Hw]|(existing & _ & _ & -> & Hw)]].
  - left. split; reflexivity.
  - right. eexists. split; [left; reflexivity|].
    split; [apply paired_newConfigMap|].
    destruct Hw as [[_ ->]|[_ ->]]; [right; reflexivity | left; reflexivity].
  - right. eexists. split; [right; reflexivity|].
    split; [apply paired_overwrite|].
    destruct Hw as [[_ ->]|[_ ->]]; [right; reflexivity | left; reflexivity].
Qed.

Lemma atMostOnePairedWrite_ext before after t t' :
  artifactWrites t' = artifactWrites t ->
  atMostOnePairedWrite before after t -> atMostOnePairedWrite before after t'.
Proof. unfold atMostOnePairedWrite. intros ->. tauto. Qed.

Section Reconcile.
Variable MarshalIndent : list assembler.AppEntry -> string + error.

Lemma Reconcile_writes r env c :
  exists out c' t,
    Reconcile MarshalIndent r env c = (out, c', t)
    /\ atMostOnePairedWrite (configMaps c) (configMaps c') t.
Proof.
  destruct (failList env) as [err|] eqn:Hf.
  { do 3 eexists. split; [exact (Reconcile_list_failed _ r env c err Hf)|].
    left. split; reflexivity. }
  destruct (apps c) as [|first rest] eqn:He.
  { do 3 eexists. split; [exact (Reconcile_empty _ r env c Hf He)|].
    left. split; reflexivity. }
  destruct (assembler.Assemble MarshalIndent (apps c)) as [result|err] eqn:Ha.
  - destruct (updateAppsConfig_writes r result env c)
      as (failed & c1 & t1 & Hu & Hw).
    destruct failed as [err|].
    + do 3 eexists.
      split; [exact (Reconcile_config_failed _ r env c first rest result err
                       c1 t1 Hf He Ha Hu)|].
      apply (atMostOnePairedWrite_ext _ _ t1); [|exact Hw].
      simpl. rewrite artifactWrites_app. simpl. apply app_nil_r.
    + destruct (Reconcile_synced MarshalIndent r env c first rest result c1 t1
                  Hf He Ha Hu) as (c2 & ev & Hrun & Hev & _ & Hcm & _).
      do 3 eexists. split; [exact Hrun|]. rewrite Hcm.
      apply (atMostOnePairedWrite_ext _ _ t1); [|exact Hw].
      simpl. rewrite !artifactWrites_app, artifactWrites_statuses, Hev.
      apply app_nil_r.
  - do 3 eexists.
    split; [exact (Reconcile_assembly_failed _ r env c first rest err Hf He Ha)|].
    left. split; reflexivity.
Qed.

End Reconcile.

(** The entry of an app looks at its name and spec only. *)
Lemma entryOf_statusAfter env l l' :
  Forall2 (statusAfter env) l l' ->
  map assembler.entryOf l' = map assembler.entryOf l.
Proof.
  induction 1 as [|a a' l l' (Hm & Hs & _) _ IH]; simpl; [reflexivity|].
  rewrite IH. f_equal. unfold assembler.entryOf. now rewrite Hm, Hs.
Qed.

Lemma Assemble_statusAfter MarshalIndent env l l' :
  Forall2 (statusAfter env) l l' ->
  assembler.Assemble MarshalIndent l' = assembler.Assemble MarshalIndent l.
Proof.
  intros H. unfold assembler.Assemble. now rewrite (entryOf_statusAfter env l l' H).
Qed.

Section Publish.
Variable MarshalIndent : list assembler.AppEntry -> string + error.

(** A pass over a store whose calls all succeed: it makes the due
    write and no other, and leaves the artifact with the hash of the
    document. *)
Lemma Reconcile_publishes r env c first rest result :
  storeReliable env -> artifactNamed r c ->
  apps c = first :: rest ->
  assembler.Assemble MarshalIndent (apps c) = inl result ->
  exists out c1 t,
    Reconcile MarshalIndent r env c = (out, c1, t)
    /\ artifactWrites t = dueWrite r c (assembler.AppsJSON result)
    /\ (exists cm,
          configMaps c1 !! artifactKey r = Some cm
          /\ storedHash cm = computeHash (assembler.AppsJSON result)
          /\ keyOf (corev1.ObjectMeta cm) = artifactKey r)
    /\ Forall2 (statusAfter env) (apps c) (apps c1).
Proof.
  intros (Hl & Hg & Hc & Hu) Hnamed He Ha.
  set (body := assembler.AppsJSON result).
  set (hash := computeHash body).
  assert (Hstep : exists c1 t1 cm,
             updateAppsConfig r result env c = (None, c1, t1)
             /\ artifactWrites t1 = dueWrite r c body
             /\ configMaps c1 !! artifactKey r = Some cm
             /\ storedHash cm = hash
             /\ keyOf (corev1.ObjectMeta cm) = artifactKey r).
  { unfold dueWrite. fold hash.
    destruct (configMaps c !! artifactKey r) as [existing|] eqn:Hlook.
    - pose proof (Hnamed existing Hlook) as Hkey.
      destruct (String.eqb_spec (storedHash existing) hash) as [Heq|Hne].
      + exists c, [CallGet (artifactKey r)], existing.
        split; [exact (updateAppsConfig_unchanged r result env c existing
                         Hg Hlook Heq)|].
        repeat split; assumption.
      + do 2 eexists. exists (overwrite existing hash body).
        split; [exact (updateAppsConfig_stale r result env c existing
                         Hg Hlook Hkey Hne Hu)|].
        split; [reflexivity|].
        split; [simpl; apply lookup_insert_eq|].
        split; [apply storedHash_overwrite|].
        rewrite key_overwrite. exact Hkey.
    - do 2 eexists. exists (newConfigMap r hash body).
      split; [exact (updateAppsConfig_absent r result env c Hg Hlook Hc)|].
      split; [reflexivity|].
      split; [simpl; apply lookup_insert_eq|].
      split; [apply storedHash_newConfigMap | apply key_newConfigMap]. }
  destruct Hstep as (c1 & t1 & cm & Hrun1 & Hw & Hlook1 & Hhash & Hkey).
  destruct (Reconcile_synced MarshalIndent r env c first rest result c1 t1
              Hl He Ha Hrun1) as (c2 & ev & Hrun & Hev & _ & Hcm & Hall).
  do 3 eexists. split; [exact Hrun|].
  split.
  { simpl. rewrite !artifactWrites_app, artifactWrites_statuses, Hev, Hw.
    rewrite app_nil_r. reflexivity. }
  split; [|exact Hall].
  exists cm. rewrite Hcm. repeat split; assumption.
Qed.

End Publish.

End write_facts.

(** ** The claims on the pass *)
Module pass_claims.

Import operrors client controllers pass_properties.
Import client_facts status_facts pass_facts trace_facts write_facts.

(** C6.  When the list of apps comes back empty the pass returns the
    empty result and no error, its only call is the list itself, so it
    writes neither artifact nor status, and the cluster, the stored
    artifact included, is as before. *)
Theorem empty_input_noop
    (MarshalIndent : list assembler.AppEntry -> string + error)
    (r : DashboardAppReconciler) (env : Env) (c : Cluster) :
  failList env = None ->
  apps c = [] ->
  exists t,
    Reconcile MarshalIndent r env c = ((ctrl.noRequeue, None), c, t)
    /\ t = [CallList]
    /\ artifactWrites t = []
    /\ statusWrites t = [].
Proof.
  intros Hf He. exists [CallList].
  split; [exact (Reconcile_empty MarshalIndent r env c Hf He)|].
  repeat split.
Qed.

Lemma empty_input_noop_witness :
  exists t,
    Reconcile json.MarshalIndent scenario.reconciler scenario.calm scenario.deserted
    = ((ctrl.noRequeue, None), scenario.deserted, t)
    /\ t = [CallList]
    /\ artifactWrites t = []
    /\ statusWrites t = [].
Proof.
  apply (empty_input_noop json.MarshalIndent scenario.reconciler scenario.calm
           scenario.deserted); reflexivity.
Defined.

(** The classifier holds every error of the client retryable: only the
    operator's own errors can be anything else. *)
Lemma clientError_retry (err : error) : clientError err -> ShouldRetry err = true.
Proof. destruct err; simpl; [contradiction | reflexivity | reflexivity]. Qed.

Lemma Create_clientError env c cm err c' t :
  clientErrors env ->
  Create cm env c = (Some err, c', t) -> clientError err.
Proof.
  intros (_ & Hc & _). unfold Create, bind, emit, ask, get, put, ret. simpl.
  destruct (failCreate env) as [e|] eqn:Hf.
  - intros [= <- _ _]. now apply Hc.
  - destruct (configMaps c !! keyOf (corev1.ObjectMeta cm));
      intros [= <-]; exact I.
Qed.

Lemma Update_clientError env c cm err c' t :
  clientErrors env ->
  Update cm env c = (Some err, c', t) -> clientError err.
Proof.
  intros (_ & _ & Hu). unfold Update, bind, emit, ask, get, put, ret. simpl.
  destruct (failUpdate env) as [e|] eqn:Hf.
  - intros [= <- _ _]. now apply Hu.
  - destruct (configMaps c !! keyOf (corev1.ObjectMeta cm));
      intros [= <-]; exact I.
Qed.

(** The error of the artifact step is the one of the get, the create or
    the update that failed: an error of the client. *)
Lemma updateAppsConfig_clientError r result env c err c1 t1 :
  clientErrors env ->
  updateAppsConfig r result env c = (Some err, c1, t1) -> clientError err.
Proof.
  intros Hce. pose proof Hce as (Hg & _ & _).
  unfold updateAppsConfig, bind.
  destruct (failGet env) as [e|] eqn:Hf.
  - rewrite (Get_failed env c _ e Hf).
    destruct (IsNotFound e).
    + destruct (Create _ env c) as [[failed c'] t] eqn:Hrun.
      intros [= -> <- <-]. exact (Create_clientError _ _ _ _ _ _ Hce Hrun).
    + intros [= <- _ _]. now apply Hg.
  - destruct (configMaps c !! artifactKey r) as [existing|] eqn:Hl.
    + rewrite (Get_found env c _ existing Hf Hl).
      destruct (String.eqb _ _); [intros [=]|].
      destruct (Update _ env c) as [[failed c'] t] eqn:Hrun.
      intros [= -> <- <-]. exact (Update_clientError _ _ _ _ _ _ Hce Hrun).
    + rewrite (Get_absent env c _ Hf Hl), IsNotFound_notFound.
      destruct (Create _ env c) as [[failed c'] t] eqn:Hrun.
      intros [= -> <- <-]. exact (Create_clientError _ _ _ _ _ _ Hce Hrun).
Qed.

(** C5.  A failure of the assembly or of the artifact step ends the pass
    before any status is sent and leaves the cluster as it was, and the
    outcome is the one the classifier prescribes for the error: a retry
    of the pass after thirty seconds and no error when the error is
    retryable, the error itself and no requeue when it is not.  The
    errors of the artifact step are those of the client's get, create and
    update, which the classifier holds retryable, so there the outcome is
    the retry. *)
Theorem early_failure_classified
    (MarshalIndent : list assembler.AppEntry -> string + error)
    (r : DashboardAppReconciler) (env : Env) (c : Cluster)
    (first : v1alpha1.DashboardApp) (rest : list v1alpha1.DashboardApp) :
  failList env = None ->
  apps c = first :: rest ->
  clientErrors env ->
  exists out c' t,
    Reconcile MarshalIndent r env c = (out, c', t)
    /\ (forall err,
          assembler.Assemble MarshalIndent (apps c) = inr err ->
          classified err out
          /\ c' = c /\ statusWrites t = [] /\ artifactWrites t = [])
    /\ (forall result err c1 t1,
          assembler.Assemble MarshalIndent (apps c) = inl result ->
          updateAppsConfig r result env c = (Some err, c1, t1) ->
          classified err out
          /\ ShouldRetry err = true
          /\ out = ({| ctrl.RequeueAfter := 30 * config.Second |}, None)
          /\ c' = c /\ statusWrites t = []).
Proof.
  intros Hf He Hce.
  destruct (assembler.Assemble MarshalIndent (apps c)) as [result|err] eqn:Ha.
  - destruct (updateAppsConfig r result env c) as [[failed c1] t1] eqn:Hu.
    destruct failed as [err|].
    + do 3 eexists.
      split; [exact (Reconcile_config_failed MarshalIndent r env c first rest
                       result err c1 t1 Hf He Ha Hu)|].
      split; [intros err' [=]|].
      intros result' err' c1' t1' [= <-] Hu'.
      rewrite Hu in Hu'. injection Hu' as <- <- <-.
      pose proof (clientError_retry _
                    (updateAppsConfig_clientError _ _ _ _ _ _ _ Hce Hu)) as Hretry.
      split; [unfold classified; rewrite Hretry; reflexivity|].
      split; [exact Hretry|].
      split; [reflexivity|].
      split; [exact (updateAppsConfig_failed _ _ _ _ _ _ _ Hu)|].
      simpl. rewrite statusWrites_app.
      rewrite (updateAppsConfig_statusWrites _ _ _ _ _ _ _ Hu). reflexivity.
    + destruct (Reconcile_synced MarshalIndent r env c first rest result c1 t1
                  Hf He Ha Hu) as (c2 & ev & Hrun & _).
      do 3 eexists. split; [exact Hrun|].
      split; [intros err' [=]|].
      intros result' err' c1' t1' [= <-] Hu'.
      rewrite Hu in Hu'. discriminate.
  - do 3 eexists.
    split; [exact (Reconcile_assembly_failed MarshalIndent r env c first rest err
                     Hf He Ha)|].
    split; [|intros result' err' c1' t1' [=]].
    intros err' [= <-]. unfold classified.
    destruct (ShouldRetry err); repeat split.
Qed.

Lemma early_failure_classified_witness :
  (exists out c' t,
     Reconcile scenario.brokenMarshal scenario.reconciler scenario.calm scenario.fresh
     = (out, c', t)
     /\ classified (errorString "json: unsupported value") out
     /\ c' = scenario.fresh /\ statusWrites t = [] /\ artifactWrites t = [])
  /\ (exists out c' t,
        Reconcile json.MarshalIndent scenario.reconciler scenario.getForbidden
          scenario.fresh = (out, c', t)
        /\ classified scenario.forbidden out
        /\ ShouldRetry scenario.forbidden = true
        /\ out = ({| ctrl.RequeueAfter := 30 * config.Second |}, None)
        /\ c' = scenario.fresh /\ statusWrites t = []).
Proof.
  split.
  - destruct (early_failure_classified scenario.brokenMarshal scenario.reconciler
                scenario.calm scenario.fresh assembler_test.plex
                [assembler_test.gitea; assembler_test.openwebui] eq_refl eq_refl)
      as (out & c' & t & Hrun & Hasm & _).
    { repeat split; intros err; discriminate. }
    exists out, c', t. split; [exact Hrun|].
    apply Hasm. reflexivity.
  - destruct (early_failure_classified json.MarshalIndent scenario.reconciler
                scenario.getForbidden scenario.fresh assembler_test.plex
                [assembler_test.gitea; assembler_test.openwebui] eq_refl eq_refl)
      as (out & c' & t & Hrun & _ & Hart).
    { repeat split; intros err; [intros [= <-]; exact I | discriminate | discriminate]. }
    exists out, c', t. split; [exact Hrun|].
    apply (Hart scenario.assembled scenario.forbidden scenario.fresh
             [CallGet (artifactKey scenario.reconciler)]).
    + reflexivity.
    + vm_compute. reflexivity.
Defined.

(** C4.  In a pass whose artifact step reported no error, one status
    update is sent for every app of the list, in order, whichever of
    them fail; every stored app keeps its name and spec, and is ready
    and synced at the time of the pass unless its own update failed, in
    which case its status is as before; the ConfigMaps are as the
    artifact step left them; and the pass returns no error, with a
    requeue after ten seconds when some update failed and none when all
    went through. *)
Theorem partial_failure_isolation
    (MarshalIndent : list assembler.AppEntry -> string + error)
    (r : DashboardAppReconciler) (env : Env) (c : Cluster)
    (first : v1alpha1.DashboardApp) (rest : list v1alpha1.DashboardApp)
    (result : assembler.AssemblyResult) (c1 : Cluster) (t1 : list Effect) :
  failList env = None ->
  apps c = first :: rest ->
  assembler.Assemble MarshalIndent (apps c) = inl result ->
  updateAppsConfig r result env c = (None, c1, t1) ->
  exists out c2 t,
    Reconcile MarshalIndent r env c = (out, c2, t)
    /\ statusWrites t
       = map (fun a => CallStatusUpdate (markReady (now env) a)) (apps c)
    /\ Forall2 (statusAfter env) (apps c) (apps c2)
    /\ configMaps c2 = configMaps c1
    /\ out = (if existsb (statusFails env) (apps c)
              then ({| ctrl.RequeueAfter := 10 * config.Second |}, None)
              else (ctrl.noRequeue, None)).
Proof.
  intros Hf He Ha Hu.
  destruct (Reconcile_synced MarshalIndent r env c first rest result c1 t1
              Hf He Ha Hu) as (c2 & ev & Hrun & _ & Hev & Hcm & Hall).
  do 3 eexists. split; [exact Hrun|].
  split; [|split; [exact Hall|split; [exact Hcm|reflexivity]]].
  simpl. rewrite !statusWrites_app, Hev, app_nil_r.
  rewrite (updateAppsConfig_statusWrites _ _ _ _ _ _ _ Hu).
  apply statusWrites_statuses.
Qed.

Lemma partial_failure_isolation_witness :
  exists c1 out c2 t,
    Reconcile json.MarshalIndent scenario.reconciler scenario.giteaConflict
      scenario.fresh = (out, c2, t)
    /\ statusWrites t
       = map (fun a => CallStatusUpdate (markReady (now scenario.giteaConflict) a))
           (apps scenario.fresh)
    /\ Forall2 (statusAfter scenario.giteaConflict) (apps scenario.fresh) (apps c2)
    /\ configMaps c2 = configMaps c1
    /\ out = ({| ctrl.RequeueAfter := 10 * config.Second |}, None).
Proof.
  eexists.
  eapply (partial_failure_isolation json.MarshalIndent scenario.reconciler
            scenario.giteaConflict scenario.fresh assembler_test.plex
            [assembler_test.gitea; assembler_test.openwebui]).
  - reflexivity.
  - reflexivity.
  - reflexivity.
  - vm_compute. reflexivity.
Defined.

(** C8.  A pass makes at most one artifact write, a create or an
    update; the object it sends carries the document as the one data key
    and, in the same object, the hash annotation equal to the SHA-256
    digest of that document in lower-case hexadecimal; and every
    ConfigMap of the cluster after the pass is either as it was before or
    is such an object, so that what the pass leaves stored has matching
    body and hash.  The digest is the standard's: sixty-four characters,
    and on the standard's three test messages the published values. *)
Theorem hash_body_paired
    (MarshalIndent : list assembler.AppEntry -> string + error)
    (r : DashboardAppReconciler) (env : Env) (c : Cluster) :
  exists out c' t,
    Reconcile MarshalIndent r env c = (out, c', t)
    /\ (length (artifactWrites t) <= 1)%nat
    /\ (forall cm, In (CallCreate cm) t \/ In (CallUpdate cm) t -> paired cm)
    /\ (forall key cm,
          configMaps c' !! key = Some cm ->
          configMaps c !! key = Some cm \/ paired cm)
    /\ (forall body, String.length (sha256Hex body) = 64%nat)
    /\ sha256Hex "abc"
       = "ba7816bf8f01cfea414140de5dae2223b00361a396177a9cb410ff61f20015ad"%string
    /\ sha256Hex EmptyString
       = "e3b0c44298fc1c149afbf4c8996fb92427ae41e4649b934ca495991b7852b855"%string
    /\ sha256Hex "abcdbcdecdefdefgefghfghighijhijkijkljklmklmnlmnomnopnopq"
       = "248d6a61d20638b8e5c026930c3e6039a33ce45964ff2167f6ecedd419db06c1"%string.
Proof.
  destruct (Reconcile_writes MarshalIndent r env c) as (out & c' & t & Hrun & Hw).
  exists out, c', t. split; [exact Hrun|].
  assert (Hdigest :
            (forall body, String.length (sha256Hex body) = 64%nat)
            /\ sha256Hex "abc"
               = "ba7816bf8f01cfea414140de5dae2223b00361a396177a9cb410ff61f20015ad"%string
            /\ sha256Hex EmptyString
               = "e3b0c44298fc1c149afbf4c8996fb92427ae41e4649b934ca495991b7852b855"%string
            /\ sha256Hex "abcdbcdecdefdefgefghfghighijhijkijkljklmklmnlmnomnopnopq"
               = "248d6a61d20638b8e5c026930c3e6039a33ce45964ff2167f6ecedd419db06c1"%string).
  { split; [intros body; rewrite <- computeHash_sha256Hex; apply computeHash_length|].
    repeat split; vm_compute; reflexivity. }
  destruct Hw as [[Hnone ->]|(cm0 & Hone & Hp & Hstore)].
  - split; [rewrite Hnone; simpl; lia|]. split; [|split; [|exact Hdigest]].
    + intros cm [Hin|Hin];
        (apply In_artifactWrites in Hin; [|reflexivity]);
        rewrite Hnone in Hin; destruct Hin.
    + intros key cm Hl. now left.
  - split; [destruct Hone as [-> | ->]; simpl; lia|].
    split; [|split; [|exact Hdigest]].
    + intros cm [Hin|Hin];
        (apply In_artifactWrites in Hin; [|reflexivity]);
        destruct Hone as [Hone|Hone]; rewrite Hone in Hin;
        destruct Hin as [Heq|[]]; try discriminate;
        injection Heq as <-; exact Hp.
    + intros key cm Hl.
      destruct Hstore as [Hs|Hs]; rewrite Hs in Hl; [now left|].
      destruct (decide (keyOf (corev1.ObjectMeta cm0) = key)) as [<-|Hne].
      * rewrite lookup_insert_eq in Hl. injection Hl as <-. now right.
      * rewrite lookup_insert_ne in Hl by exact Hne. now left.
Qed.

(** C10.  When the stored artifact is read and its hash differs from
    the fresh one, the object sent in the update has the name and
    namespace of the stored one; its data is the single key apps.json
    with the document, so no other key remains; its labels are those of
    the stored object except managed-by, which is duro-operator; its
    annotations are those of the stored object except config-hash, which
    is the fresh hash; and when the update goes through it is what the
    cluster holds under that name, else the cluster is as before. *)
Theorem update_frame
    (r : DashboardAppReconciler) (result : assembler.AssemblyResult)
    (env : Env) (c : Cluster) (existing : corev1.ConfigMap) :
  failGet env = None ->
  configMaps c !! artifactKey r = Some existing ->
  storedHash existing <> computeHash (assembler.AppsJSON result) ->
  exists failed c' updated,
    updateAppsConfig r result env c
    = (failed, c', [CallGet (artifactKey r); CallUpdate updated])
    /\ keyOf (corev1.ObjectMeta updated) = keyOf (corev1.ObjectMeta existing)
    /\ corev1.Data updated = Some {[ appsKey := assembler.AppsJSON result ]}
    /\ (forall k, k <> appsKey -> lookupIn (corev1.Data updated) k = None)
    /\ (forall k, k <> managedByLabel ->
          lookupIn (metav1.Labels (corev1.ObjectMeta updated)) k
          = lookupIn (metav1.Labels (corev1.ObjectMeta existing)) k)
    /\ lookupIn (metav1.Labels (corev1.ObjectMeta updated)) managedByLabel
       = Some "duro-operator"%string
    /\ (forall k, k <> configHashAnnotation ->
          lookupIn (metav1.Annotations (corev1.ObjectMeta updated)) k
          = lookupIn (metav1.Annotations (corev1.ObjectMeta existing)) k)
    /\ lookupIn (metav1.Annotations (corev1.ObjectMeta updated)) configHashAnnotation
       = Some (computeHash (assembler.AppsJSON result))
    /\ ((failed = None
         /\ c' = {| apps := apps c;
                    configMaps := <[keyOf (corev1.ObjectMeta existing) := updated]>
                                    (configMaps c) |})
        \/ (failed <> None /\ c' = c)).
Proof.
  intros Hg Hl Hne.
  set (hash := computeHash (assembler.AppsJSON result)).
  set (body := assembler.AppsJSON result).
  destruct (Update_cases env c (overwrite existing hash body))
    as (failed & c' & Hrun & Hcase).
  exists failed, c', (overwrite existing hash body).
  split.
  { unfold updateAppsConfig, bind. rewrite (Get_found env c _ existing Hg Hl).
    fold (storedHash existing). fold hash body.
    apply String.eqb_neq in Hne. fold hash in Hne. rewrite Hne, Hrun.
    reflexivity. }
  split; [reflexivity|]. split; [reflexivity|].
  split; [intros k Hk; simpl; now apply lookup_singleton_ne|].
  split.
  { intros k Hk. unfold overwrite, assign. simpl.
    destruct (metav1.Labels (corev1.ObjectMeta existing)); simpl;
      rewrite lookup_insert_ne by congruence; [reflexivity | apply lookup_empty]. }
  split.
  { unfold overwrite, assign. simpl.
    destruct (metav1.Labels (corev1.ObjectMeta existing)); simpl;
      apply lookup_insert_eq. }
  split.
  { intros k Hk. unfold overwrite, assign. simpl.
    destruct (metav1.Annotations (corev1.ObjectMeta existing)); simpl;
      rewrite lookup_insert_ne by congruence; [reflexivity | apply lookup_empty]. }
  split.
  { unfold overwrite, assign. simpl.
    destruct (metav1.Annotations (corev1.ObjectMeta existing)); simpl;
      apply lookup_insert_eq. }
  destruct Hcase as [(-> & _ & _ & ->)|(Hfail & ->)].
  - left. split; reflexivity.
  - right. split; [exact Hfail | reflexivity].
Qed.

Lemma update_frame_witness :
  exists failed c' updated,
    updateAppsConfig scenario.reconciler scenario.assembled scenario.calm scenario.stale
    = (failed, c', [CallGet (artifactKey scenario.reconciler); CallUpdate updated])
    /\ lookupIn (corev1.Data updated) "legacy.json" = None
    /\ lookupIn (metav1.Labels (corev1.ObjectMeta updated)) "team"
       = Some "homelab"%string
    /\ lookupIn (metav1.Annotations (corev1.ObjectMeta updated)) "note"
       = Some "keep"%string
    /\ lookupIn (metav1.Annotations (corev1.ObjectMeta updated)) configHashAnnotation
       = Some (computeHash (assembler.AppsJSON scenario.assembled)).
Proof.
  destruct (update_frame scenario.reconciler scenario.assembled scenario.calm
              scenario.stale scenario.staleArtifact)
    as (failed & c' & updated & Hrun & _ & _ & Hdata & Hlab & _ & Hann & Hhash & _).
  - reflexivity.
  - vm_compute. reflexivity.
  - vm_compute. discriminate.
  - exists failed, c', updated.
    split; [exact Hrun|].
    split; [apply Hdata; discriminate|].
    split; [rewrite Hlab by discriminate; vm_compute; reflexivity|].
    split; [rewrite Hann by discriminate; vm_compute; reflexivity|].
    exact Hhash.
Defined.

End pass_claims.

(** * Further properties of the code *)

(** ** Strings *)
Module string_facts.

Lemma append_assoc (a b c : string) :
  ((a ++ b) ++ c = a ++ (b ++ c))%string.
Proof.
  induction a as [|x a IH]; [reflexivity|].
  change (String x ((a ++ b) ++ c) = String x (a ++ (b ++ c)))%string.
  f_equal. exact IH.
Qed.

Lemma append_nil_r (a : string) : (a ++ EmptyString)%string = a.
Proof.
  induction a as [|x a IH]; [reflexivity|].
  change (String x (a ++ EmptyString) = String x a)%string.
  f_equal. exact IH.
Qed.

Lemma length_append (a b : string) :
  String.length (a ++ b) = (String.length a + String.length b)%nat.
Proof.
  induction a as [|x a IH]; [reflexivity|].
  change (S (String.length (a ++ b)) = S (String.length a + String.length b)).
  f_equal. exact IH.
Qed.

End string_facts.

(** ** pkg/errors *)
Module operrors_facts.

Import operrors operrors_more.

(** X1.  [ShouldRetry] refuses exactly the errors whose own dynamic type
    is [OperatorError] with a type other than transient; it never looks
    at the cause, so what a refused error wraps plays no part, and every
    error of another type is retried. *)
Theorem ShouldRetry_refuses (err : error) :
  ShouldRetry err = false
  <-> exists t message cause,
        err = OperatorError t message cause /\ t <> ErrorTypeTransient.
Proof.
  split.
  - destruct err as [t m c| |]; simpl; try discriminate.
    intros H. exists t, m, c. split; [reflexivity|].
    intros ->. discriminate.
  - intros (t & m & c & -> & Ht). destruct t; simpl; congruence.
Qed.

(** X2.  The text of an error is the messages of its wrappers, from
    the outermost in, each followed by a colon and a space, and then the
    message of the root of its cause chain: wrapping puts exactly these
    in front and loses nothing of the original text.  The root has no
    cause and no wrapper. *)
Theorem Error_keeps_root (err : error) :
  Error err = prefixed (wrapperMessages err) (ownMessage (rootCause err))
  /\ Error (rootCause err) = ownMessage (rootCause err)
  /\ Unwrap (rootCause err) = None
  /\ wrapperMessages (rootCause err) = []
  /\ (forall t m cause,
        Error (OperatorError t m (Some cause)) = (m ++ ": " ++ Error cause)%string
        /\ rootCause (OperatorError t m (Some cause)) = rootCause cause).
Proof.
  split; [|split; [|split; [|split]]].
  - revert err. fix IH 1. intros [t m [c|]| |]; simpl; try reflexivity.
    now rewrite (IH c).
  - revert err. fix IH 1. intros [t m [c|]| |]; simpl; try reflexivity.
    apply IH.
  - revert err. fix IH 1. intros [t m [c|]| |]; simpl; try reflexivity.
    apply IH.
  - revert err. fix IH 1. intros [t m [c|]| |]; simpl; try reflexivity.
    apply IH.
  - intros t m cause. split; reflexivity.
Qed.

Section WithContext.
Variable V : Type.

(** X4.  [WithContext] on a new error makes the bag; the key then reads
    the value, every other key reads as before, a second write to the key
    overwrites the first, and type, message, cause and so the text of the
    error are untouched. *)
Theorem WithContext_bag (e : OperatorErrorT V) (key : string) (value : V) :
  contextAt V (WithContext V e key value) key = Some value
  /\ (forall other, other <> key ->
        contextAt V (WithContext V e key value) other = contextAt V e other)
  /\ (forall value',
        WithContext V (WithContext V e key value) key value'
        = WithContext V e key value')
  /\ asError V (WithContext V e key value) = asError V e
  /\ Error (asError V (WithContext V e key value)) = Error (asError V e).
Proof.
  unfold contextAt, WithContext, asError. simpl.
  split; [apply lookup_insert_eq|].
  split.
  { intros other Hne. rewrite lookup_insert_ne by congruence.
    destruct (Context V e); [reflexivity | apply lookup_empty]. }
  split; [intros value'; now rewrite insert_insert_eq|].
  split; reflexivity.
Qed.

End WithContext.

End operrors_facts.

(** ** pkg/config and main.go *)
Module config_facts.

Import operrors config.

(** X5.  [Validate] accepts a configuration exactly when it allows at
    least one concurrent reconcile, its timeout is at least a second and
    its namespace is not empty; otherwise it reports the first of these
    that fails, in this order. *)
Theorem Validate_verdict (c : OperatorConfig) :
  (Validate c = None
   <-> 1 <= MaxConcurrentReconciles c
       /\ Second <= ReconcileTimeout c
       /\ DuroNamespace c <> EmptyString)
  /\ (MaxConcurrentReconciles c < 1 ->
      Validate c = Some (errorString "maxConcurrentReconciles must be at least 1"))
  /\ (1 <= MaxConcurrentReconciles c -> ReconcileTimeout c < Second ->
      Validate c = Some (errorString "reconcileTimeout must be at least 1 second"))
  /\ (1 <= MaxConcurrentReconciles c -> Second <= ReconcileTimeout c ->
      DuroNamespace c = EmptyString ->
      Validate c = Some (errorString "duroNamespace is required")).
Proof.
  unfold Validate.
  destruct (Z.ltb_spec (MaxConcurrentReconciles c) 1) as [Hm|Hm];
    [|destruct (Z.ltb_spec (ReconcileTimeout c) Second) as [Ht|Ht];
      [|destruct (String.eqb_spec (DuroNamespace c) EmptyString) as [Hn|Hn]]].
  - split; [split; [discriminate | lia]|].
    split; [reflexivity|]. split; intros; lia.
  - split; [split; [discriminate | lia]|].
    split; [lia|]. split; [reflexivity | intros; lia].
  - split; [split; [discriminate | tauto]|].
    split; [lia|]. split; [lia | reflexivity].
  - split; [split; [intros _; repeat split; assumption | reflexivity]|].
    split; [lia|]. split; [lia | intros; contradiction].
Qed.

(** X6.  An error of [Validate] is a plain error, not an
    [OperatorError] of the configuration type: the classifier of
    pkg/errors would hold it retryable. *)
Theorem Validate_error_unclassified (c : OperatorConfig) (err : error) :
  Validate c = Some err ->
  ShouldRetry err = true /\ exists message, err = errorString message.
Proof.
  unfold Validate.
  destruct (MaxConcurrentReconciles c <? 1);
    [|destruct (ReconcileTimeout c <? Second);
      [|destruct (String.eqb (DuroNamespace c) EmptyString)]];
    intros [= <-]; (split; [reflexivity | eexists; reflexivity]).
Qed.

Lemma Validate_error_unclassified_witness :
  ShouldRetry (errorString "duroNamespace is required") = true
  /\ exists message, errorString "duroNamespace is required" = errorString message.
Proof.
  apply (Validate_error_unclassified
           {| MetricsAddr := ":8080"; ProbeAddr := ":8081";
              EnableLeaderElection := false; LeaderElectionID := "duro-operator";
              MaxConcurrentReconciles := 3; ReconcileTimeout := 5 * Minute;
              DuroNamespace := EmptyString; DuroConfigMapName := "duro-apps" |}).
  reflexivity.
Defined.

(** X7.  [main] goes past the validation exactly when the flags allow at
    least one concurrent reconcile, a timeout of at least a second and a
    namespace that is not empty, and then builds the reconciler around a
    configuration that is valid; with every flag at its default that
    configuration is the one of [NewDefaultConfig]. *)
Theorem startup_proceeds (f : main.Flags) :
  ((exists r, main.startup f = main.Proceed r)
   <-> 1 <= main.maxConcurrentReconciles f
       /\ Second <= main.reconcileTimeout f
       /\ main.duroNamespace f <> EmptyString)
  /\ (forall r, main.startup f = main.Proceed r ->
        controllers.Config r = main.cfg f /\ Validate (controllers.Config r) = None)
  /\ ((forall r, main.startup f <> main.Proceed r) -> main.startup f = main.Exit 1)
  /\ main.startup main.defaults
     = main.Proceed {| controllers.Config := NewDefaultConfig |}.
Proof.
  destruct (Validate_verdict (main.cfg f)) as (Hok & _).
  unfold main.startup.
  destruct (Validate (main.cfg f)) as [err|] eqn:Hv.
  - split.
    { split; [intros [r H]; discriminate|].
      intros H. apply Hok in H. discriminate. }
    split; [intros r H; discriminate|].
    split; reflexivity.
  - split.
    { split; [intros _; now apply Hok | intros _; eexists; reflexivity]. }
    split; [intros r [= <-]; split; [reflexivity | exact Hv]|].
    split; [intros H; exfalso; eapply H; reflexivity | reflexivity].
Qed.

End config_facts.

(** ** controllers: the branches the claims leave out *)
Module pass_more_facts.

Import operrors operrors_more client controllers pass_properties pass_more.
Import client_facts status_facts pass_facts trace_facts write_facts.

Lemma events_app t1 t2 : events (t1 ++ t2) = events t1 ++ events t2.
Proof. apply List.filter_app. Qed.

Lemma events_statuses (f : v1alpha1.DashboardApp -> v1alpha1.DashboardApp) l :
  events (map (fun a => CallStatusUpdate (f a)) l) = [].
Proof. induction l as [|a l IH]; simpl; [reflexivity | exact IH]. Qed.

Lemma updateAppsConfig_events r result env c failed c' t :
  updateAppsConfig r result env c = (failed, c', t) -> events t = [].
Proof.
  intros Hrun.
  destruct (updateAppsConfig_cases r result env c)
    as (failed' & c'' & t' & Hrun' & _ & Hcase).
  rewrite Hrun in Hrun'. injection Hrun' as _ _ <-.
  destruct Hcase as [[_ ->]|[[-> _]|(existing & _ & _ & -> & _)]]; reflexivity.
Qed.

Section Reconcile.
Variable MarshalIndent : list assembler.AppEntry -> string + error.

(** X8.  When the list fails the pass stops there: its only call is the
    list, the cluster is as before, and it returns no requeue and a
    transient [OperatorError] that wraps the error of the list, which the
    classifier holds retryable and whose message is the fixed text, a
    colon and the message of the cause. *)
Theorem list_failure_is_transient
    (r : DashboardAppReconciler) (env : Env) (c : Cluster) (err : error) :
  failList env = Some err ->
  exists failure,
    Reconcile MarshalIndent r env c = ((ctrl.noRequeue, Some failure), c, [CallList])
    /\ failure = OperatorError ErrorTypeTransient "failed to list DashboardApps" (Some err)
    /\ ShouldRetry failure = true
    /\ Unwrap failure = Some err
    /\ Error failure = ("failed to list DashboardApps: " ++ Error err)%string
    /\ rootCause failure = rootCause err.
Proof.
  intros Hf. eexists.
  split; [exact (Reconcile_list_failed MarshalIndent r env c err Hf)|].
  repeat split.
Qed.

(** X16.  When reading the ConfigMap fails with an error that is not a
    NotFound, [updateAppsConfig] returns that very error without trying
    a create or an update, and the pass records one warning event with
    the reason ConfigUpdateFailed and the text of the error, sends no
    status and asks for a retry after thirty seconds. *)
Theorem get_failure_writes_nothing
    (r : DashboardAppReconciler) (env : Env) (c : Cluster)
    (first : v1alpha1.DashboardApp) (rest : list v1alpha1.DashboardApp)
    (result : assembler.AssemblyResult) (err : error) :
  failList env = None ->
  apps c = first :: rest ->
  assembler.Assemble MarshalIndent (apps c) = inl result ->
  failGet env = Some err ->
  IsNotFound err = false ->
  updateAppsConfig r result env c = (Some err, c, [CallGet (artifactKey r)])
  /\ Reconcile MarshalIndent r env c
     = (({| ctrl.RequeueAfter := 30 * config.Second |}, None), c,
        [CallList; CallGet (artifactKey r);
         RecordEvent (keyOf (v1alpha1.ObjectMeta first)) corev1.EventTypeWarning
           "ConfigUpdateFailed"
           ("Failed to update duro apps config: " ++ Error err)]).
Proof.
  intros Hl He Ha Hg Hnf.
  assert (Hu : updateAppsConfig r result env c
               = (Some err, c, [CallGet (artifactKey r)])).
  { unfold updateAppsConfig, bind. rewrite (Get_failed env c _ err Hg), Hnf.
    reflexivity. }
  split; [exact Hu|].
  exact (Reconcile_config_failed MarshalIndent r env c first rest result err
           c _ Hl He Ha Hu).
Qed.

(** Every way a pass can end, with what it leaves of the cluster and of
    the events. *)
Lemma Reconcile_outcomes r env c :
  exists out c' t,
    Reconcile MarshalIndent r env c = (out, c', t)
    /\ ((c' = c /\ events t = [] /\ statusWrites t = []
         /\ (failList env <> None \/ (apps c = [] /\ out = (ctrl.noRequeue, None))))
        \/ (exists first rest,
              apps c = first :: rest /\ failList env = None
              /\ ((exists err,
                     assembler.Assemble MarshalIndent (apps c) = inr err
                     /\ c' = c /\ statusWrites t = []
                     /\ events t
                        = [RecordEvent (keyOf (v1alpha1.ObjectMeta first))
                             corev1.EventTypeWarning "AssemblyFailed" (Error err)]
                     /\ out <> (ctrl.noRequeue, None))
                  \/ (exists result err t1,
                        assembler.Assemble MarshalIndent (apps c) = inl result
                        /\ updateAppsConfig r result env c = (Some err, c, t1)
                        /\ c' = c /\ statusWrites t = []
                        /\ events t
                           = [RecordEvent (keyOf (v1alpha1.ObjectMeta first))
                                corev1.EventTypeWarning "ConfigUpdateFailed"
                                ("Failed to update duro apps config: " ++ Error err)]
                        /\ out <> (ctrl.noRequeue, None))
                  \/ (exists result c1 t1,
                        assembler.Assemble MarshalIndent (apps c) = inl result
                        /\ updateAppsConfig r result env c = (None, c1, t1)
                        /\ configMaps c' = configMaps c1
                        /\ Forall2 (statusAfter env) (apps c) (apps c')
                        /\ statusWrites t
                           = map (fun a => CallStatusUpdate (markReady (now env) a))
                               (apps c)
                        /\ ((existsb (statusFails env) (apps c) = true
                             /\ events t = []
                             /\ out = ({| ctrl.RequeueAfter := 10 * config.Second |},
                                       None))
                            \/ (existsb (statusFails env) (apps c) = false
                                /\ events t
                                   = [RecordEvent (keyOf (v1alpha1.ObjectMeta first))
                                        corev1.EventTypeNormal "Synced"
                                        (syncedMessage (length (apps c)))]
                                /\ out = (ctrl.noRequeue, None))))))).
Proof.
  destruct (failList env) as [err|] eqn:Hf.
  { do 3 eexists. split; [exact (Reconcile_list_failed _ r env c err Hf)|].
    left. repeat split. left. discriminate. }
  assert (Hshape : apps c = [] \/ exists first rest, apps c = first :: rest).
  { destruct (apps c) as [|first rest]; [left; reflexivity | right; eauto]. }
  destruct Hshape as [He|(first & rest & He)].
  { do 3 eexists. split; [exact (Reconcile_empty _ r env c Hf He)|].
    left. repeat split. right. split; [exact He | reflexivity]. }
  destruct (assembler.Assemble MarshalIndent (apps c)) as [result|err] eqn:Ha.
  - destruct (updateAppsConfig r result env c) as [[failed c1] t1] eqn:Hu.
    destruct failed as [err|].
    + pose proof (updateAppsConfig_failed _ _ _ _ _ _ _ Hu) as ->.
      do 3 eexists.
      split; [exact (Reconcile_config_failed _ r env c first rest result err
                       c t1 Hf He Ha Hu)|].
      right. exists first, rest. split; [exact He|]. split; [reflexivity|].
      right; left. exists result, err, t1.
      split; [reflexivity|]. split; [exact Hu|].
      split; [reflexivity|].
      split.
      { simpl. rewrite statusWrites_app.
        rewrite (updateAppsConfig_statusWrites _ _ _ _ _ _ _ Hu). reflexivity. }
      split; [|discriminate].
      change (events (CallList :: ?x)) with (events x).
      rewrite events_app, (updateAppsConfig_events _ _ _ _ _ _ _ Hu). reflexivity.
    + destruct (updateStatuses_spec env (apps c) c1)
        as (errs & c2 & Hs & _).
      pose proof (Reconcile_statuses MarshalIndent r env c first rest result c1 t1
                    errs c2 _ Hf He Ha Hu Hs) as Hrun.
      destruct (Reconcile_synced MarshalIndent r env c first rest result c1 t1
                  Hf He Ha Hu) as (c2' & ev & Hrun' & _ & Hev & Hcm & Hall).
      rewrite Hrun in Hrun'. injection Hrun' as Hout <- Htr.
      apply app_inv_head in Htr. apply app_inv_head in Htr.
      do 3 eexists. split; [exact Hrun|].
      right. exists first, rest.
      split; [exact He|]. split; [reflexivity|].
      right; right. exists result, c1, t1.
      split; [reflexivity|]. split; [exact Hu|].
      split; [exact Hcm|]. split; [exact Hall|].
      split.
      { simpl. rewrite !statusWrites_app.
        rewrite (updateAppsConfig_statusWrites _ _ _ _ _ _ _ Hu).
        rewrite Htr, Hev, app_nil_r. apply statusWrites_statuses. }
      change (events (CallList :: ?x)) with (events x).
      rewrite !events_app, (updateAppsConfig_events _ _ _ _ _ _ _ Hu),
        events_statuses. simpl.
      destruct (0 <? length errs)%nat;
        destruct (existsb (statusFails env) (apps c)); try discriminate Hout.
      * left. repeat split.
      * right. repeat split.
  - do 3 eexists.
    split; [exact (Reconcile_assembly_failed _ r env c first rest err Hf He Ha)|].
    right. exists first, rest. split; [exact He|]. split; [reflexivity|].
    left. exists err.
    split; [reflexivity|]. repeat split.
    destruct (ShouldRetry err); discriminate.
Qed.

Lemma In_events e t : isEvent e = true -> In e t -> In e (events t).
Proof. intros He Hin. apply List.filter_In. now split. Qed.

(** X9.  A pass records at most one event, and it is about the first app
    of the list.  A Synced event, of the normal type and with the number
    of apps in its message, is recorded exactly by the passes over a list
    that is not empty which return no requeue and no error; the other
    events are warnings with the reason AssemblyFailed or
    ConfigUpdateFailed, and a pass that records one sends no status. *)
Theorem one_event_per_pass
    (r : DashboardAppReconciler) (env : Env) (c : Cluster) :
  exists out c' t,
    Reconcile MarshalIndent r env c = (out, c', t)
    /\ (length (events t) <= 1)%nat
    /\ (forall object eventtype reason message,
          In (RecordEvent object eventtype reason message) t ->
          exists first rest,
            apps c = first :: rest
            /\ object = keyOf (v1alpha1.ObjectMeta first)
            /\ ((eventtype = corev1.EventTypeNormal
                 /\ reason = "Synced"%string
                 /\ message = syncedMessage (length (apps c))
                 /\ out = (ctrl.noRequeue, None))
                \/ (eventtype = corev1.EventTypeWarning
                    /\ (reason = "AssemblyFailed"%string
                        \/ reason = "ConfigUpdateFailed"%string)
                    /\ out <> (ctrl.noRequeue, None)
                    /\ statusWrites t = [])))
    /\ (out = (ctrl.noRequeue, None) -> apps c <> [] ->
        exists first rest,
          apps c = first :: rest
          /\ events t
             = [RecordEvent (keyOf (v1alpha1.ObjectMeta first))
                  corev1.EventTypeNormal "Synced" (syncedMessage (length (apps c)))]).
Proof.
  destruct (Reconcile_outcomes r env c) as (out & c' & t & Hrun & Hcase).
  exists out, c', t. split; [exact Hrun|].
  destruct Hcase as
    [(_ & Hev & _ & Hwhy)
    |(first & rest & He & Hf &
      [(err & _ & _ & Hst & Hev & Hout)
      |[(result & err & t1 & _ & _ & _ & Hst & Hev & Hout)
       |(result & c1 & t1 & _ & _ & _ & _ & _ &
         [(_ & Hev & Hout)|(_ & Hev & Hout)])]])].
  - split; [rewrite Hev; simpl; lia|]. split.
    + intros o ty rs msg Hin.
      apply In_events in Hin; [|reflexivity]. rewrite Hev in Hin. destruct Hin.
    + intros Hout Hne. destruct Hwhy as [Hl|[He _]]; [|contradiction].
      exfalso. destruct (failList env) as [err|] eqn:Hf; [|now apply Hl].
      rewrite (Reconcile_list_failed MarshalIndent r env c err Hf) in Hrun.
      injection Hrun as <- _ _. discriminate.
  - split; [rewrite Hev; simpl; lia|]. split.
    + intros o ty rs msg Hin.
      apply In_events in Hin; [|reflexivity]. rewrite Hev in Hin.
      destruct Hin as [[= <- <- <- <-]|[]].
      exists first, rest. split; [exact He|]. split; [reflexivity|].
      right. repeat split; try assumption. now left.
    + intros Hnone. contradiction.
  - split; [rewrite Hev; simpl; lia|]. split.
    + intros o ty rs msg Hin.
      apply In_events in Hin; [|reflexivity]. rewrite Hev in Hin.
      destruct Hin as [[= <- <- <- <-]|[]].
      exists first, rest. split; [exact He|]. split; [reflexivity|].
      right. repeat split; try assumption. now right.
    + intros Hnone. contradiction.
  - split; [rewrite Hev; simpl; lia|]. split.
    + intros o ty rs msg Hin.
      apply In_events in Hin; [|reflexivity]. rewrite Hev in Hin. destruct Hin.
    + rewrite Hout. discriminate.
  - split; [rewrite Hev; simpl; lia|]. split.
    + intros o ty rs msg Hin.
      apply In_events in Hin; [|reflexivity]. rewrite Hev in Hin.
      destruct Hin as [[= <- <- <- <-]|[]].
      exists first, rest. split; [exact He|]. split; [reflexivity|].
      left. repeat split. exact Hout.
    + intros _ _. exists first, rest. split; [exact He | exact Hev].
Qed.

Lemma Forall2_sameNameSpec_refl (l : list v1alpha1.DashboardApp) :
  Forall2 sameNameSpec l l.
Proof. induction l; constructor; [split; reflexivity | assumption]. Qed.

Lemma statusAfter_sameNameSpec env l l' :
  Forall2 (statusAfter env) l l' -> Forall2 sameNameSpec l l'.
Proof.
  induction 1 as [|a a' l l' (Hm & Hs & _) _ IH]; constructor;
    [split; assumption | exact IH].
Qed.

(** X10.  Whatever fails, a pass neither adds nor removes an app and
    changes no app's metadata or spec; when it sends no status it leaves
    the apps exactly as they were; and it removes no ConfigMap. *)
Theorem pass_keeps_objects
    (r : DashboardAppReconciler) (env : Env) (c : Cluster) :
  exists out c' t,
    Reconcile MarshalIndent r env c = (out, c', t)
    /\ Forall2 sameNameSpec (apps c) (apps c')
    /\ (statusWrites t = [] -> apps c' = apps c)
    /\ (forall key, is_Some (configMaps c !! key) -> is_Some (configMaps c' !! key)).
Proof.
  destruct (Reconcile_outcomes r env c) as (out & c' & t & Hrun & Hcase).
  exists out, c', t. split; [exact Hrun|].
  destruct Hcase as
    [(-> & _)
    |(first & rest & He & Hf &
      [(err & _ & -> & _)
      |[(result & err & t1 & _ & _ & -> & _)
       |(result & c1 & t1 & _ & Hu & Hcm & Hall & Hst & _)]])];
    try (split; [apply Forall2_sameNameSpec_refl|]; split; [reflexivity | tauto]).
  split; [exact (statusAfter_sameNameSpec env _ _ Hall)|].
  split.
  { rewrite Hst, He. discriminate. }
  intros key Hsome. rewrite Hcm.
  destruct (updateAppsConfig_cases r result env c)
    as (failed & c1' & t1' & Hrun' & _ & Hcase).
  rewrite Hu in Hrun'. injection Hrun' as <- <- <-.
  destruct Hcase as [[-> _]|[[_ Hw]|(existing & _ & _ & _ & Hw)]];
    [exact Hsome | |];
    (destruct Hw as [[_ ->]|[_ ->]]; [|exact Hsome]; simpl;
     rewrite lookup_insert; case_decide; [eauto | exact Hsome]).
Qed.

(** X11.  In a cluster that holds the artifact, if at all, under its own
    name, a pass leaves every ConfigMap of another name as it was. *)
Theorem pass_touches_artifact_only
    (r : DashboardAppReconciler) (env : Env) (c : Cluster) :
  artifactNamed r c ->
  exists out c' t,
    Reconcile MarshalIndent r env c = (out, c', t)
    /\ forall key, key <> artifactKey r ->
         configMaps c' !! key = configMaps c !! key.
Proof.
  intros Hnamed.
  destruct (Reconcile_outcomes r env c) as (out & c' & t & Hrun & Hcase).
  exists out, c', t. split; [exact Hrun|].
  intros key Hne.
  destruct Hcase as
    [(-> & _)
    |(first & rest & He & Hf &
      [(err & _ & -> & _)
      |[(result & err & t1 & _ & _ & -> & _)
       |(result & c1 & t1 & _ & Hu & Hcm & _)]])];
    try reflexivity.
  rewrite Hcm.
  destruct (updateAppsConfig_cases r result env c)
    as (failed & c1' & t1' & Hrun' & _ & Hcase).
  rewrite Hu in Hrun'. injection Hrun' as <- <- <-.
  destruct Hcase as [[-> _]|[[_ Hw]|(existing & Hl & _ & _ & Hw)]];
    [reflexivity | |];
    (destruct Hw as [[_ ->]|[_ ->]]; [|reflexivity]; simpl).
  - now rewrite lookup_insert_ne by congruence.
  - rewrite (Hnamed existing Hl). now rewrite lookup_insert_ne by congruence.
Qed.

End Reconcile.

Lemma pass_touches_artifact_only_witness :
  exists out c' t,
    Reconcile json.MarshalIndent scenario.reconciler scenario.calm scenario.stale
    = (out, c', t)
    /\ forall key, key <> artifactKey scenario.reconciler ->
         configMaps c' !! key = configMaps scenario.stale !! key.
Proof.
  apply (pass_touches_artifact_only json.MarshalIndent scenario.reconciler
           scenario.calm scenario.stale).
  intros cm Hl. vm_compute in Hl. injection Hl as <-. reflexivity.
Defined.

Lemma list_failure_is_transient_witness :
  exists failure,
    Reconcile json.MarshalIndent scenario.reconciler listDown scenario.fresh
    = ((ctrl.noRequeue, Some failure), scenario.fresh, [CallList])
    /\ failure = OperatorError ErrorTypeTransient "failed to list DashboardApps"
                   (Some unreachable)
    /\ ShouldRetry failure = true
    /\ Unwrap failure = Some unreachable
    /\ Error failure
       = ("failed to list DashboardApps: " ++ Error unreachable)%string
    /\ rootCause failure = rootCause unreachable.
Proof.
  apply (list_failure_is_transient json.MarshalIndent scenario.reconciler listDown
           scenario.fresh unreachable).
  reflexivity.
Defined.

Lemma get_failure_writes_nothing_witness :
  updateAppsConfig scenario.reconciler scenario.assembled getTimeout scenario.fresh
  = (Some (errorString "context deadline exceeded"), scenario.fresh,
     [CallGet (artifactKey scenario.reconciler)])
  /\ Reconcile json.MarshalIndent scenario.reconciler getTimeout scenario.fresh
     = (({| ctrl.RequeueAfter := 30 * config.Second |}, None), scenario.fresh,
        [CallList; CallGet (artifactKey scenario.reconciler);
         RecordEvent (keyOf (v1alpha1.ObjectMeta assembler_test.plex))
           corev1.EventTypeWarning "ConfigUpdateFailed"
           ("Failed to update duro apps config: "
            ++ Error (errorString "context deadline exceeded"))]).
Proof.
  apply (get_failure_writes_nothing json.MarshalIndent scenario.reconciler getTimeout
           scenario.fresh assembler_test.plex
           [assembler_test.gitea; assembler_test.openwebui] scenario.assembled
           (errorString "context deadline exceeded"));
    reflexivity.
Defined.

End pass_more_facts.

(** ** controllers: the hash and what the gate on it lets through *)
Module hash_facts.

Import operrors client controllers pass_properties pass_more.
Import client_facts status_facts pass_facts trace_facts write_facts.

Lemma digit_hex (n : Z) : isLowerHex (hex.digit n).
Proof.
  unfold hex.digit, isLowerHex.
  assert (Hget : forall (s : string) (i : nat) (c : ascii),
             String.get i s = Some c -> In c (list_ascii_of_string s)).
  { induction s as [|x s IH]; intros i c; simpl; [discriminate|].
    destruct i as [|i]; [intros [= ->]; now left | intros H; right; eauto]. }
  destruct (String.get (Z.to_nat n) hex.hextable) as [c|] eqn:Hc.
  - exact (Hget _ _ _ Hc).
  - simpl. tauto.
Qed.

Lemma EncodeToString_hex (src : list Z) :
  Forall isLowerHex (list_ascii_of_string (hex.EncodeToString src)).
Proof.
  induction src as [|v rest IH]; simpl; [constructor|].
  constructor; [apply digit_hex|]. constructor; [apply digit_hex | exact IH].
Qed.

Lemma computeHash_nonempty (s : string) : computeHash s <> EmptyString.
Proof.
  intros Heq. pose proof (computeHash_length s) as Hlen.
  rewrite Heq in Hlen. discriminate.
Qed.

(** X12.  The hash of any document is sixty-four lower-case hexadecimal
    digits; in particular it is never the empty string. *)
Theorem computeHash_hex (s : string) :
  String.length (computeHash s) = 64%nat
  /\ Forall isLowerHex (list_ascii_of_string (computeHash s))
  /\ computeHash s <> EmptyString.
Proof.
  split; [apply computeHash_length|].
  split; [apply EncodeToString_hex | apply computeHash_nonempty].
Qed.

(** X13.  A ConfigMap of the artifact's name that carries no hash
    annotation, be it that it has no annotations at all, is never taken
    for current: the operator sends an update that takes it over. *)
Theorem unannotated_is_stale
    (r : DashboardAppReconciler) (result : assembler.AssemblyResult)
    (env : Env) (c : Cluster) (existing : corev1.ConfigMap) :
  failGet env = None ->
  configMaps c !! artifactKey r = Some existing ->
  lookupIn (metav1.Annotations (corev1.ObjectMeta existing)) configHashAnnotation
  = None ->
  exists failed c',
    updateAppsConfig r result env c
    = (failed, c',
       [CallGet (artifactKey r);
        CallUpdate (overwrite existing (computeHash (assembler.AppsJSON result))
                      (assembler.AppsJSON result))]).
Proof.
  intros Hg Hl Hnone.
  assert (Hstored : storedHash existing = EmptyString).
  { unfold storedHash, entryOr. unfold lookupIn in Hnone.
    destruct (metav1.Annotations (corev1.ObjectMeta existing)); [|reflexivity].
    now rewrite Hnone. }
  destruct (updateAppsConfig_cases r result env c)
    as (failed & c' & t & Hrun & _ & Hcase).
  exists failed, c'. rewrite Hrun. f_equal.
  pose proof (computeHash_nonempty (assembler.AppsJSON result)) as Hne.
  unfold updateAppsConfig, bind in Hrun.
  rewrite (Get_found env c _ existing Hg Hl) in Hrun.
  fold (storedHash existing) in Hrun. rewrite Hstored in Hrun.
  destruct (String.eqb_spec EmptyString (computeHash (assembler.AppsJSON result)))
    as [Heq|_]; [symmetry in Heq; contradiction|].
  destruct (Update_cases env c
              (overwrite existing (computeHash (assembler.AppsJSON result))
                 (assembler.AppsJSON result))) as (f' & c'' & Hup & _).
  rewrite Hup in Hrun. injection Hrun as _ _ <-. reflexivity.
Qed.

Lemma unannotated_is_stale_witness :
  exists failed c',
    updateAppsConfig scenario.reconciler scenario.assembled scenario.calm foreign
    = (failed, c',
       [CallGet (artifactKey scenario.reconciler);
        CallUpdate (overwrite foreignArtifact
                      (computeHash (assembler.AppsJSON scenario.assembled))
                      (assembler.AppsJSON scenario.assembled))]).
Proof.
  apply (unannotated_is_stale scenario.reconciler scenario.assembled scenario.calm
           foreign foreignArtifact).
  - reflexivity.
  - vm_compute. reflexivity.
  - reflexivity.
Defined.

Section Reconcile.
Variable MarshalIndent : list assembler.AppEntry -> string + error.

(** X14.  The gate compares hashes and nothing else.  When the stored
    annotation equals the hash of the fresh document the pass writes no
    artifact and leaves every ConfigMap as it is, whatever the stored
    data is: a body that was changed under an unchanged annotation is
    not put right. *)
Theorem body_drift_not_repaired
    (r : DashboardAppReconciler) (env : Env) (c : Cluster)
    (first : v1alpha1.DashboardApp) (rest : list v1alpha1.DashboardApp)
    (result : assembler.AssemblyResult) (existing : corev1.ConfigMap) :
  failList env = None ->
  failGet env = None ->
  apps c = first :: rest ->
  assembler.Assemble MarshalIndent (apps c) = inl result ->
  configMaps c !! artifactKey r = Some existing ->
  storedHash existing = computeHash (assembler.AppsJSON result) ->
  exists out c' t,
    Reconcile MarshalIndent r env c = (out, c', t)
    /\ artifactWrites t = []
    /\ configMaps c' = configMaps c
    /\ configMaps c' !! artifactKey r = Some existing.
Proof.
  intros Hl Hg He Ha Hlook Hh.
  pose proof (updateAppsConfig_unchanged r result env c existing Hg Hlook Hh) as Hu.
  destruct (Reconcile_synced MarshalIndent r env c first rest result c _
              Hl He Ha Hu) as (c2 & ev & Hrun & Hev & _ & Hcm & _).
  do 3 eexists. split; [exact Hrun|].
  split.
  { simpl. rewrite !artifactWrites_app, artifactWrites_statuses, Hev. reflexivity. }
  split; [exact Hcm|]. rewrite Hcm. exact Hlook.
Qed.

End Reconcile.

Lemma body_drift_not_repaired_witness :
  corev1.Data tamperedArtifact
  <> Some {[ appsKey := assembler.AppsJSON scenario.assembled ]}
  /\ exists out c' t,
       Reconcile json.MarshalIndent scenario.reconciler scenario.calm tampered
       = (out, c', t)
       /\ artifactWrites t = []
       /\ configMaps c' = configMaps tampered
       /\ configMaps c' !! artifactKey scenario.reconciler = Some tamperedArtifact.
Proof.
  split.
  - intros H. apply (f_equal (fun d => lookupIn d appsKey)) in H.
    vm_compute in H. discriminate.
  - apply (body_drift_not_repaired json.MarshalIndent scenario.reconciler
             scenario.calm tampered assembler_test.plex
             [assembler_test.gitea; assembler_test.openwebui]
             scenario.assembled tamperedArtifact).
    + reflexivity.
    + reflexivity.
    + reflexivity.
    + reflexivity.
    + vm_compute. reflexivity.
    + vm_compute. reflexivity.
Defined.

(** A pass over a store whose calls all succeed: what it returns, what
    it writes and what it leaves. *)
Lemma Reconcile_reliable MarshalIndent r env c first rest result :
  storeReliable env -> artifactNamed r c ->
  apps c = first :: rest ->
  assembler.Assemble MarshalIndent (apps c) = inl result ->
  exists c' t,
    Reconcile MarshalIndent r env c
    = ((if existsb (statusFails env) (apps c)
        then ({| ctrl.RequeueAfter := 10 * config.Second |}, None)
        else (ctrl.noRequeue, None)), c', t)
    /\ artifactWrites t = dueWrite r c (assembler.AppsJSON result)
    /\ (exists cm,
          configMaps c' !! artifactKey r = Some cm
          /\ storedHash cm = computeHash (assembler.AppsJSON result)
          /\ keyOf (corev1.ObjectMeta cm) = artifactKey r)
    /\ Forall2 (statusAfter env) (apps c) (apps c').
Proof.
  intros (Hl & Hg & Hc & Hu) Hnamed He Ha.
  set (body := assembler.AppsJSON result).
  set (hash := computeHash body).
  assert (Hstep : exists c1 t1 cm,
             updateAppsConfig r result env c = (None, c1, t1)
             /\ artifactWrites t1 = dueWrite r c body
             /\ configMaps c1 !! artifactKey r = Some cm
             /\ storedHash cm = hash
             /\ keyOf (corev1.ObjectMeta cm) = artifactKey r).
  { unfold dueWrite. fold hash.
    destruct (configMaps c !! artifactKey r) as [existing|] eqn:Hlook.
    - pose proof (Hnamed existing Hlook) as Hkey.
      destruct (String.eqb_spec (storedHash existing) hash) as [Heq|Hne].
      + exists c, [CallGet (artifactKey r)], existing.
        split; [exact (updateAppsConfig_unchanged r result env c existing
                         Hg Hlook Heq)|].
        repeat split; assumption.
      + do 2 eexists. exists (overwrite existing hash body).
        split; [exact (updateAppsConfig_stale r result env c existing
                         Hg Hlook Hkey Hne Hu)|].
        split; [reflexivity|].
        split; [simpl; apply lookup_insert_eq|].
        split; [apply storedHash_overwrite|].
        rewrite key_overwrite. exact Hkey.
    - do 2 eexists. exists (newConfigMap r hash body).
      split; [exact (updateAppsConfig_absent r result env c Hg Hlook Hc)|].
      split; [reflexivity|].
      split; [simpl; apply lookup_insert_eq|].
      split; [apply storedHash_newConfigMap | apply key_newConfigMap]. }
  destruct Hstep as (c1 & t1 & cm & Hrun1 & Hw & Hlook1 & Hhash & Hkey).
  destruct (Reconcile_synced MarshalIndent r env c first rest result c1 t1
              Hl He Ha Hrun1) as (c2 & ev & Hrun & Hev & _ & Hcm & Hall).
  do 2 eexists. split; [exact Hrun|].
  split.
  { simpl. rewrite !artifactWrites_app, artifactWrites_statuses, Hev, Hw.
    rewrite app_nil_r. reflexivity. }
  split; [|exact Hall].
  exists cm. rewrite Hcm. repeat split; assumption.
Qed.

Lemma existsb_statusFails_reliable env l :
  statusReliable env -> existsb (statusFails env) l = false.
Proof.
  intros Hrel. induction l as [|a l IH]; simpl; [reflexivity|].
  rewrite IH. unfold statusFails. now rewrite Hrel.
Qed.

End hash_facts.

(** ** pkg/assembler: what the document depends on *)
Module assembler_more_facts.

Import assembler assembler_more assembler_facts.

(** Two sorted lists with the same elements are the same list, when the
    order tells the elements apart. *)
Lemma sorted_perm_unique {A} (R : A -> A -> Prop) (l : list A) :
  forall l',
    StronglySorted R l -> StronglySorted R l' -> Permutation l l' ->
    (forall a b, In a l -> In b l -> R a b -> R b a -> a = b) ->
    l = l'.
Proof.
  induction l as [|x l IH]; intros l' Hs Hs' Hp Hanti.
  - apply Permutation_nil in Hp. now subst.
  - destruct l' as [|y l'].
    { apply Permutation_sym, Permutation_nil in Hp. discriminate. }
    apply StronglySorted_inv in Hs as [Hs Hx].
    apply StronglySorted_inv in Hs' as [Hs' Hy].
    rewrite List.Forall_forall in Hx, Hy.
    assert (Hxy : x = y).
    { assert (Hyin : In y (x :: l)).
      { apply (Permutation_in _ (Permutation_sym Hp)). now left. }
      assert (Hxin : In x (y :: l')).
      { apply (Permutation_in _ Hp). now left. }
      destruct Hyin as [Heq|Hyin]; [exact Heq|].
      destruct Hxin as [Heq|Hxin]; [now symmetry|].
      apply Hanti; [now left | now right | now apply Hx | now apply Hy]. }
    subst y. f_equal.
    apply IH; try assumption.
    + now apply Permutation_cons_inv in Hp.
    + intros a b Ha Hb. apply Hanti; now right.
Qed.

(** X18.  When the comparison function tells the entries of the apps
    apart, the result of the assembler does not depend on the order in
    which the apps are listed: entries, document and error are the same
    for every arrangement of the input. *)
Theorem Assemble_order_independent
    (MarshalIndent : list AppEntry -> string + operrors.error)
    (apps apps' : list v1alpha1.DashboardApp) :
  Permutation apps apps' ->
  keysDistinct apps ->
  Assemble MarshalIndent apps' = Assemble MarshalIndent apps.
Proof.
  intros Hp Hd. unfold Assemble.
  assert (Heq : slices.SortFunc compareEntries (map entryOf apps')
                = slices.SortFunc compareEntries (map entryOf apps)).
  { symmetry.
    apply (sorted_perm_unique (slices.le compareEntries)).
    - apply slices_facts.SortFunc_sorted;
        [apply compareEntries_antisym | apply compareEntries_le_trans].
    - apply slices_facts.SortFunc_sorted;
        [apply compareEntries_antisym | apply compareEntries_le_trans].
    - rewrite <- !slices_facts.SortFunc_perm. now apply Permutation_map.
    - intros a b Ha Hb Hab Hba.
      apply (Permutation_in _ (Permutation_sym (slices_facts.SortFunc_perm _ _)))
        in Ha, Hb.
      apply in_map_iff in Ha as (a0 & <- & Ha), Hb as (b0 & <- & Hb).
      apply Hd; try assumption.
      unfold slices.le in Hab, Hba.
      rewrite compareEntries_antisym in Hba.
      destruct (compareEntries (entryOf a0) (entryOf b0));
        [reflexivity | exfalso; now apply Hba | exfalso; now apply Hab]. }
  now rewrite Heq.
Qed.

Lemma Assemble_order_independent_witness :
  Assemble json.MarshalIndent
    [assembler_test.openwebui; assembler_test.plex; assembler_test.gitea]
  = Assemble json.MarshalIndent assembler_test.apps.
Proof.
  apply (Assemble_order_independent json.MarshalIndent assembler_test.apps).
  - unfold assembler_test.apps.
    apply Permutation_sym.
    apply (perm_trans (l' := [assembler_test.plex; assembler_test.openwebui;
                              assembler_test.gitea])).
    + apply perm_swap.
    + apply perm_skip. apply perm_swap.
  - intros a b Ha Hb.
    simpl in Ha, Hb.
    destruct Ha as [<-|[<-|[<-|[]]]]; destruct Hb as [<-|[<-|[<-|[]]]];
      vm_compute; intros H; (reflexivity || discriminate H).
Defined.

(** X19.  Two apps whose entries the comparison function holds equal
    come out in the order they were listed in, whichever it is: with
    ties the document follows the order of the list. *)
Theorem ties_keep_list_order (a b : v1alpha1.DashboardApp) :
  compareEntries (entryOf a) (entryOf b) = Eq ->
  exists ab ba,
    Assemble json.MarshalIndent [a; b] = inl ab
    /\ Assemble json.MarshalIndent [b; a] = inl ba
    /\ Entries ab = [entryOf a; entryOf b]
    /\ Entries ba = [entryOf b; entryOf a].
Proof.
  intros Hab.
  assert (Hba : compareEntries (entryOf b) (entryOf a) = Eq).
  { rewrite compareEntries_antisym, Hab. reflexivity. }
  do 2 eexists. unfold Assemble, json.MarshalIndent.
  split; [reflexivity|]. split; [reflexivity|].
  unfold slices.SortFunc. simpl. rewrite Hab, Hba. split; reflexivity.
Qed.

Lemma ties_keep_list_order_witness :
  entryOf wikiA <> entryOf wikiB
  /\ exists ab ba,
       Assemble json.MarshalIndent [wikiA; wikiB] = inl ab
       /\ Assemble json.MarshalIndent [wikiB; wikiA] = inl ba
       /\ Entries ab = [entryOf wikiA; entryOf wikiB]
       /\ Entries ba = [entryOf wikiB; entryOf wikiA].
Proof.
  split; [discriminate|].
  apply (ties_keep_list_order wikiA wikiB). reflexivity.
Defined.

Lemma entryOf_sameEntry (a a' : v1alpha1.DashboardApp) :
  sameEntry a a' -> entryOf a' = entryOf a.
Proof. intros [Hn Hs]. unfold entryOf. now rewrite Hn, Hs. Qed.

(** X20.  The assembler reads the name and the spec of an app and nothing
    else of it: apps that agree on these give the same entries and the
    same result, whatever their namespaces, labels, annotations and
    statuses; so two apps of one name in two namespaces give two entries
    with one id. *)
Theorem Assemble_reads_name_and_spec
    (MarshalIndent : list AppEntry -> string + operrors.error)
    (apps apps' : list v1alpha1.DashboardApp) :
  Forall2 sameEntry apps apps' ->
  map entryOf apps' = map entryOf apps
  /\ Assemble MarshalIndent apps' = Assemble MarshalIndent apps.
Proof.
  intros H.
  assert (Heq : map entryOf apps' = map entryOf apps).
  { induction H as [|a a' l l' Ha _ IH]; simpl; [reflexivity|].
    now rewrite IH, (entryOf_sameEntry a a' Ha). }
  split; [exact Heq|]. unfold Assemble. now rewrite Heq.
Qed.

Lemma Assemble_reads_name_and_spec_witness :
  map entryOf [plexElsewhere] = map entryOf [assembler_test.plex]
  /\ Assemble json.MarshalIndent [plexElsewhere]
     = Assemble json.MarshalIndent [assembler_test.plex].
Proof.
  apply (Assemble_reads_name_and_spec json.MarshalIndent
           [assembler_test.plex] [plexElsewhere]).
  constructor; [split; reflexivity | constructor].
Defined.

End assembler_more_facts.

(** ** The helpers of the chart *)
Module helm_facts.

Import helm.

Lemma length_substring0 (n : nat) (s : string) :
  String.length (String.substring 0 n s) = Nat.min n (String.length s).
Proof.
  revert n. induction s as [|c s IH]; intros [|n]; simpl; try reflexivity.
  now rewrite IH.
Qed.

Lemma prefix_substring0 (n : nat) (s : string) :
  String.prefix (String.substring 0 n s) s = true.
Proof.
  revert n. induction s as [|c s IH]; intros [|n]; simpl; try reflexivity.
  destruct (ascii_dec c c); [apply IH | contradiction].
Qed.

Lemma prefix_split (a s : string) :
  String.prefix a s = true <-> exists b, s = (a ++ b)%string.
Proof.
  revert a. induction s as [|c s IH]; intros [|x a]; simpl.
  - split; [exists EmptyString; reflexivity | reflexivity].
  - split; [discriminate | intros [b H]; discriminate].
  - split; [eexists; reflexivity | reflexivity].
  - destruct (ascii_dec x c) as [->|Hne].
    + rewrite IH. split; intros [b H]; exists b.
      * now rewrite H.
      * now injection H.
    + split; [discriminate | intros [b [= H _]]; congruence].
Qed.

Lemma prefix_trans (a b c : string) :
  String.prefix a b = true -> String.prefix b c = true -> String.prefix a c = true.
Proof.
  rewrite !prefix_split. intros [x ->] [y ->].
  exists (x ++ y)%string. apply string_facts.append_assoc.
Qed.

Lemma prefix_refl (a : string) : String.prefix a a = true.
Proof.
  apply prefix_split. exists EmptyString. symmetry. apply string_facts.append_nil_r.
Qed.

Lemma prefix_trimSuffix (suffix s : string) :
  String.prefix (trimSuffix suffix s) s = true.
Proof.
  unfold trimSuffix. destruct (hasSuffix suffix s);
    [apply prefix_substring0 | apply prefix_refl].
Qed.

Lemma length_trimSuffix (suffix s : string) :
  (String.length s - String.length suffix <= String.length (trimSuffix suffix s)
   <= String.length s)%nat.
Proof.
  unfold trimSuffix. destruct (hasSuffix suffix s); [|lia].
  rewrite length_substring0. lia.
Qed.

(** What every helper that names an object does to its candidate. *)
Lemma cut_trim_trunc (candidate : string) :
  cut candidate (trimSuffix "-" (trunc 63 candidate)).
Proof.
  unfold cut, trunc.
  pose proof (length_trimSuffix "-" (String.substring 0 63 candidate)) as Hlen.
  rewrite length_substring0 in Hlen. simpl String.length in Hlen.
  split; [|lia].
  eapply prefix_trans; [apply prefix_trimSuffix | apply prefix_substring0].
Qed.

(** X21.  The names the helpers give are cut to fit: the chart name, the
    full name and the chart label are each a prefix of the string they
    are made from, at most sixty-three bytes long, and shorter than the
    first sixty-three bytes of that string by one byte at most (a single
    trailing dash). *)
Theorem names_are_cut (s : Scope) :
  cut (default (chartName (chart_ s)) (nameOverride (values s))) (name s)
  /\ (exists candidate,
        cut candidate (fullname s)
        /\ In candidate
             [ fullnameOverride (values s);
               releaseName (release s);
               dashed (releaseName (release s))
                 (default (chartName (chart_ s)) (nameOverride (values s))) ])
  /\ cut (replace "+" "_" (dashed (chartName (chart_ s)) (chartVersion (chart_ s))))
       (chart s)
  /\ Forall (fun kv => fst kv = "app.kubernetes.io/name"%string ->
                       (String.length (snd kv) <= 63)%nat) (selectorLabels s).
Proof.
  split; [apply cut_trim_trunc|].
  split.
  { unfold fullname.
    destruct (negb (String.eqb (fullnameOverride (values s)) EmptyString)).
    - eexists. split; [apply cut_trim_trunc | now left].
    - cbv zeta.
      destruct (contains _ (releaseName (release s))).
      + eexists. split; [apply cut_trim_trunc | right; now left].
      + eexists. split; [apply cut_trim_trunc | right; right; now left]. }
  split; [apply cut_trim_trunc|].
  unfold selectorLabels. constructor; [|constructor; [|constructor]].
  - intros _. simpl. apply (cut_trim_trunc _).
  - simpl. discriminate.
Qed.

Lemma contains_spec (substr s : string) :
  contains substr s = true <-> exists a b, s = (a ++ substr ++ b)%string.
Proof.
  split.
  - induction s as [|c s IH].
    + change (contains substr EmptyString)
        with (String.prefix substr EmptyString || false).
      rewrite orb_true_iff. intros [H|H]; [|discriminate].
      apply prefix_split in H as [b Hb]. exists EmptyString, b. exact Hb.
    + change (contains substr (String c s))
        with (String.prefix substr (String c s) || contains substr s).
      rewrite orb_true_iff. intros [H|H].
      * apply prefix_split in H as [b Hb]. exists EmptyString, b. exact Hb.
      * destruct (IH H) as (a & b & ->). exists (String c a), b. reflexivity.
  - intros (a & b & ->). induction a as [|c a IH].
    + assert (Hp : String.prefix substr (substr ++ b) = true).
      { apply prefix_split. now exists b. }
      change (EmptyString ++ substr ++ b)%string with (substr ++ b)%string.
      destruct (substr ++ b)%string as [|x rest].
      * change (contains substr EmptyString)
          with (String.prefix substr EmptyString || false).
        now rewrite Hp.
      * change (contains substr (String x rest))
          with (String.prefix substr (String x rest) || contains substr rest).
        now rewrite Hp.
    + change (String c a ++ substr ++ b)%string
        with (String c (a ++ substr ++ b))%string.
      change (contains substr (String c (a ++ substr ++ b)))
        with (String.prefix substr (String c (a ++ substr ++ b))
              || contains substr (a ++ substr ++ b)).
      rewrite IH. apply orb_true_r.
Qed.

(** X22.  Without a full-name override, a release whose name has the
    chart name (or its override) somewhere in it is named by the release
    name alone, cut to fit; every other release is named by the release
    name, a dash and the chart name, cut to fit.  An override, when
    given, is used instead, cut to fit. *)
Theorem fullname_cases (s : Scope) :
  let chartOrOverride := default (chartName (chart_ s)) (nameOverride (values s)) in
  (fullnameOverride (values s) <> EmptyString ->
   fullname s = trimSuffix "-" (trunc 63 (fullnameOverride (values s))))
  /\ (fullnameOverride (values s) = EmptyString ->
      (exists a b, releaseName (release s) = (a ++ chartOrOverride ++ b)%string) ->
      fullname s = trimSuffix "-" (trunc 63 (releaseName (release s))))
  /\ (fullnameOverride (values s) = EmptyString ->
      ~ (exists a b, releaseName (release s) = (a ++ chartOrOverride ++ b)%string) ->
      fullname s
      = trimSuffix "-" (trunc 63 (releaseName (release s) ++ "-" ++ chartOrOverride))).
Proof.
  intros chartOrOverride. unfold fullname. fold chartOrOverride.
  destruct (String.eqb_spec (fullnameOverride (values s)) EmptyString) as [He|He];
    simpl.
  - split; [intros H; contradiction|].
    destruct (contains chartOrOverride (releaseName (release s))) eqn:Hc.
    + split; [reflexivity|]. intros _ Hn. exfalso. apply Hn.
      now apply contains_spec.
    + split; [|reflexivity]. intros _ Hin.
      apply contains_spec in Hin. congruence.
  - split; [reflexivity|]. split; intros H; contradiction.
Qed.

Lemma replace_plus_step (c : ascii) (s : string) :
  replace_from "+" "_" 0 (String c s)
  = if ascii_dec "+" c
    then String "_" (replace_from "+" "_" 0 s)
    else String c (replace_from "+" "_" 0 s).
Proof.
  change (replace_from "+" "_" 0 (String c s))
    with (if String.prefix "+" (String c s)
          then ("_" ++ replace_from "+" "_" 0 s)%string
          else String c (replace_from "+" "_" 0 s)).
  change (String.prefix "+" (String c s))
    with (match ascii_dec "+" c with
          | left _ => String.prefix EmptyString s
          | right _ => false
          end).
  destruct (ascii_dec "+" c); [|reflexivity].
  assert (Hp : String.prefix EmptyString s = true) by (destruct s; reflexivity).
  rewrite Hp. reflexivity.
Qed.

Lemma replace_plus_free (s : string) :
  ~ In "+"%char (list_ascii_of_string (replace "+" "_" s)).
Proof.
  unfold replace. induction s as [|c s IH]; [simpl; tauto|].
  rewrite replace_plus_step.
  destruct (ascii_dec "+" c) as [<-|Hne];
    change (list_ascii_of_string (String ?x ?r)) with (x :: list_ascii_of_string r).
  - intros [H|H]; [discriminate | contradiction].
  - intros [H|H]; [now apply Hne | contradiction].
Qed.

Lemma prefix_In (a s : string) (c : ascii) :
  String.prefix a s = true ->
  In c (list_ascii_of_string a) -> In c (list_ascii_of_string s).
Proof.
  rewrite prefix_split. intros [b ->]. induction a as [|x a IH]; simpl.
  - contradiction.
  - intros [->|H]; [now left | right; now apply IH].
Qed.

(** X23.  The chart label has no plus sign, whatever the version of the
    chart: each one is replaced by an underscore before the cut. *)
Theorem chart_label_plus_free (s : Scope) :
  ~ In "+"%char (list_ascii_of_string (chart s)).
Proof.
  intros Hin.
  apply (replace_plus_free (dashed (chartName (chart_ s)) (chartVersion (chart_ s)))).
  eapply prefix_In; [|exact Hin].
  apply (cut_trim_trunc _).
Qed.

End helm_facts.

(** ** controllers: the operator as built *)
Module operator_facts.

Import operrors operrors_more client controllers pass_properties pass_more.
Import client_facts status_facts pass_facts trace_facts write_facts pass_more_facts.

(** X24.  With the encoder of the standard library no pass takes the
    AssemblyFailed branch.  The only error a pass ever returns is the
    transient one that wraps a failure of the list; in every other case
    it returns no error and asks for a requeue after thirty seconds (the
    artifact step failed), ten seconds (a status update failed) or not at
    all. *)
Theorem pass_results (r : DashboardAppReconciler) (env : Env) (c : Cluster) :
  exists out c' t,
    Reconcile json.MarshalIndent r env c = (out, c', t)
    /\ (forall object eventtype message,
          ~ In (RecordEvent object eventtype "AssemblyFailed" message) t)
    /\ (forall err, snd out = Some err ->
          exists cause,
            failList env = Some cause
            /\ err = NewTransientError "failed to list DashboardApps" (Some cause)
            /\ fst out = ctrl.noRequeue)
    /\ (snd out = None ->
        In (ctrl.RequeueAfter (fst out)) [0; 10 * config.Second; 30 * config.Second]).
Proof.
  destruct (Reconcile_outcomes json.MarshalIndent r env c)
    as (out & c' & t & Hrun & Hcase).
  exists out, c', t. split; [exact Hrun|].
  destruct Hcase as
    [(_ & Hev & _ & Hwhy)
    |(first & rest & He & Hf &
      [(err & Ha & _)
      |[(result & err & t1 & Ha & Hu & _ & _ & Hev & _)
       |(result & c1 & t1 & _ & _ & _ & _ & _ &
         [(_ & Hev & Hout)|(_ & Hev & Hout)])]])].
  - split.
    { intros o ty msg Hin. apply In_events in Hin; [|reflexivity].
      rewrite Hev in Hin. destruct Hin. }
    destruct (failList env) as [cause|] eqn:Hfl.
    + rewrite (Reconcile_list_failed json.MarshalIndent r env c cause Hfl) in Hrun.
      injection Hrun as <- _ _. simpl. split.
      * intros err [= <-]. exists cause. repeat split.
      * discriminate.
    + destruct Hwhy as [Hl|[_ ->]]; [now contradiction Hl|]. simpl. split.
      * discriminate.
      * intros _. now left.
  - destruct (assembler_facts.Assemble_total (apps c)) as [result Hok].
    rewrite Hok in Ha. discriminate.
  - pose proof (Reconcile_config_failed json.MarshalIndent r env c first rest
                  result err c t1 Hf He Ha Hu) as Hrun'.
    rewrite Hrun in Hrun'. injection Hrun' as -> _ _. simpl. split.
    { intros o ty msg Hin. apply In_events in Hin; [|reflexivity].
      rewrite Hev in Hin. destruct Hin as [[=]|[]]. }
    split; [discriminate|]. intros _. right; right; now left.
  - rewrite Hout. simpl. split.
    { intros o ty msg Hin. apply In_events in Hin; [|reflexivity].
      rewrite Hev in Hin. destruct Hin. }
    split; [discriminate|]. intros _. right; now left.
  - rewrite Hout. simpl. split.
    { intros o ty msg Hin. apply In_events in Hin; [|reflexivity].
      rewrite Hev in Hin. destruct Hin as [[=]|[]]. }
    split; [discriminate|]. intros _. now left.
Qed.

(** X25.  [updateAppsConfig] creates only on a NotFound and updates only
    what it read: a create appears in its trace only when the get
    answered with an error that [IsNotFound] accepts, and carries the new
    ConfigMap; an update appears only when the get returned an object
    whose stored hash differs from the fresh one, and carries that object
    overwritten. *)
Theorem writes_follow_the_read
    (r : DashboardAppReconciler) (result : assembler.AssemblyResult)
    (env : Env) (c : Cluster) :
  let hash := computeHash (assembler.AppsJSON result) in
  let body := assembler.AppsJSON result in
  exists failed c' t,
    updateAppsConfig r result env c = (failed, c', t)
    /\ (forall cm, In (CallCreate cm) t ->
          cm = newConfigMap r hash body
          /\ exists err,
               fst (fst (Get (artifactKey r) env c)) = inr err
               /\ IsNotFound err = true)
    /\ (forall cm, In (CallUpdate cm) t ->
          exists existing,
            fst (fst (Get (artifactKey r) env c)) = inl existing
            /\ storedHash existing <> hash
            /\ cm = overwrite existing hash body).
Proof.
  intros hash body. unfold updateAppsConfig, bind. fold hash body.
  destruct (Get_reads env c (artifactKey r)) as [got Hget]. rewrite Hget. simpl.
  destruct got as [existing|err].
  - fold (storedHash existing).
    destruct (String.eqb_spec (storedHash existing) hash) as [Heq|Hne].
    + do 3 eexists. split; [reflexivity|]. simpl.
      split; intros cm [H|[]]; discriminate.
    + destruct (Update_cases env c (overwrite existing hash body))
        as (failed & c' & Hrun & _).
      rewrite Hrun. do 3 eexists. split; [reflexivity|]. simpl. split.
      * intros cm [H|[H|[]]]; discriminate.
      * intros cm [H|[[= <-]|[]]]; [discriminate|].
        exists existing. repeat split. exact Hne.
  - destruct (IsNotFound err) eqn:Hnf.
    + destruct (Create_cases env c (newConfigMap r hash body))
        as (failed & c' & Hrun & _).
      rewrite Hrun. do 3 eexists. split; [reflexivity|]. simpl. split.
      * intros cm [H|[[= <-]|[]]]; [discriminate|].
        split; [reflexivity|]. exists err. split; [reflexivity | exact Hnf].
      * intros cm [H|[H|[]]]; discriminate.
    + do 3 eexists. split; [reflexivity|]. simpl.
      split; intros cm [H|[]]; discriminate.
Qed.

End operator_facts.

(** ** controllers: the conditions of an app *)
Module conditions_facts.

Import operrors client controllers pass_properties pass_more status_more.
Import client_facts status_facts pass_facts trace_facts pass_more_facts.

Lemma Forall2_sameConditions_refl (l : list v1alpha1.DashboardApp) :
  Forall2 sameConditions l l.
Proof. induction l; constructor; [reflexivity | assumption]. Qed.

(** The loop keeps the conditions of the stored apps, provided each item
    carries the conditions of the stored apps of its name. *)
Lemma updateStatuses_conditions env (items : list v1alpha1.DashboardApp) :
  forall c errs c' t,
    updateStatuses (now env) items env c = (errs, c', t) ->
    (forall it a, In it items -> In a (apps c) ->
       keyOf (v1alpha1.ObjectMeta a) = keyOf (v1alpha1.ObjectMeta it) ->
       sameConditions it a) ->
    Forall2 sameConditions (apps c) (apps c').
Proof.
  induction items as [|it rest IH]; intros c errs c' t Hrun Hinv.
  - injection Hrun as _ <- _. apply Forall2_sameConditions_refl.
  - simpl in Hrun. unfold bind at 1 in Hrun.
    set (k := keyOf (v1alpha1.ObjectMeta it)) in *.
    assert (Hrest : forall c1,
               apps c1 = apps c ->
               forall errs1 t1,
                 updateStatuses (now env) rest env c1 = (errs1, c', t1) ->
                 Forall2 sameConditions (apps c) (apps c')).
    { intros c1 Happs errs1 t1 Hrun1. rewrite <- Happs.
      apply (IH c1 errs1 c' t1 Hrun1).
      intros it' a Hin Ha. rewrite Happs in Ha. apply Hinv; [now right | exact Ha]. }
    destruct (failStatusUpdate env k) as [err|] eqn:Hfail.
    + rewrite (StatusUpdate_failed env c (markReady (now env) it) err Hfail) in Hrun.
      destruct (updateStatuses (now env) rest env c) as [[errs1 c1'] t1] eqn:Hrun1.
      unfold bind, ret in Hrun. rewrite Hrun1 in Hrun. injection Hrun as _ <- _.
      exact (Hrest c eq_refl errs1 t1 Hrun1).
    + destruct (existsb (hasKey k) (apps c)) eqn:Hex.
      * rewrite (StatusUpdate_stored env c (markReady (now env) it) Hfail Hex)
          in Hrun.
        rewrite key_markReady in Hrun. fold k in Hrun.
        set (f := fun a => if hasKey k a
                           then withStatus (v1alpha1.Status (markReady (now env) it)) a
                           else a) in *.
        set (c1 := {| apps := map f (apps c); configMaps := configMaps c |}) in *.
        destruct (updateStatuses (now env) rest env c1) as [[errs1 c1'] t1] eqn:Hrun1.
        unfold bind, ret in Hrun. rewrite Hrun1 in Hrun. injection Hrun as _ <- _.
        assert (Hf : forall a, In a (apps c) ->
                       sameConditions a (f a)
                       /\ keyOf (v1alpha1.ObjectMeta (f a))
                          = keyOf (v1alpha1.ObjectMeta a)).
        { intros a Ha. unfold f. destruct (hasKey k a) eqn:Hh; [|split; reflexivity].
          split; [|reflexivity].
          apply hasKey_eq in Hh. unfold sameConditions. simpl.
          symmetry. apply (Hinv it a); [now left | exact Ha | exact Hh]. }
        assert (H1 : Forall2 sameConditions (apps c1) (apps c1')).
        { apply (IH c1 errs1 c1' t1 Hrun1).
          intros it' a1 Hin Ha1 Hk. simpl in Ha1.
          apply in_map_iff in Ha1 as (a & <- & Ha).
          destruct (Hf a Ha) as [Hc Hkey].
          unfold sameConditions in *. rewrite Hc.
          apply Hinv; [now right | exact Ha | congruence]. }
        simpl in H1. clear - H1 Hf.
        revert H1 Hf. generalize (apps c1'). generalize (apps c).
        induction l as [|a l IHl]; intros l' H1 Hf; simpl in H1.
        -- inversion H1. constructor.
        -- inversion H1 as [|? a' ? l'' Ha' Hl']; subst. constructor.
           ++ destruct (Hf a (or_introl eq_refl)) as [Hc _].
              unfold sameConditions in *. congruence.
           ++ apply IHl; [exact Hl' | intros b Hb; apply Hf; now right].
      * rewrite (StatusUpdate_missing env c (markReady (now env) it) Hfail Hex)
          in Hrun.
        destruct (updateStatuses (now env) rest env c) as [[errs1 c1'] t1] eqn:Hrun1.
        unfold bind, ret in Hrun. rewrite Hrun1 in Hrun. injection Hrun as _ <- _.
        exact (Hrest c eq_refl errs1 t1 Hrun1).
Qed.

Lemma keysUnique_conditions (l : list v1alpha1.DashboardApp) :
  List.NoDup (map (fun a => keyOf (v1alpha1.ObjectMeta a)) l) ->
  forall it a, In it l -> In a l ->
    keyOf (v1alpha1.ObjectMeta a) = keyOf (v1alpha1.ObjectMeta it) ->
    sameConditions it a.
Proof.
  induction l as [|x l IH]; intros Hnd it a Hit Ha Hk; [destruct Hit|].
  simpl in Hnd. apply List.NoDup_cons_iff in Hnd as [Hnot Hnd].
  assert (Hin : forall b, In b l ->
            In (keyOf (v1alpha1.ObjectMeta b))
               (map (fun a => keyOf (v1alpha1.ObjectMeta a)) l)).
  { intros b Hb. apply in_map_iff. now exists b. }
  destruct Hit as [<-|Hit], Ha as [<-|Ha].
  - reflexivity.
  - exfalso. apply Hnot. rewrite <- Hk. now apply Hin.
  - exfalso. apply Hnot. rewrite Hk. now apply Hin.
  - now apply IH.
Qed.

Section Reconcile.
Variable MarshalIndent : list assembler.AppEntry -> string + error.

(** X17.  In a cluster where no two apps share namespace and name, a
    pass leaves the conditions of every app as they were, whatever
    succeeds and whatever fails: of the status it writes the ready flag
    and the time of the last sync and nothing else. *)
Theorem conditions_untouched
    (r : DashboardAppReconciler) (env : Env) (c : Cluster) :
  keysUnique c ->
  exists out c' t,
    Reconcile MarshalIndent r env c = (out, c', t)
    /\ Forall2 sameConditions (apps c) (apps c').
Proof.
  intros Hu.
  destruct (Reconcile_outcomes MarshalIndent r env c)
    as (out & c' & t & Hrun & Hcase).
  exists out, c', t. split; [exact Hrun|].
  destruct Hcase as
    [(-> & _)
    |(first & rest & He & Hf &
      [(err & _ & -> & _)
      |[(result & err & t1 & _ & _ & -> & _)
       |(result & c1 & t1 & Ha & Hcfg & _)]])];
    try apply Forall2_sameConditions_refl.
  destruct (updateStatuses (now env) (apps c) env c1) as [[errs c2] t2] eqn:Hs.
  rewrite (Reconcile_statuses MarshalIndent r env c first rest result c1 t1
             errs c2 t2 Hf He Ha Hcfg Hs) in Hrun.
  injection Hrun as _ <- _.
  pose proof (updateAppsConfig_apps _ _ _ _ _ _ _ Hcfg) as Happs.
  rewrite <- Happs.
  apply (updateStatuses_conditions env (apps c) c1 errs c2 t2 Hs).
  rewrite Happs. apply keysUnique_conditions. now apply NoDup_ListNoDup.
Qed.

End Reconcile.

Lemma conditions_untouched_witness :
  exists out c' t,
    Reconcile json.MarshalIndent scenario.reconciler scenario.calm conditioned
    = (out, c', t)
    /\ Forall2 sameConditions (apps conditioned) (apps c').
Proof.
  apply (conditions_untouched json.MarshalIndent scenario.reconciler scenario.calm
           conditioned).
  unfold keysUnique. simpl. apply NoDup_ListNoDup.
  repeat constructor; simpl; intros H;
    repeat (destruct H as [H|H]; [discriminate H|]); exact H.
Defined.

End conditions_facts.

(** ** The pass after the pass *)
Module relisting_facts.

Import operrors client controllers pass_properties pass_more relisting.
Import assembler_more.
Import client_facts status_facts pass_facts trace_facts write_facts.

(** Sorting does not depend on the order of its input when the
    comparison function tells the elements apart. *)
Lemma SortFunc_permuted (entries entries' : list assembler.AppEntry) :
  Permutation entries entries' ->
  (forall a b, In a entries -> In b entries ->
     assembler.compareEntries a b = Eq -> a = b) ->
  slices.SortFunc assembler.compareEntries entries'
  = slices.SortFunc assembler.compareEntries entries.
Proof.
  intros Hp Hd. symmetry.
  apply (assembler_more_facts.sorted_perm_unique
           (slices.le assembler.compareEntries)).
  - apply slices_facts.SortFunc_sorted;
      [apply assembler_facts.compareEntries_antisym
      | apply assembler_facts.compareEntries_le_trans].
  - apply slices_facts.SortFunc_sorted;
      [apply assembler_facts.compareEntries_antisym
      | apply assembler_facts.compareEntries_le_trans].
  - rewrite <- !slices_facts.SortFunc_perm. exact Hp.
  - intros a b Ha Hb Hab Hba.
    apply (Permutation_in _ (Permutation_sym (slices_facts.SortFunc_perm _ _)))
      in Ha, Hb.
    apply Hd; try assumption.
    unfold slices.le in Hab, Hba.
    rewrite assembler_facts.compareEntries_antisym in Hba.
    destruct (assembler.compareEntries a b);
      [reflexivity | exfalso; now apply Hba | exfalso; now apply Hab].
Qed.

(** A cluster listed again gives the assembler the same document. *)
Lemma Assemble_relisted
    (MarshalIndent : list assembler.AppEntry -> string + error) (c c' : Cluster) :
  relisted c c' -> orderKept c c' ->
  assembler.Assemble MarshalIndent (apps c')
  = assembler.Assemble MarshalIndent (apps c).
Proof.
  intros [Hp _] [Heq|Hd]; [now rewrite Heq|].
  unfold assembler.Assemble.
  rewrite (SortFunc_permuted (map assembler.entryOf (apps c))
             (map assembler.entryOf (apps c'))); [reflexivity | | ].
  - now apply Permutation_map.
  - intros a b Ha Hb.
    apply in_map_iff in Ha as (a0 & <- & Ha), Hb as (b0 & <- & Hb).
    now apply Hd.
Qed.

(** The pass over a cluster listed again, when the stored artifact
    carries the hash of the document and the store holds: no artifact
    write, the ConfigMaps as they are, the statuses sent. *)
Lemma Reconcile_relisted r env c c' result cm :
  storeReliable env ->
  relisted c c' -> orderKept c c' ->
  apps c <> [] ->
  assembler.Assemble json.MarshalIndent (apps c) = inl result ->
  configMaps c !! artifactKey r = Some cm ->
  storedHash cm = computeHash (assembler.AppsJSON result) ->
  keyOf (corev1.ObjectMeta cm) = artifactKey r ->
  exists c2 t2,
    Reconcile json.MarshalIndent r env c'
    = ((if existsb (statusFails env) (apps c')
        then ({| ctrl.RequeueAfter := 10 * config.Second |}, None)
        else (ctrl.noRequeue, None)), c2, t2)
    /\ assembler.Assemble json.MarshalIndent (apps c') = inl result
    /\ artifactWrites t2 = []
    /\ configMaps c2 = configMaps c
    /\ Forall2 (statusAfter env) (apps c') (apps c2).
Proof.
  intros Hr Hrel Hord Hne Ha Hl Hh Hk.
  pose proof (Assemble_relisted json.MarshalIndent c c' Hrel Hord) as Hsame.
  rewrite Ha in Hsame.
  destruct Hrel as [Hp Hcm].
  assert (Hnamed : artifactNamed r c').
  { intros cm' Hl'. rewrite Hcm, Hl in Hl'. injection Hl' as <-. exact Hk. }
  assert (Hshape : exists first rest, apps c' = first :: rest).
  { destruct (apps c') as [|first rest]; [|eauto].
    apply Permutation_sym, Permutation_nil in Hp. contradiction. }
  destruct Hshape as (first & rest & He).
  destruct (hash_facts.Reconcile_reliable json.MarshalIndent r env c' first rest
              result Hr Hnamed He Hsame)
    as (c2 & t2 & Hrun & Hw & _ & Hall).
  assert (Ht2 : artifactWrites t2 = []).
  { rewrite Hw. unfold dueWrite. rewrite Hcm, Hl, Hh, String.eqb_refl.
    reflexivity. }
  exists c2, t2. split; [exact Hrun|]. split; [exact Hsame|].
  split; [exact Ht2|]. split; [|exact Hall].
  destruct (Reconcile_writes json.MarshalIndent r env c')
    as (out' & c2' & t2' & Hrun' & Hshape).
  rewrite Hrun in Hrun'. injection Hrun' as _ <- <-.
  rewrite <- Hcm.
  destruct Hshape as [[_ Hsame']|(cm' & [Hone|Hone] & _)];
    [exact Hsame' | rewrite Ht2 in Hone; discriminate
     | rewrite Ht2 in Hone; discriminate].
Qed.

(** X15.  The status catches up.  After a pass in which the store held
    but status updates may have failed, a next pass in which nothing
    fails, over the same apps and ConfigMaps with the apps listed in the
    same order, or in any order when the comparison function tells their
    entries apart, writes no artifact, since the hash now matches, leaves
    every app with its name and spec, ready and synced at its own time,
    and returns no requeue and no error. *)
Theorem status_catches_up
    (r : DashboardAppReconciler) (env1 env2 : Env) (c0 : Cluster) :
  storeReliable env1 ->
  storeReliable env2 -> statusReliable env2 ->
  artifactNamed r c0 ->
  apps c0 <> [] ->
  exists out1 c1 t1,
    Reconcile json.MarshalIndent r env1 c0 = (out1, c1, t1)
    /\ Forall2 sameNameSpec (apps c0) (apps c1)
    /\ forall c1',
         relisted c1 c1' -> orderKept c1 c1' ->
         exists c2 t2,
           Reconcile json.MarshalIndent r env2 c1' = ((ctrl.noRequeue, None), c2, t2)
           /\ artifactWrites t2 = []
           /\ Forall2 sameNameSpec (apps c1') (apps c2)
           /\ Forall (fun a => v1alpha1.Ready (v1alpha1.Status a) = true
                               /\ v1alpha1.LastSyncedAt (v1alpha1.Status a)
                                  = Some (now env2)) (apps c2).
Proof.
  intros Hr1 Hr2 Hs2 Hnamed Hne.
  assert (Hshape : exists first rest, apps c0 = first :: rest).
  { destruct (apps c0) as [|first rest]; [contradiction | eauto]. }
  destruct Hshape as (first & rest & He).
  destruct (assembler_facts.Assemble_total (apps c0)) as [result Ha].
  destruct (hash_facts.Reconcile_reliable json.MarshalIndent r env1 c0 first rest
              result Hr1 Hnamed He Ha)
    as (c1 & t1 & Hrun1 & _ & (cm & Hl1 & Hh1 & Hk1) & Hall1).
  pose proof (Assemble_statusAfter json.MarshalIndent env1 _ _ Hall1) as Hsame.
  rewrite Ha in Hsame.
  assert (Hne1 : apps c1 <> []).
  { apply Forall2_length in Hall1. rewrite He in Hall1.
    destruct (apps c1); [discriminate | discriminate]. }
  do 3 eexists. split; [exact Hrun1|].
  split; [exact (pass_more_facts.statusAfter_sameNameSpec _ _ _ Hall1)|].
  intros c1' Hrel Hord.
  destruct (Reconcile_relisted r env2 c1 c1' result cm Hr2 Hrel Hord Hne1 Hsame
              Hl1 Hh1 Hk1)
    as (c2 & t2 & Hrun2 & _ & Ht2 & _ & Hall2).
  rewrite (hash_facts.existsb_statusFails_reliable env2 _ Hs2) in Hrun2.
  exists c2, t2. split; [exact Hrun2|]. split; [exact Ht2|].
  split; [exact (pass_more_facts.statusAfter_sameNameSpec _ _ _ Hall2)|].
  clear - Hall2 Hs2. induction Hall2 as [|a a' l l' (_ & _ & Hst) _ IH];
    constructor; [|exact IH].
  unfold statusFails in Hst. rewrite Hs2 in Hst. exact Hst.
Qed.

Lemma status_catches_up_witness :
  exists out1 c1 t1 c2 t2,
    Reconcile json.MarshalIndent scenario.reconciler scenario.giteaConflict
      scenario.fresh = (out1, c1, t1)
    /\ Forall2 sameNameSpec (apps scenario.fresh) (apps c1)
    /\ Reconcile json.MarshalIndent scenario.reconciler later c1
       = ((ctrl.noRequeue, None), c2, t2)
    /\ artifactWrites t2 = []
    /\ Forall2 sameNameSpec (apps c1) (apps c2)
    /\ Forall (fun a => v1alpha1.Ready (v1alpha1.Status a) = true
                        /\ v1alpha1.LastSyncedAt (v1alpha1.Status a)
                           = Some (now later)) (apps c2).
Proof.
  destruct (status_catches_up scenario.reconciler scenario.giteaConflict later
              scenario.fresh) as (out1 & c1 & t1 & Hrun1 & Hsame & Hnext).
  - repeat split.
  - repeat split.
  - intros key. reflexivity.
  - intros cm Hl. vm_compute in Hl. discriminate.
  - discriminate.
  - destruct (Hnext c1) as (c2 & t2 & Hrun2 & Hrest).
    + split; [apply Permutation_refl | reflexivity].
    + left. reflexivity.
    + exists out1, c1, t1, c2, t2.
      split; [exact Hrun1|]. split; [exact Hsame|]. split; [exact Hrun2|].
      exact Hrest.
Defined.

End relisting_facts.

(** ** The claim on two passes *)
Module publish_claims.

Import operrors client controllers pass_properties relisting.
Import client_facts status_facts pass_facts trace_facts write_facts relisting_facts.

(** C1, as stated, fails, in three ways.  Over a cluster whose artifact
    is already that of its three apps, a calm pass writes no artifact,
    and neither does the pass after it: two passes over the unchanged
    collection make no write at all, not exactly one.  The same holds of
    two passes over the empty collection, from a cluster without any
    artifact.  And over two apps that tie, the first pass creates the
    artifact and the second, which finds the same two apps listed the
    other way round, writes again. *)
Lemma two_passes_not_one_write :
  (map assembler.entryOf (apps scenario.published)
   = map assembler.entryOf assembler_test.apps
   /\ artifactWrites
        (snd (Reconcile json.MarshalIndent scenario.reconciler scenario.calm
                scenario.published)) = []
   /\ artifactWrites
        (snd (Reconcile json.MarshalIndent scenario.reconciler scenario.calm
                (snd (fst (Reconcile json.MarshalIndent scenario.reconciler
                             scenario.calm scenario.published))))) = []
   /\ length
        (artifactWrites
           (snd (Reconcile json.MarshalIndent scenario.reconciler scenario.calm
                   scenario.published))) <> 1%nat)
  /\ (Reconcile json.MarshalIndent scenario.reconciler scenario.calm scenario.bare
      = ((ctrl.noRequeue, None), scenario.bare, [CallList])
      /\ length (artifactWrites [CallList]) <> 1%nat)
  /\ (relisted tiedPublished tiedRelisted
      /\ map v1alpha1.Spec (apps tiedPublished) = map v1alpha1.Spec (apps tied)
      /\ length
           (artifactWrites
              (snd (Reconcile json.MarshalIndent scenario.reconciler scenario.calm
                      tied))) = 1%nat
      /\ length
           (artifactWrites
              (snd (Reconcile json.MarshalIndent scenario.reconciler scenario.calm
                      tiedRelisted))) = 1%nat).
Proof.
  split; [|split].
  - split; [vm_compute; reflexivity|].
    split; [vm_compute; reflexivity|].
    split; [vm_compute; reflexivity|].
    vm_compute. discriminate.
  - split; [reflexivity | discriminate].
  - split.
    { split; [|reflexivity]. unfold tiedRelisted. simpl. apply Permutation_rev. }
    split; [vm_compute; reflexivity|].
    split; vm_compute; reflexivity.
Qed.

(** C1, amended.  Over a collection that is not empty, with no list,
    get, create or update failing, the first pass makes exactly the write
    that is due and no other: a create of body and hash when there is no
    artifact, nothing when the stored hash equals the hash of the fresh
    document, an update when it differs; so at most one.  It leaves the
    artifact with the hash of the document.  A second pass over the same
    apps and ConfigMaps, with the apps listed in the same order, or in
    any order when the comparison function tells their entries apart,
    assembles the same document, makes no artifact write and leaves the
    ConfigMaps as they are. *)
Theorem idempotent_publish
    (r : DashboardAppReconciler) (env1 env2 : Env) (c0 : Cluster) :
  storeReliable env1 -> storeReliable env2 ->
  artifactNamed r c0 ->
  apps c0 <> [] ->
  exists result out1 c1 t1,
    assembler.Assemble json.MarshalIndent (apps c0) = inl result
    /\ Reconcile json.MarshalIndent r env1 c0 = (out1, c1, t1)
    /\ artifactWrites t1
       = match configMaps c0 !! artifactKey r with
         | None =>
             [CallCreate (newConfigMap r (computeHash (assembler.AppsJSON result))
                            (assembler.AppsJSON result))]
         | Some cm =>
             if String.eqb (storedHash cm) (computeHash (assembler.AppsJSON result))
             then []
             else [CallUpdate (overwrite cm (computeHash (assembler.AppsJSON result))
                                 (assembler.AppsJSON result))]
         end
    /\ (length (artifactWrites t1) <= 1)%nat
    /\ (exists cm,
          configMaps c1 !! artifactKey r = Some cm
          /\ storedHash cm = computeHash (assembler.AppsJSON result))
    /\ forall c1',
         relisted c1 c1' -> orderKept c1 c1' ->
         exists out2 c2 t2,
           Reconcile json.MarshalIndent r env2 c1' = (out2, c2, t2)
           /\ assembler.Assemble json.MarshalIndent (apps c1') = inl result
           /\ artifactWrites t2 = []
           /\ configMaps c2 = configMaps c1.
Proof.
  intros Hr1 Hr2 Hnamed Hne.
  assert (Hshape : exists first rest, apps c0 = first :: rest).
  { destruct (apps c0) as [|first rest]; [contradiction | eauto]. }
  destruct Hshape as (first & rest & He).
  destruct (assembler_facts.Assemble_total (apps c0)) as [result Ha].
  destruct (Reconcile_publishes json.MarshalIndent r env1 c0 first rest result
              Hr1 Hnamed He Ha)
    as (out1 & c1 & t1 & Hrun1 & Hw1 & (cm & Hl1 & Hh1 & Hk1) & Hall).
  pose proof (Assemble_statusAfter json.MarshalIndent env1 _ _ Hall) as Hsame.
  rewrite Ha in Hsame.
  assert (Hne1 : apps c1 <> []).
  { apply Forall2_length in Hall. rewrite He in Hall.
    destruct (apps c1); [discriminate | discriminate]. }
  exists result, out1, c1, t1.
  split; [exact Ha|]. split; [exact Hrun1|]. split; [exact Hw1|].
  split.
  { rewrite Hw1. unfold dueWrite.
    destruct (configMaps c0 !! artifactKey r); [|simpl; lia].
    destruct (String.eqb _ _); simpl; lia. }
  split; [exists cm; split; assumption|].
  intros c1' Hrel Hord.
  destruct (Reconcile_relisted r env2 c1 c1' result cm Hr2 Hrel Hord Hne1 Hsame
              Hl1 Hh1 Hk1)
    as (c2 & t2 & Hrun2 & Ha2 & Ht2 & Hcm2 & _).
  do 3 eexists. split; [exact Hrun2|]. split; [exact Ha2|].
  split; [exact Ht2 | exact Hcm2].
Qed.

Lemma idempotent_publish_witness :
  exists result out1 c1 t1 out2 c2 t2,
    assembler.Assemble json.MarshalIndent (apps scenario.fresh) = inl result
    /\ Reconcile json.MarshalIndent scenario.reconciler scenario.calm scenario.fresh
       = (out1, c1, t1)
    /\ artifactWrites t1
       = [CallCreate (newConfigMap scenario.reconciler
                        (computeHash (assembler.AppsJSON result))
                        (assembler.AppsJSON result))]
    /\ (length (artifactWrites t1) <= 1)%nat
    /\ (exists cm,
          configMaps c1 !! artifactKey scenario.reconciler = Some cm
          /\ storedHash cm = computeHash (assembler.AppsJSON result))
    /\ Reconcile json.MarshalIndent scenario.reconciler scenario.calm
         {| apps := rev (apps c1); configMaps := configMaps c1 |}
       = (out2, c2, t2)
    /\ assembler.Assemble json.MarshalIndent (rev (apps c1)) = inl result
    /\ artifactWrites t2 = []
    /\ configMaps c2 = configMaps c1.
Proof.
  destruct (idempotent_publish scenario.reconciler scenario.calm scenario.calm
              scenario.fresh)
    as (result & out1 & c1 & t1 & Ha & Hrun1 & Hw1 & Hlen & Hcm & Hnext).
  - repeat split.
  - repeat split.
  - intros cm Hl. vm_compute in Hl. discriminate.
  - discriminate.
  - assert (Hc1 : c1 = scenario.published).
    { unfold scenario.published. now rewrite Hrun1. }
    destruct (Hnext {| apps := rev (apps c1); configMaps := configMaps c1 |})
      as (out2 & c2 & t2 & Hrun2 & Ha2 & Ht2 & Hcm2).
    + split; [apply Permutation_rev | reflexivity].
    + right. rewrite Hc1.
      assert (Hspecs : map assembler.entryOf (apps scenario.published)
                       = map assembler.entryOf assembler_test.apps).
      { vm_compute. reflexivity. }
      intros a b Hina Hinb.
      apply (in_map assembler.entryOf) in Hina, Hinb.
      rewrite Hspecs in Hina, Hinb.
      revert Hina Hinb.
      generalize (assembler.entryOf a), (assembler.entryOf b).
      intros ea eb Hina Hinb. simpl in Hina, Hinb.
      destruct Hina as [<-|[<-|[<-|[]]]]; destruct Hinb as [<-|[<-|[<-|[]]]];
        vm_compute; intros H; (reflexivity || discriminate H).
    + exists result, out1, c1, t1, out2, c2, t2.
      split; [exact Ha|]. split; [exact Hrun1|]. split; [exact Hw1|].
      split; [exact Hlen|]. split; [exact Hcm|]. split; [exact Hrun2|].
      split; [exact Ha2|]. split; [exact Ht2 | exact Hcm2].
Defined.

End publish_claims.
